(** * The roulette ingestion job: validation, watermark filter, dimension
      get-or-create, bulk insert, and the retention pruner.

    Shallow embedding of
      - [src/app/api/scores/schemas.ts]           (the zod schema),
      - [src/scripts/process-roulette-data.ts]    (the ingestion pipeline;
        the request handler [scores/route copy.ts] has the same body),
      - the [cleanupOldRouletteEvents] variants   (the retention pruner),
      - [logError] of the scripts and of the shared actions, [GET] of the
        scores route, and the older handler [score/route copy.ts],
    with the points where the standalone JS script departs from them.

    Conventions.
      - A JS [Date] is its time value: milliseconds since the epoch, in [Z].
        One clock serves [new Date()] and the database's [NOW()]; the host's
        time zone is UTC.
      - JSON numbers are taken in [Z].
      - A SQL table is the list of its rows in insertion order; a [SERIAL]
        column draws from a counter kept in the store. A statement fails
        only on the [UNIQUE] constraint it can meet; connection and driver
        failures are not part of the model.
      - The statements of one run are issued in array order: the callbacks
        of [Array.map] start in order and the fan-out of [Promise.all] is
        read as that sequence.
      - Every statement sent to the database is recorded in a log, so that
        "no statement of this kind is issued" can be stated.
      - [error_logs] is written only by [logError]. In the pipeline the call
        is recorded in the log; the table is modelled on its own, with
        [logError] as a function on it whose two statements may fail. *)

From stdpp Require Import gmap strings list.
From Stdlib Require Import ZArith Lia Ascii.

Local Open Scope string_scope.
Local Open Scope list_scope.
Local Open Scope Z_scope.

(** ** Validated events ([z.infer<typeof RouletteEventSchema>]) *)

Record RouletteOutcome := mkOutcome {
  o_number : Z;
  o_type : string;
  o_color : string
}.

Record RouletteTable := mkTable {
  t_id : string;
  t_name : string
}.

Record LuckyNumber := mkLucky {
  l_number : Z;
  l_roundedMultiplier : Z
}.

Record RouletteResult := mkResult {
  outcome : RouletteOutcome;
  luckyNumbersList : option (list LuckyNumber)
}.

Record RouletteData := mkData {
  d_id : string;
  startedAt : Z;
  settledAt : Z;
  status : string;
  gameType : string;
  table : RouletteTable;
  result : RouletteResult
}.

Record RouletteEvent := mkEvent {
  e_id : string;
  data : RouletteData
}.

(** ** The persisted store *)

(** [casino(id SERIAL PRIMARY KEY, table_id TEXT UNIQUE NOT NULL,
            table_name TEXT NOT NULL, created_at DEFAULT NOW())] *)
Record casino_row := mkCasino {
  c_id : Z;
  c_table_id : string;
  c_table_name : string;
  c_created_at : Z
}.

(** The object pushed on [rouletteEventsData]: the columns the pipeline
    supplies to the bulk insert. *)
Record event_data := mkEventData {
  event_id : string;
  started_at : Z;
  settled_at : Z;
  outcome_number : Z;
  outcome_type : string;
  outcome_color : string;
  casino_id : Z
}.

(** [roulette_events(id SERIAL PRIMARY KEY, event_id TEXT UNIQUE NOT NULL, ...,
     casino_id INTEGER REFERENCES casino(id), created_at DEFAULT NOW())].
    [casino_id] is nullable in the schema. *)
Record event_row := mkEventRow {
  re_id : Z;
  re_event_id : string;
  re_started_at : Z;
  re_settled_at : Z;
  re_outcome_number : Z;
  re_outcome_type : string;
  re_outcome_color : string;
  re_casino_id : option Z;
  re_created_at : Z
}.

Record store := mkStore {
  casino : list casino_row;
  roulette_events : list event_row;
  casino_id_seq : Z;
  roulette_events_id_seq : Z
}.

(** ** Errors and the statement log *)

Inductive error :=
| HttpError (http_status : Z)          (* new Error(`HTTP error! status: ...`) *)
| ZodError                             (* thrown by RouletteEventsArraySchema.parse *)
| UniqueViolation (constraint : string) (* PostgresError 23505 *)
| InvalidFields                        (* new Error("Invalid fields!") *)
| ReferenceError (name : string).      (* an identifier that is not in scope *)

Inductive query :=
| QCreateTables
| QSelectMaxSettled (tableId : string)
| QSelectMaxSettledAll
| QSelectCasino (tableId tableName : string)
| QInsertCasino (tableId tableName : string)
| QInsertEvents (rows : list event_data)
| QDeleteEvents (before : Z)
| QLogError (e : error) (context : string).

Inductive outcome_of (A : Type) :=
| Ok (a : A)
| Err (e : error).
Arguments Ok {A} a.
Arguments Err {A} e.

(** ** A state, log and exception monad for the async functions *)

Definition M (A : Type) : Type := store -> outcome_of A * store * list query.

Definition ret {A} (a : A) : M A := fun s => (Ok a, s, []).

Definition throw {A} (e : error) : M A := fun s => (Err e, s, []).

Definition bind {A B} (m : M A) (f : A -> M B) : M B :=
  fun s =>
    match m s with
    | (Ok a, s1, q1) => let '(r, s2, q2) := f a s1 in (r, s2, q1 ++ q2)
    | (Err e, s1, q1) => (Err e, s1, q1)
    end.

(** [try { m } catch (error) { h error }] *)
Definition try_catch {A} (m : M A) (h : error -> M A) : M A :=
  fun s =>
    match m s with
    | (Ok a, s1, q1) => (Ok a, s1, q1)
    | (Err e, s1, q1) => let '(r, s2, q2) := h e s1 in (r, s2, q1 ++ q2)
    end.

(** A started promise: it runs to its end whatever its result, which is
    looked at by [Promise.all] afterwards. *)
Definition settle {A} (m : M A) : M (outcome_of A) :=
  fun s => let '(r, s1, q1) := m s in (Ok r, s1, q1).

Declare Scope m_scope.
Delimit Scope m_scope with m.
Notation "x <- m ;; k" := (bind m (fun x => k))
  (at level 100, m at next level, right associativity) : m_scope.
Notation "m ;;; k" := (bind m (fun _ => k))
  (at level 100, right associativity) : m_scope.
Local Open Scope m_scope.

Fixpoint traverse {A B} (f : A -> M B) (l : list A) : M (list B) :=
  match l with
  | [] => ret []
  | x :: xs => y <- f x ;; ys <- traverse f xs ;; ret (y :: ys)
  end.

(** [await Promise.all(promises)]: every promise has run; the result is the
    array of values, or the rejection of the first promise that failed. *)
Fixpoint all_settled {A} (rs : list (outcome_of A)) : outcome_of (list A) :=
  match rs with
  | [] => Ok []
  | Ok a :: rs' =>
      match all_settled rs' with
      | Ok l => Ok (a :: l)
      | Err e => Err e
      end
  | Err e :: _ => Err e
  end.

Definition Promise_all {A B} (f : A -> M B) (l : list A) : M (list B) :=
  rs <- traverse (fun x => settle (f x)) l ;;
  match all_settled rs with
  | Ok vs => ret vs
  | Err e => throw e
  end.

(** ** SQL statements of the pipeline *)

(** [SELECT MAX(re.settled_at) FROM roulette_events re
     JOIN casino c ON re.casino_id = c.id WHERE c.table_id = ${tableId}] *)
Definition joins (tableId : string) (re : event_row) (c : casino_row) : bool :=
  bool_decide (re_casino_id re = Some (c_id c)) && bool_decide (c_table_id c = tableId).

Definition joined_settled (s : store) (tableId : string) : list Z :=
  flat_map (fun re =>
    map (fun _ => re_settled_at re)
        (List.filter (joins tableId re) (casino s)))
    (roulette_events s).

Fixpoint sql_max (l : list Z) : option Z :=
  match l with
  | [] => None
  | x :: xs =>
      match sql_max xs with
      | None => Some x
      | Some m => Some (Z.max x m)
      end
  end.

Definition select_max_settled (tableId : string) : M (option Z) :=
  fun s => (Ok (sql_max (joined_settled s tableId)), s, [QSelectMaxSettled tableId]).

(** [SELECT id FROM casino WHERE table_id = ${tableId} AND table_name = ${tableName}] *)
Definition casino_matches (tableId tableName : string) (c : casino_row) : bool :=
  bool_decide (c_table_id c = tableId) && bool_decide (c_table_name c = tableName).

Definition select_casino (tableId tableName : string) : M (list Z) :=
  fun s => (Ok (map c_id (List.filter (casino_matches tableId tableName) (casino s))),
            s, [QSelectCasino tableId tableName]).

(** [INSERT INTO casino (table_id, table_name) VALUES (...) RETURNING id].
    [table_id] is [UNIQUE]: a row with the same [table_id] makes the statement
    fail. The sequence value is drawn before the constraint is checked. *)
Definition has_table_id (tableId : string) (cs : list casino_row) : bool :=
  existsb (fun c => bool_decide (c_table_id c = tableId)) cs.

Definition insert_casino (now : Z) (tableId tableName : string) : M Z :=
  fun s =>
    let id := casino_id_seq s in
    if has_table_id tableId (casino s)
    then (Err (UniqueViolation "casino_table_id_key"),
          mkStore (casino s) (roulette_events s) (id + 1) (roulette_events_id_seq s),
          [QInsertCasino tableId tableName])
    else (Ok id,
          mkStore (casino s ++ [mkCasino id tableId tableName now])
                  (roulette_events s) (id + 1) (roulette_events_id_seq s),
          [QInsertCasino tableId tableName]).

(** [INSERT INTO roulette_events ${sql(rows, ...)} ON CONFLICT (event_id) DO NOTHING]:
    a row whose [event_id] is already in the table, or was inserted earlier
    by the same statement, is skipped. *)
Definition has_event_id (eid : string) (rs : list event_row) : bool :=
  existsb (fun r => bool_decide (re_event_id r = eid)) rs.

Definition insert_event_row (now : Z) (acc : list event_row * Z) (d : event_data)
  : list event_row * Z :=
  let '(rs, seq) := acc in
  if has_event_id (event_id d) rs
  then (rs, seq + 1)
  else (rs ++ [mkEventRow seq (event_id d) (started_at d) (settled_at d)
                 (outcome_number d) (outcome_type d) (outcome_color d)
                 (Some (casino_id d)) now],
        seq + 1).

Definition insert_events (now : Z) (rows : list event_data) : M unit :=
  fun s =>
    let '(rs, seq) := fold_left (insert_event_row now) rows
                        (roulette_events s, roulette_events_id_seq s) in
    (Ok tt, mkStore (casino s) rs (casino_id_seq s) seq, [QInsertEvents rows]).

(** [createTables]: three [CREATE TABLE IF NOT EXISTS]; the store modelled
    here has its tables, so nothing changes. *)
Definition createTables : M unit :=
  fun s => (Ok tt, s, [QCreateTables]).

(** [logError(error, context)]: reads and writes [error_logs] only and
    swallows its own failures. *)
Definition logError (e : error) (context : string) : M unit :=
  fun s => (Ok tt, s, [QLogError e context]).

(** ** [processRouletteData], from the validated batch on
       ([src/scripts/process-roulette-data.ts], lines 114-242) *)

(** [Set.prototype.add] on a set kept in insertion order. *)
Definition set_add (x : string) (l : list string) : list string :=
  if bool_decide (x ∈ l) then l else l ++ [x].

Definition uniqueTableIds (validatedFields : list RouletteEvent) : list string :=
  fold_left (fun acc event => set_add (t_id (table (data event))) acc) validatedFields [].

(** One query per element of [uniqueTableIds]; each returns
    [{ tableId, latestSettledAt }]. *)
Definition casinoQueries (ids : list string) : M (list (string * option Z)) :=
  Promise_all (fun tableId =>
                 latest <- select_max_settled tableId ;;
                 ret (tableId, latest)) ids.

(** [if (latestSettledAt) casinoLatestSettledMap.set(tableId, new Date(latestSettledAt))]:
    the driver returns a [Date] (truthy) or [null]. *)
Definition casinoLatestSettledMap (latestSettledResults : list (string * option Z))
  : gmap string Z :=
  fold_left (fun m r =>
               match r.2 with
               | Some latestSettledAt => <[r.1 := latestSettledAt]> m
               | None => m
               end) latestSettledResults ∅.

(** The predicate of [validatedFields.filter]. *)
Definition admitted (latest : gmap string Z) (event : RouletteEvent) : bool :=
  if negb (bool_decide (status (data event) = "Resolved")) then false
  else match latest !! t_id (table (data event)) with
       | None => true
       | Some latestSettledAt => latestSettledAt <? settledAt (data event)
       end.

Definition resolvedEvents (latest : gmap string Z) (validatedFields : list RouletteEvent)
  : list RouletteEvent :=
  List.filter (admitted latest) validatedFields.

(** [uniqueTables]: a [Map] from table id to the first name seen for it. *)
Definition has_key (k : string) (l : list (string * string)) : bool :=
  existsb (fun p => bool_decide (p.1 = k)) l.

Definition uniqueTables (resolved : list RouletteEvent) : list (string * string) :=
  fold_left (fun acc event =>
               let id := t_id (table (data event)) in
               let name := t_name (table (data event)) in
               if negb (has_key id acc) then acc ++ [(id, name)] else acc)
            resolved [].

(** The body of one [casinoPromises] callback. *)
Definition get_or_create (now : Z) (p : string * string) : M (string * Z) :=
  let '(tableId, tableName) := p in
  casinoResult <- select_casino tableId tableName ;;
  match casinoResult with
  | [] => id <- insert_casino now tableId tableName ;; ret (tableId, id)
  | id :: _ => ret (tableId, id)
  end.

Definition casinoCache (casinoResults : list (string * Z)) : gmap string Z :=
  fold_left (fun m r => <[r.1 := r.2]> m) casinoResults ∅.

(** The second [resolvedEvents.forEach]: [!casinoId] holds for [undefined]
    and for [0]. *)
Definition build_row (cache : gmap string Z) (event : RouletteEvent) : outcome_of event_data :=
  let d := data event in
  match cache !! t_id (table d) with
  | None => Err InvalidFields
  | Some casinoId =>
      if casinoId =? 0 then Err InvalidFields
      else Ok (mkEventData (d_id d) (startedAt d) (settledAt d)
                 (o_number (outcome (result d)))
                 (o_type (outcome (result d)))
                 (o_color (outcome (result d)))
                 casinoId)
  end.

Fixpoint build_rows (cache : gmap string Z) (resolved : list RouletteEvent)
  : outcome_of (list event_data) :=
  match resolved with
  | [] => Ok []
  | event :: rest =>
      match build_row cache event with
      | Err e => Err e
      | Ok row =>
          match build_rows cache rest with
          | Err e => Err e
          | Ok rows => Ok (row :: rows)
          end
      end
  end.

Definition lift {A} (r : outcome_of A) : M A :=
  match r with
  | Ok a => ret a
  | Err e => throw e
  end.

Record processed_result := mkProcessed { processed : nat }.

(** The [try] block after [RouletteEventsArraySchema.parse]. *)
Definition ingest (now : Z) (validatedFields : list RouletteEvent) : M processed_result :=
  latestSettledResults <- casinoQueries (uniqueTableIds validatedFields) ;;
  let latest := casinoLatestSettledMap latestSettledResults in
  let resolved := resolvedEvents latest validatedFields in
  if (length resolved =? 0)%nat then ret (mkProcessed 0)
  else
    casinoResults <- Promise_all (get_or_create now) (uniqueTables resolved) ;;
    let cache := casinoCache casinoResults in
    rouletteEventsData <- lift (build_rows cache resolved) ;;
    (if (0 <? length rouletteEventsData)%nat
     then insert_events now rouletteEventsData
     else ret tt) ;;;
    ret (mkProcessed (length resolved)).

(** [catch (error) { if (error instanceof Error) await logError(error, ...); throw error }] *)
Definition logged {A} (context : string) (m : M A) : M A :=
  try_catch m (fun e => logError e context ;;; throw e).

(** [processRouletteData] once the payload has passed the schema. *)
Definition processValidated (now : Z) (validatedFields : list RouletteEvent)
  : M processed_result :=
  logged "processRouletteData" (createTables ;;; ingest now validatedFields).

(** ** The schema ([src/app/api/scores/schemas.ts]) *)

(** A parsed JSON value. Numbers are taken in [Z]; the fields of an object
    are its key/value pairs, keys distinct after [JSON.parse]. *)
#[local] Unset Elimination Schemes.
Inductive json :=
| JNull
| JBool (b : bool)
| JNum (n : Z)
| JStr (s : string)
| JArr (items : list json)
| JObj (fields : list (string * json)).
#[local] Set Elimination Schemes.

(** [input[key]], [None] for [undefined]. *)
Fixpoint get (key : string) (fields : list (string * json)) : option json :=
  match fields with
  | [] => None
  | (k, v) :: rest => if bool_decide (k = key) then Some v else get key rest
  end.

Definition z_string (input : option json) : option string :=
  match input with
  | Some (JStr s) => Some s
  | _ => None
  end.

Definition z_number (input : option json) : option Z :=
  match input with
  | Some (JNum n) => Some n
  | _ => None
  end.

(** [z.literal([...])]: the input is one of the listed strings. *)
Definition z_literal (values : list string) (input : option json) : option string :=
  match input with
  | Some (JStr s) => if bool_decide (s ∈ values) then Some s else None
  | _ => None
  end.

(** [z.object({...})] accepts objects only; [shape] reads the fields. *)
Definition z_object {A} (shape : list (string * json) -> option A) (input : option json)
  : option A :=
  match input with
  | Some (JObj fields) => shape fields
  | _ => None
  end.

Definition z_array {A} (element : option json -> option A) (input : option json)
  : option (list A) :=
  match input with
  | Some (JArr items) => mapM (fun item => element (Some item)) items
  | _ => None
  end.

(** [schema.optional()]: [undefined] passes as itself. *)
Definition z_optional {A} (schema : option json -> option A) (input : option json)
  : option (option A) :=
  match input with
  | None => Some None
  | Some _ => Some <$> schema input
  end.

(** The upstream answer: [response.ok], [response.status], [response.json()]. *)
Record response := mkResponse {
  resp_ok : bool;
  resp_status : Z;
  resp_json : json
}.

Section Schema.

(** [z.coerce.date()] is [new Date(input)], rejected when the date is
    invalid. The [Date] constructor belongs to the runtime and is a
    parameter here; a missing field is [new Date(undefined)], invalid. *)
Variable coerce_date : json -> option Z.

Definition z_coerce_date (input : option json) : option Z :=
  match input with
  | Some j => coerce_date j
  | None => None
  end.

Definition RouletteOutcomeSchema : option json -> option RouletteOutcome :=
  z_object (fun f =>
    number ← z_number (get "number" f);
    type ← z_literal ["Even"; "Odd"] (get "type" f);
    color ← z_literal ["Red"; "Black"; "Green"] (get "color" f);
    Some (mkOutcome number type color)).

Definition RouletteTableSchema : option json -> option RouletteTable :=
  z_object (fun f =>
    id ← z_string (get "id" f);
    name ← z_string (get "name" f);
    Some (mkTable id name)).

Definition LuckyNumberSchema : option json -> option LuckyNumber :=
  z_object (fun f =>
    number ← z_number (get "number" f);
    roundedMultiplier ← z_number (get "roundedMultiplier" f);
    Some (mkLucky number roundedMultiplier)).

Definition RouletteResultSchema : option json -> option RouletteResult :=
  z_object (fun f =>
    outcome ← RouletteOutcomeSchema (get "outcome" f);
    lucky ← z_optional (z_array LuckyNumberSchema) (get "luckyNumbersList" f);
    Some (mkResult outcome lucky)).

Definition RouletteDataSchema : option json -> option RouletteData :=
  z_object (fun f =>
    id ← z_string (get "id" f);
    startedAt ← z_coerce_date (get "startedAt" f);
    settledAt ← z_coerce_date (get "settledAt" f);
    status ← z_string (get "status" f);
    gameType ← z_string (get "gameType" f);
    table ← RouletteTableSchema (get "table" f);
    result ← RouletteResultSchema (get "result" f);
    Some (mkData id startedAt settledAt status gameType table result)).

Definition RouletteEventSchema : option json -> option RouletteEvent :=
  z_object (fun f =>
    id ← z_string (get "id" f);
    data ← RouletteDataSchema (get "data" f);
    Some (mkEvent id data)).

Definition RouletteEventsArraySchema : option json -> option (list RouletteEvent) :=
  z_array RouletteEventSchema.

(** [RouletteEventsArraySchema.parse(events)] throws on failure. *)
Definition parse (events : json) : outcome_of (list RouletteEvent) :=
  match RouletteEventsArraySchema (Some events) with
  | Some validatedFields => Ok validatedFields
  | None => Err ZodError
  end.

Definition fetchRouletteData (r : response) : M json :=
  if negb (resp_ok r) then throw (HttpError (resp_status r))
  else ret (resp_json r).

Definition processRouletteData (now : Z) (r : response) : M processed_result :=
  logged "processRouletteData"
    (createTables ;;;
     events <- fetchRouletteData r ;;
     validatedFields <- lift (parse events) ;;
     ingest now validatedFields).

End Schema.

(** ** Variants kept in the repository *)

(** The older request handler ([src/app/api/score/route copy.ts]): one
    watermark for the whole fact table,
    [SELECT MAX(settled_at) as latest_settled_at FROM roulette_events]. *)
Module Legacy.
Definition select_max_settled : M (option Z) :=
  fun s => (Ok (sql_max (map re_settled_at (roulette_events s))), s, [QSelectMaxSettledAll]).

Definition admitted (latestSettledAt : option Z) (event : RouletteEvent) : bool :=
  if negb (bool_decide (status (data event) = "Resolved")) then false
  else match latestSettledAt with
       | None => true
       | Some latest => latest <? settledAt (data event)
       end.
End Legacy.

(** The standalone JS script (its schema is declared in the script itself):
    parity and colour are any strings. *)
Module Widened.
Definition RouletteOutcomeSchema : option json -> option RouletteOutcome :=
  z_object (fun f =>
    number ← z_number (get "number" f);
    type ← z_string (get "type" f);
    color ← z_string (get "color" f);
    Some (mkOutcome number type color)).
End Widened.

(** ** Calendar arithmetic of [Date] (ECMAScript, Date objects), with the
       host's time zone taken as UTC *)

Definition msPerDay : Z := 86400000.

Definition Day (t : Z) : Z := t / msPerDay.

Definition TimeWithinDay (t : Z) : Z := t mod msPerDay.

(** Day number of the civil date [y]-[m]-[d], [m] in 1..12, day 0 being
    1970-01-01. *)
Definition days_from_civil (y m d : Z) : Z :=
  let y' := if m <=? 2 then y - 1 else y in
  let era := y' / 400 in
  let yoe := y' - era * 400 in
  let mp := if 2 <? m then m - 3 else m + 9 in
  let doy := (153 * mp + 2) / 5 + d - 1 in
  let doe := yoe * 365 + yoe / 4 - yoe / 100 + doy in
  era * 146097 + doe - 719468.

(** The civil date (year, month 1..12, day of month) of a day number. *)
Definition civil_from_days (z : Z) : Z * Z * Z :=
  let z' := z + 719468 in
  let era := z' / 146097 in
  let doe := z' - era * 146097 in
  let yoe := (doe - doe / 1460 + doe / 36524 - doe / 146096) / 365 in
  let doy := doe - (365 * yoe + yoe / 4 - yoe / 100) in
  let mp := (5 * doy + 2) / 153 in
  let d := doy - (153 * mp + 2) / 5 + 1 in
  let m := if mp <? 10 then mp + 3 else mp - 9 in
  let y := yoe + era * 400 in
  ((if m <=? 2 then y + 1 else y), m, d).

Definition YearFromTime (t : Z) : Z := (civil_from_days (Day t)).1.1.

(** Months are numbered from 0 in [Date]. *)
Definition MonthFromTime (t : Z) : Z := (civil_from_days (Day t)).1.2 - 1.

Definition DateFromTime (t : Z) : Z := (civil_from_days (Day t)).2.

(** [MakeDay(year, month, date)]: the month may lie outside 0..11 and the
    date outside the month; both carry over. *)
Definition MakeDay (year month date : Z) : Z :=
  let ym := year + month / 12 in
  let mn := month mod 12 in
  days_from_civil ym (mn + 1) 1 + date - 1.

Definition MakeDate (day time : Z) : Z := day * msPerDay + time.

Definition getMonth (t : Z) : Z := MonthFromTime t.

(** [d.setMonth(month)] *)
Definition setMonth (t month : Z) : Z :=
  MakeDate (MakeDay (YearFromTime t) month (DateFromTime t)) (TimeWithinDay t).

(** [const threeMonthsAgo = new Date(); threeMonthsAgo.setMonth(threeMonthsAgo.getMonth() - 3)] *)
Definition threeMonthsAgo (now : Z) : Z := setMonth now (getMonth now - 3).

(** ** The retention pruner ([cleanupOldRouletteEvents]) *)

(** What the driver hands back for a statement: the array of returned rows,
    with the number of affected rows in its [count] property. *)
Record sql_result := mkSqlResult {
  rows : list event_row;
  count : nat
}.

Definition is_old (before : Z) (r : event_row) : bool := re_created_at r <? before.

(** [DELETE FROM roulette_events WHERE created_at < ${before}]; there is no
    [RETURNING], so no row comes back. *)
Definition delete_events (before : Z) : M sql_result :=
  fun s =>
    (Ok (mkSqlResult [] (length (List.filter (is_old before) (roulette_events s)))),
     mkStore (casino s)
             (List.filter (fun r => negb (is_old before r)) (roulette_events s))
             (casino_id_seq s) (roulette_events_id_seq s),
     [QDeleteEvents before]).

Record deleted_result := mkDeleted { deleted : nat }.

(** The request-triggered variant: [deleteResult.count]. *)
Module Route.
Definition cleanupOldRouletteEvents (now : Z) : M deleted_result :=
  logged "cleanupOldRouletteEvents"
    (deleteResult <- delete_events (threeMonthsAgo now) ;;
     let deletedCount := count deleteResult in
     ret (mkDeleted deletedCount)).
End Route.

(** The script variants that import [sql] from the db module (the [.ts]
    script and the [@/lib/db] one): [deleteResult.length]. *)
Module Script.
Definition cleanupOldRouletteEvents (now : Z) : M deleted_result :=
  logged "cleanupOldRouletteEvents"
    (deleteResult <- delete_events (threeMonthsAgo now) ;;
     let deletedCount := length (rows deleteResult) in
     ret (mkDeleted deletedCount)).
End Script.

(** [src/scripts/cleanup-old-roulette-events.js]: the same body, but [sql] is
    a [const] of [main] and is not in scope here. Reading it throws, in the
    [try] block at the [DELETE] and again in the [catch] block, where it is
    an argument of [logError(sql, error, ...)]. *)
Module ScriptJs.
Definition cleanupOldRouletteEvents (now : Z) : M deleted_result :=
  try_catch
    (sql <- throw (ReferenceError "sql") ;;
     deleteResult <- (sql : Z -> M sql_result) (threeMonthsAgo now) ;;
     let deletedCount := length (rows deleteResult) in
     ret (mkDeleted deletedCount))
    (fun e => sql <- throw (ReferenceError "sql") ;;
              (sql : error -> string -> M unit) e "cleanupOldRouletteEvents" ;;;
              throw e).
End ScriptJs.

(** ** Two runs against one store *)


(** The store after a computation. *)
Definition store_after {A} (m : M A) (s : store) : store := (m s).1.2.

Definition returned {A} (m : M A) (s : store) : outcome_of A := (m s).1.1.

Definition issued {A} (m : M A) (s : store) : list query := (m s).2.

(** One job run on the store: an ingestion of some batch, or a pruning. *)
Inductive job : store -> store -> Prop :=
| job_ingest now validatedFields s :
    job s (store_after (processValidated now validatedFields) s)
| job_prune now s :
    job s (store_after (Route.cleanupOldRouletteEvents now) s).

(** Any number of runs, one after the other. *)
Definition jobs : store -> store -> Prop := rtc job.

(** ** What the claims speak of *)

(** The fact [re] belongs to partition [tableId]: its dimension row, found
    through [casino_id], carries that [table_id]. *)
Definition belongs (s : store) (tableId : string) (re : event_row) : Prop :=
  re ∈ roulette_events s ∧
  ∃ c, c ∈ casino s ∧ re_casino_id re = Some (c_id c) ∧ c_table_id c = tableId.

(** [w] is the latest settlement timestamp among the facts of [tableId]. *)
Definition latest_settled (s : store) (tableId : string) (w : Z) : Prop :=
  (∃ re, belongs s tableId re ∧ re_settled_at re = w) ∧
  (∀ re, belongs s tableId re → re_settled_at re ≤ w).

(** The watermark mapping a run computes on store [s], and its to-ingest set. *)
Definition watermarks (s : store) (validatedFields : list RouletteEvent) : gmap string Z :=
  casinoLatestSettledMap
    (map (fun tableId => (tableId, sql_max (joined_settled s tableId)))
         (uniqueTableIds validatedFields)).

Definition to_ingest (s : store) (validatedFields : list RouletteEvent) : list RouletteEvent :=
  resolvedEvents (watermarks s validatedFields) validatedFields.

Definition partition_of (event : RouletteEvent) : string := t_id (table (data event)).

Definition pair_of (event : RouletteEvent) : string * string :=
  (t_id (table (data event)), t_name (table (data event))).

(** The [UNIQUE] constraints the tables are created with. *)
Definition unique_table_ids (s : store) : Prop := NoDup (map c_table_id (casino s)).

Definition unique_event_ids (s : store) : Prop := NoDup (map re_event_id (roulette_events s)).

(** The value found in a JSON document by following object keys. *)
Fixpoint at_path (path : list string) (j : json) : option json :=
  match path with
  | [] => Some j
  | key :: rest =>
      match j with
      | JObj fields =>
          match get key fields with
          | Some v => at_path rest v
          | None => None
          end
      | _ => None
      end
  end.

(** The same event under another envelope id. *)
Definition with_envelope (g : RouletteEvent -> string) (event : RouletteEvent) : RouletteEvent :=
  mkEvent (g event) (data event).

(** ** Notions used in the statements and proofs *)

Definition uv : error := UniqueViolation "casino_table_id_key".

(** What one resolution leaves behind: dimension rows are only appended,
    facts are untouched, the [UNIQUE] constraint still holds, and a value
    that came back is the id of the first row matching the pair. *)
Definition resolved_as (s' : store) (p : string * string) (r : outcome_of (string * Z)) : Prop :=
  match r with
  | Ok (t, id) =>
      t = p.1 ∧ ∃ c cs, List.filter (casino_matches p.1 p.2) (casino s') = c :: cs ∧ c_id c = id
  | Err e => e = uv
  end.

Definition dimension_statement (q : query) : Prop :=
  (∃ t n, q = QSelectCasino t n) ∨ (∃ t n, q = QInsertCasino t n).

Definition uniqueTables_step (acc : list (string * string)) (event : RouletteEvent) :=
  let id := t_id (table (data event)) in
  let name := t_name (table (data event)) in
  if negb (has_key id acc) then acc ++ [(id, name)] else acc.

Definition row_for (event : RouletteEvent) (casinoId : Z) : event_data :=
  mkEventData (d_id (data event)) (startedAt (data event)) (settledAt (data event))
    (o_number (outcome (result (data event))))
    (o_type (outcome (result (data event))))
    (o_color (outcome (result (data event))))
    casinoId.

Definition bulk (now : Z) (rows : list event_data) (s : store) : list event_row * Z :=
  fold_left (insert_event_row now) rows (roulette_events s, roulette_events_id_seq s).

(** A run that sends a bulk insert is a run that succeeded, and conversely
    when the to-ingest set is not empty. *)
Definition successful_run (now : Z) (batch : list RouletteEvent) (s : store)
    (casinoResults : list (string * Z)) (s1 : store) (q1 : list query)
    (rows : list event_data) : Prop :=
  Promise_all (get_or_create now) (uniqueTables (to_ingest s batch)) s
    = (Ok casinoResults, s1, q1)
  ∧ build_rows (casinoCache casinoResults) (to_ingest s batch) = Ok rows
  ∧ processValidated now batch s
    = (Ok (mkProcessed (length (to_ingest s batch))),
       mkStore (casino s1) (bulk now rows s1).1 (casino_id_seq s1) (bulk now rows s1).2,
       (QCreateTables :: map QSelectMaxSettled (uniqueTableIds batch))
         ++ q1 ++ [QInsertEvents rows]).

(** [uniqueTables] keeps, for each partition id, the pair of the first
    to-ingest event of that partition. *)
Definition first_of_partition (l : list RouletteEvent) (t n : string) : Prop :=
  ∃ i e, l !! i = Some e ∧ pair_of e = (t, n)
         ∧ ∀ j e', (j < i)%nat → l !! j = Some e' → partition_of e' ≠ t.

(** Stores ordered by what runs may add. *)
Definition extends (s s' : store) : Prop :=
  casino s `prefix_of` casino s' ∧ roulette_events s `prefix_of` roulette_events s'.

(** Every partition id of the batch comes with one display name. *)
Definition one_name_per_partition (batch : list RouletteEvent) : Prop :=
  ∀ e1 e2, e1 ∈ batch → e2 ∈ batch →
           partition_of e1 = partition_of e2 → pair_of e1 = pair_of e2.

Definition outside (values : list string) (found : option json) : Prop :=
  ∀ v, found = Some (JStr v) → v ∉ values.

Ltac not_in_list :=
  let H := fresh in
  intros H; repeat (apply elem_of_cons in H as [H|H]; [discriminate H|]);
  by apply elem_of_nil in H.

(** ** Examples: the payload of the spec's scenarios *)

Definition empty_store : store := mkStore [] [] 1 1.

Definition ev (eid did : string) (st : string) (tid tname : string) (settled : Z)
  : RouletteEvent :=
  mkEvent eid (mkData did (settled - 40000) settled st "megaroulette"
                 (mkTable tid tname)
                 (mkResult (mkOutcome 35 "Odd" "Black") None)).

Definition ev1 := ev "69113ae63b80475fd08b5c20" "6aa9bf20e0d68e7558b3c517"
                     "Resolved" "204" "Mega Roulette" 1762736870000.
Definition ev2 := ev "69113ab93b80475fd08b5c19" "fd24a92675a5b2e9c0991e25"
                     "Pending" "204" "Mega Roulette" 1762736825000.

(** A later round of the same table under another display name. *)
Definition ev3 := ev "69113b123b80475fd08b5c27" "0d9c6f1f3b2a4c5d8e7f6a5b"
                     "Resolved" "204" "Mega Roulette Live" 1762736915000.

(** A later round of the same table under the same display name. *)
Definition ev4 := ev "69113b3e3b80475fd08b5c2e" "7a1b2c3d4e5f60718293a4b5"
                     "Resolved" "204" "Mega Roulette" 1762736960000.

(** The round of [ev1] reported once more, later and under the other display
    name: same [data.id], another envelope id. *)
Definition ev5 := ev "69113b6a3b80475fd08b5c35" "6aa9bf20e0d68e7558b3c517"
                     "Resolved" "204" "Mega Roulette Live" 1762736990000.

(** ** Validation examples: an ISO-8601 reader for the sample payload *)

Definition digit (c : ascii) : option Z :=
  let n := Z.of_nat (nat_of_ascii c) in
  if (48 <=? n) && (n <=? 57) then Some (n - 48) else None.

Fixpoint digits (acc : Z) (cs : list ascii) : option Z :=
  match cs with
  | [] => Some acc
  | c :: cs' => d ← digit c; digits (10 * acc + d) cs'
  end.

(** [new Date("YYYY-MM-DDTHH:MM:SSZ")] for that form of string; every other
    input is an invalid date. It stands for the runtime's [Date] in the
    examples only. *)
Definition iso_utc (j : json) : option Z :=
  match j with
  | JStr s =>
      match String.list_ascii_of_string s with
      | [y1; y2; y3; y4; "-"; m1; m2; "-"; d1; d2; "T";
         h1; h2; ":"; n1; n2; ":"; s1; s2; "Z"]%char =>
          y ← digits 0 [y1; y2; y3; y4];
          m ← digits 0 [m1; m2];
          d ← digits 0 [d1; d2];
          hh ← digits 0 [h1; h2];
          mm ← digits 0 [n1; n2];
          ss ← digits 0 [s1; s2];
          if (1 <=? m) && (m <=? 12) && (1 <=? d) && (d <=? 31)
             && (hh <? 24) && (mm <? 60) && (ss <? 60)
          then Some (MakeDate (days_from_civil y m d)
                       (hh * 3600000 + mm * 60000 + ss * 1000))
          else None
      | _ => None
      end
  | _ => None
  end.

(** The first element of [dataToSave], and the same with a colour the
    schema does not list. *)
Definition sample_event (color : string) : json :=
  JObj [("id", JStr "69113ae63b80475fd08b5c20");
        ("data", JObj [("id", JStr "6aa9bf20e0d68e7558b3c517");
                       ("startedAt", JStr "2025-11-10T01:07:10Z");
                       ("settledAt", JStr "2025-11-10T01:07:50Z");
                       ("status", JStr "Resolved");
                       ("gameType", JStr "megaroulette");
                       ("table", JObj [("id", JStr "204"); ("name", JStr "Mega Roulette")]);
                       ("result",
                        JObj [("outcome", JObj [("number", JNum 35);
                                                ("type", JStr "Odd");
                                                ("color", JStr color)]);
                              ("luckyNumbersList",
                               JArr [JObj [("number", JNum 0); ("roundedMultiplier", JNum 100)];
                                     JObj [("number", JNum 3); ("roundedMultiplier", JNum 150)]])])])].

Definition ok_response (body : json) : response := mkResponse true 200 body.

(** The retention scenario: one fact ingested four months before
    2025-11-10T01:07:50Z and one a month before. *)
Definition fact (id : Z) (eid : string) (created : Z) : event_row :=
  mkEventRow id eid (created - 60000) (created - 20000) 35 "Odd" "Black" (Some 1) created.

Definition old_fact : event_row :=
  fact 1 "932350b0bcec294346f56689" (MakeDate (days_from_civil 2025 7 10) 0).

Definition young_fact : event_row :=
  fact 2 "76b25c38158f82ba23f4e075" (MakeDate (days_from_civil 2025 10 10) 0).

Definition retention_store : store :=
  mkStore [mkCasino 1 "204" "Mega Roulette" 1750000000000] [old_fact; young_fact] 2 3.

(** A round of another table, settled before [ev1], and a store that holds
    [ev1] only. *)
Definition ev6 := ev "69113a0c3b80475fd08b5bf6" "76b25c38158f82ba23f4e075"
                     "Resolved" "XxxtremeLigh0001" "XXXtreme Lightning Roulette"
                     1762736652000.

Definition store_with_ev1 : store :=
  store_after (processValidated 1762736900000 [ev1]) empty_store.


(** The payload of [ev1] under another envelope id. *)
Definition ev1_again := with_envelope (fun _ => "69113ae63b80475fd08b5c21") ev1.

(** ** [logError] and the [error_logs] table *)

(** What [logError] reads of the [Error] it is given. *)
Record js_error := mkJsError {
  message : string;
  stack : option string
}.

(** [error_logs(id SERIAL PRIMARY KEY, error_message TEXT NOT NULL,
                error_stack TEXT, context TEXT, created_at DEFAULT NOW())] *)
Record error_log_row := mkErrorLog {
  el_id : Z;
  el_message : string;
  el_stack : option string;
  el_context : string;
  el_created_at : Z
}.

Record error_logs := mkErrorLogs {
  log_rows : list error_log_row;
  log_seq : Z
}.

(** Whether the two statements of [logError] go through; a statement that
    does not rejects its promise. *)
Record db_health := mkHealth {
  select_ok : bool;
  insert_ok : bool
}.

(** What [logError] prints with [console.error]. *)
Inductive console_line :=
| InsertFailed      (* 'Error al insertar en error_logs:' *)
| LoggingFailed.    (* 'Error al registrar error en base de datos:' *)

(** [context || fallback]: [undefined] and the empty string are falsy. *)
Definition or_default (context : option string) (fallback : string) : string :=
  match context with
  | Some c => if bool_decide (c = "") then fallback else c
  | None => fallback
  end.

Definition twentyFourHours : Z := 24 * 60 * 60 * 1000.

(** [WHERE error_message = ${errorMessage} AND created_at > ${twentyFourHoursAgo}] *)
Definition recent_same (errorMessage : string) (since : Z) (r : error_log_row) : bool :=
  bool_decide (el_message r = errorMessage) && (since <? el_created_at r).

(** [WHERE created_at > ${twentyFourHoursAgo}] *)
Definition recent_any (since : Z) (r : error_log_row) : bool := since <? el_created_at r.

(** The body shared by the two scripts' [logError]
    ([src/scripts/process-roulette-data.ts] 53-86 and the cleanup scripts):
    look for the same message in the last 24 hours, insert when there is
    none; the insert's rejection is caught by [.catch], any other by the
    outer [catch]. *)
Definition logError_script (fallback : string) (now : Z) (h : db_health)
    (e : js_error) (context : option string) (t : error_logs)
  : error_logs * list console_line :=
  let errorMessage := message e in
  let errorStack := stack e in
  let twentyFourHoursAgo := now - twentyFourHours in
  if negb (select_ok h) then (t, [LoggingFailed])
  else
    let recentErrorResult :=
      take 1 (List.filter (recent_same errorMessage twentyFourHoursAgo) (log_rows t)) in
    if (0 <? length recentErrorResult)%nat then (t, [])
    else if insert_ok h
         then (mkErrorLogs
                 (log_rows t ++ [mkErrorLog (log_seq t) errorMessage errorStack
                                   (or_default context fallback) now])
                 (log_seq t + 1),
               [])
         else (t, [InsertFailed]).

Module ProcessScript.
Definition logError := logError_script "processRouletteData".
End ProcessScript.

Module CleanupScript.
Definition logError := logError_script "cleanupOldRouletteEvents".
End CleanupScript.

(** The shared [logError] of the request handlers ([@/app/api/actions]): the
    lookup does not compare messages, and a missing stack is stored as the
    empty string. *)
Module Actions.
Definition logError (now : Z) (h : db_health) (e : js_error) (context : option string)
    (t : error_logs) : error_logs * list console_line :=
  let errorMessage := message e in
  let errorStack := stack e in
  let twentyFourHoursAgo := now - twentyFourHours in
  if negb (select_ok h) then (t, [LoggingFailed])
  else
    let recentErrorResult :=
      take 1 (List.filter (recent_any twentyFourHoursAgo) (log_rows t)) in
    if (0 <? length recentErrorResult)%nat then (t, [])
    else if insert_ok h
         then (mkErrorLogs
                 (log_rows t ++ [mkErrorLog (log_seq t) errorMessage
                                   (Some (default "" errorStack))
                                   (or_default context "processRouletteData") now])
                 (log_seq t + 1),
               [])
         else (t, [InsertFailed]).
End Actions.

(** One call of [logError]: the clock, the state of the connection, the
    error and the context. *)
Record log_call := mkLogCall {
  call_now : Z;
  call_health : db_health;
  call_error : js_error;
  call_context : option string
}.

Definition run_calls
    (f : Z -> db_health -> js_error -> option string -> error_logs
         -> error_logs * list console_line)
    (calls : list log_call) (t : error_logs) : error_logs :=
  fold_left (fun t c => (f (call_now c) (call_health c) (call_error c) (call_context c) t).1)
            calls t.

(** Two rows of the same message are at least 24 hours apart. *)
Definition spaced_per_message (t : error_logs) : Prop :=
  ∀ i j r1 r2, (i < j)%nat → log_rows t !! i = Some r1 → log_rows t !! j = Some r2 →
               el_message r1 = el_message r2 →
               el_created_at r1 + twentyFourHours ≤ el_created_at r2.

(** Any two rows are at least 24 hours apart. *)
Definition spaced (t : error_logs) : Prop :=
  ∀ i j r1 r2, (i < j)%nat → log_rows t !! i = Some r1 → log_rows t !! j = Some r2 →
               el_created_at r1 + twentyFourHours ≤ el_created_at r2.

(** No row is dated after [now]. *)
Definition dated_until (now : Z) (t : error_logs) : Prop :=
  ∀ r, r ∈ log_rows t → el_created_at r ≤ now.

(** The calls come at times that do not go back. *)
Fixpoint clock_ordered (now : Z) (calls : list log_call) : Prop :=
  match calls with
  | [] => True
  | c :: rest => now ≤ call_now c ∧ clock_ordered (call_now c) rest
  end.

(** ** The request handler *)

Record reply := mkReply {
  reply_status : Z;
  reply_body : json
}.

(** [NextResponse.json(body)] and [NextResponse.json(body, { status })]. *)
Definition NextResponse_json (body : json) (status : option Z) : reply :=
  mkReply (default 200 status) body.

(** [GET] of the scores route: the run, then the reply. The [catch] does not
    look at the error. *)
Definition GET (processRouletteData : M processed_result)
  : store -> reply * store * list query :=
  fun s =>
    match processRouletteData s with
    | (Ok result, s', q) =>
        (NextResponse_json
           (JObj [("message", JStr "Datos de roulette procesados exitosamente");
                  ("processedEvents", JNum (Z.of_nat (processed result)))])
           None, s', q)
    | (Err _, s', q) =>
        (NextResponse_json (JObj [("error", JStr "Error interno del servidor")]) (Some 500),
         s', q)
    end.

(** ** The older handler ([src/app/api/score/route copy.ts]), whole *)

Module LegacyHandler.
Definition resolvedEvents (latestSettledAt : option Z) (validatedFields : list RouletteEvent)
  : list RouletteEvent :=
  List.filter (Legacy.admitted latestSettledAt) validatedFields.

(** The to-ingest set of the older handler on store [s]. *)
Definition to_ingest (s : store) (validatedFields : list RouletteEvent) : list RouletteEvent :=
  resolvedEvents (sql_max (map re_settled_at (roulette_events s))) validatedFields.

(** [for (const [tableId, tableName] of uniqueTables) { ... }]: one pair after
    the other, the first rejection ends the loop. *)
Definition resolve (now : Z) (pairs : list (string * string)) : M (list (string * Z)) :=
  traverse (get_or_create now) pairs.

Definition ingest (now : Z) (validatedFields : list RouletteEvent) : M processed_result :=
  latestSettledAt <- Legacy.select_max_settled ;;
  let resolved := resolvedEvents latestSettledAt validatedFields in
  if (length resolved =? 0)%nat then ret (mkProcessed 0)
  else
    casinoResults <- resolve now (uniqueTables resolved) ;;
    let cache := casinoCache casinoResults in
    rouletteEventsData <- lift (build_rows cache resolved) ;;
    (if (0 <? length rouletteEventsData)%nat
     then insert_events now rouletteEventsData
     else ret tt) ;;;
    ret (mkProcessed (length resolved)).

(** [catch (error) { console.error(...); throw error }] *)
Definition processValidated (now : Z) (validatedFields : list RouletteEvent)
  : M processed_result :=
  try_catch (createTables ;;; ingest now validatedFields) (fun e => throw e).
End LegacyHandler.

(** ** Consistency of the store *)

(** The constraints of the two tables: [UNIQUE] columns, primary keys drawn
    from sequences that are ahead of them and start at 1, and the foreign
    key of the facts. *)
Definition casino_ok (s : store) : Prop :=
  unique_table_ids s
  ∧ NoDup (map c_id (casino s))
  ∧ (∀ c, c ∈ casino s → 0 < c_id c < casino_id_seq s)
  ∧ 0 < casino_id_seq s.

Definition facts_ok (s : store) : Prop :=
  unique_event_ids s
  ∧ NoDup (map re_id (roulette_events s))
  ∧ (∀ r, r ∈ roulette_events s → re_id r < roulette_events_id_seq s)
  ∧ (∀ r id, r ∈ roulette_events s → re_casino_id r = Some id →
             ∃ c, c ∈ casino s ∧ c_id c = id).

Definition store_ok (s : store) : Prop := casino_ok s ∧ facts_ok s.

(** The parity and colour of a stored fact are among the schema's literals. *)
Definition enum_ok (r : event_row) : Prop :=
  re_outcome_type r ∈ ["Even"; "Odd"] ∧ re_outcome_color r ∈ ["Red"; "Black"; "Green"].

(** The fact row the bulk insert writes for a built row. *)
Definition stored_row (id now : Z) (d : event_data) : event_row :=
  mkEventRow id (event_id d) (started_at d) (settled_at d)
    (outcome_number d) (outcome_type d) (outcome_color d) (Some (casino_id d)) now.

(** Any number of ingestion runs, without pruning in between. *)
Inductive ingestion : store -> store -> Prop :=
| ingestion_run now validatedFields s :
    ingestion s (store_after (processValidated now validatedFields) s).

Definition ingestions : store -> store -> Prop := rtc ingestion.


(** ** What the schema reads *)

(** Event [e] carries the values document [item] has at the places the
    schema names; the two dates are what the [Date] constructor makes of the
    values found there. *)
Definition read_from (coerce_date : json -> option Z) (item : json) (e : RouletteEvent) : Prop :=
  at_path ["id"] item = Some (JStr (e_id e))
  ∧ at_path ["data"; "id"] item = Some (JStr (d_id (data e)))
  ∧ (∃ j, at_path ["data"; "startedAt"] item = Some j
          ∧ coerce_date j = Some (startedAt (data e)))
  ∧ (∃ j, at_path ["data"; "settledAt"] item = Some j
          ∧ coerce_date j = Some (settledAt (data e)))
  ∧ at_path ["data"; "status"] item = Some (JStr (status (data e)))
  ∧ at_path ["data"; "gameType"] item = Some (JStr (gameType (data e)))
  ∧ at_path ["data"; "table"; "id"] item = Some (JStr (t_id (table (data e))))
  ∧ at_path ["data"; "table"; "name"] item = Some (JStr (t_name (table (data e))))
  ∧ at_path ["data"; "result"; "outcome"; "number"] item
    = Some (JNum (o_number (outcome (result (data e)))))
  ∧ at_path ["data"; "result"; "outcome"; "type"] item
    = Some (JStr (o_type (outcome (result (data e)))))
  ∧ at_path ["data"; "result"; "outcome"; "color"] item
    = Some (JStr (o_color (outcome (result (data e))))).


(** The sample payload once validated. *)
Definition sample_batch : list RouletteEvent :=
  Eval vm_compute in
    match parse iso_utc (JArr [sample_event "Black"]) with
    | Ok validatedFields => validatedFields
    | Err _ => []
    end.


(** ** The standalone JS script, up to its second filter *)

(** The script declares its own schema: the two dates are strings, read with
    [new Date(...)] where they are compared. [new_Date] is the time value of
    the [Date] made from a string, [None] for an invalid date. *)
Module Standalone.
Record RouletteData := mkData {
  d_id : string;
  startedAt : string;
  settledAt : string;
  status : string;
  gameType : string;
  table : RouletteTable;
  result : RouletteResult
}.

Record RouletteEvent := mkEvent {
  e_id : string;
  data : RouletteData
}.

(** [events.filter(event => event.data.status === 'Resolved')] *)
Definition resolvedEvents (events : list RouletteEvent) : list RouletteEvent :=
  List.filter (fun event => bool_decide (status (data event) = "Resolved")) events.

Definition uniqueTableIds (resolved : list RouletteEvent) : list string :=
  fold_left (fun acc event => set_add (t_id (table (data event))) acc) resolved [].

(** The predicate of [resolvedEvents.filter]: a comparison with an invalid
    date is false. *)
Definition admitted (new_Date : string -> option Z) (latest : gmap string Z)
    (event : RouletteEvent) : bool :=
  match latest !! t_id (table (data event)) with
  | None => true
  | Some latestSettledAt =>
      match new_Date (settledAt (data event)) with
      | Some eventSettledAt => latestSettledAt <? eventSettledAt
      | None => false
      end
  end.

(** [processRouletteData] from the validated events to [filteredEvents]. *)
Definition filteredEvents (new_Date : string -> option Z) (events : list RouletteEvent)
  : M (list RouletteEvent) :=
  let resolved := resolvedEvents events in
  if (length resolved =? 0)%nat then ret []
  else
    latestSettledResults <- casinoQueries (uniqueTableIds resolved) ;;
    let latest := casinoLatestSettledMap latestSettledResults in
    ret (List.filter (admitted new_Date latest) resolved).
End Standalone.

(** An event as the script validates it and as the shared schema does: the
    same values, the dates of the second being what [new Date] makes of the
    strings of the first. *)
Definition same_event (new_Date : string -> option Z)
    (raw : Standalone.RouletteEvent) (event : RouletteEvent) : Prop :=
  Standalone.e_id raw = e_id event
  ∧ Standalone.d_id (Standalone.data raw) = d_id (data event)
  ∧ new_Date (Standalone.startedAt (Standalone.data raw)) = Some (startedAt (data event))
  ∧ new_Date (Standalone.settledAt (Standalone.data raw)) = Some (settledAt (data event))
  ∧ Standalone.status (Standalone.data raw) = status (data event)
  ∧ Standalone.gameType (Standalone.data raw) = gameType (data event)
  ∧ Standalone.table (Standalone.data raw) = table (data event)
  ∧ Standalone.result (Standalone.data raw) = result (data event).

(** [ev1] as the script validates it. *)
Definition raw_ev1 : Standalone.RouletteEvent :=
  Standalone.mkEvent "69113ae63b80475fd08b5c20"
    (Standalone.mkData "6aa9bf20e0d68e7558b3c517"
       "2025-11-10T01:07:10Z" "2025-11-10T01:07:50Z" "Resolved" "megaroulette"
       (mkTable "204" "Mega Roulette")
       (mkResult (mkOutcome 35 "Odd" "Black") None)).


(** * Properties *)

(** ** The monad and the statements *)

Lemma all_settled_Ok {A} (l : list A) : all_settled (map Ok l) = Ok l.
Proof. induction l as [|a l IH]; simpl; [done|]. by rewrite IH. Qed.

Lemma traverse_watermark_queries (ids : list string) (s : store) :
  traverse (fun tableId =>
              settle (latest <- select_max_settled tableId ;; ret (tableId, latest))) ids s
  = (Ok (map (fun tableId => Ok (tableId, sql_max (joined_settled s tableId))) ids),
     s, map QSelectMaxSettled ids).
Proof.
  induction ids as [|t ids IH]; [done|].
  cbn [traverse]. unfold bind at 1. unfold settle at 1.
  unfold bind at 1. unfold select_max_settled at 1. cbn [ret].
  unfold bind at 1. rewrite IH. cbn. by rewrite app_nil_r.
Qed.

Lemma casinoQueries_run (ids : list string) (s : store) :
  casinoQueries ids s
  = (Ok (map (fun tableId => (tableId, sql_max (joined_settled s tableId))) ids),
     s, map QSelectMaxSettled ids).
Proof.
  unfold casinoQueries, Promise_all, bind.
  rewrite traverse_watermark_queries.
  rewrite <- (map_map (fun tableId => (tableId, sql_max (joined_settled s tableId))) Ok).
  rewrite all_settled_Ok. cbn. by rewrite app_nil_r.
Qed.

(** The run, seen from the to-ingest set on. *)
Lemma ingest_run (now : Z) (validatedFields : list RouletteEvent) (s : store) :
  ingest now validatedFields s
  = let resolved := to_ingest s validatedFields in
    let q0 := map QSelectMaxSettled (uniqueTableIds validatedFields) in
    if (length resolved =? 0)%nat then (Ok (mkProcessed 0), s, q0)
    else
      let '(r, s', q) :=
        (casinoResults <- Promise_all (get_or_create now) (uniqueTables resolved) ;;
         rouletteEventsData <- lift (build_rows (casinoCache casinoResults) resolved) ;;
         (if (0 <? length rouletteEventsData)%nat
          then insert_events now rouletteEventsData
          else ret tt) ;;;
         ret (mkProcessed (length resolved))) s in
      (r, s', q0 ++ q).
Proof.
  unfold ingest. unfold bind at 1. rewrite casinoQueries_run.
  fold (watermarks s validatedFields). fold (to_ingest s validatedFields).
  cbv zeta. destruct (length (to_ingest s validatedFields) =? 0)%nat.
  - cbn. by rewrite app_nil_r.
  - reflexivity.
Qed.

(** ** The watermark resolver *)

Lemma set_add_spec (x : string) (l : list string) (y : string) :
  y ∈ set_add x l ↔ y ∈ l ∨ y = x.
Proof.
  unfold set_add. case_bool_decide as Hx.
  - split; [by left|]. intros [H| ->]; done.
  - rewrite elem_of_app, list_elem_of_singleton. done.
Qed.

Lemma set_add_NoDup (x : string) (l : list string) : NoDup l → NoDup (set_add x l).
Proof.
  intros Hl. unfold set_add. case_bool_decide as Hx; [done|].
  apply NoDup_app. split_and!; [done| |apply NoDup_singleton].
  intros y Hy ->%list_elem_of_singleton. done.
Qed.

Lemma fold_set_add_spec (l : list RouletteEvent) (acc : list string) (t : string) :
  t ∈ fold_left (fun acc event => set_add (t_id (table (data event))) acc) l acc
  ↔ t ∈ acc ∨ ∃ e, e ∈ l ∧ partition_of e = t.
Proof.
  revert acc. induction l as [|e l IH]; intros acc; cbn [fold_left].
  - split; [by left|]. intros [H|(e & He & _)]; [done|]. by apply elem_of_nil in He.
  - rewrite IH, set_add_spec. split.
    + intros [[H|H]|(e' & He' & Ht)].
      * by left.
      * right. exists e. split; [left|done].
      * right. exists e'. split; [by right|done].
    + intros [H|(e' & He' & Ht)]; [by left; left|].
      apply elem_of_cons in He' as [->|He'].
      * left; right. done.
      * right. by exists e'.
Qed.

Lemma fold_set_add_NoDup (l : list RouletteEvent) (acc : list string) :
  NoDup acc →
  NoDup (fold_left (fun acc event => set_add (t_id (table (data event))) acc) l acc).
Proof.
  revert acc. induction l as [|e l IH]; intros acc Hacc; cbn [fold_left]; [done|].
  apply IH. by apply set_add_NoDup.
Qed.

Lemma uniqueTableIds_spec (batch : list RouletteEvent) (t : string) :
  t ∈ uniqueTableIds batch ↔ ∃ e, e ∈ batch ∧ partition_of e = t.
Proof.
  unfold uniqueTableIds. rewrite fold_set_add_spec. split; [|by right].
  intros [H|H]; [by apply elem_of_nil in H|done].
Qed.

Lemma uniqueTableIds_NoDup (batch : list RouletteEvent) : NoDup (uniqueTableIds batch).
Proof. apply fold_set_add_NoDup, NoDup_nil_2. Qed.

Lemma sql_max_None (l : list Z) : sql_max l = None ↔ l = [].
Proof.
  destruct l as [|x xs]; cbn; [done|].
  destruct (sql_max xs); split; discriminate.
Qed.

Lemma sql_max_Some (l : list Z) (w : Z) :
  sql_max l = Some w ↔ w ∈ l ∧ ∀ x, x ∈ l → x ≤ w.
Proof.
  revert w. induction l as [|x xs IH]; intros w; cbn.
  - split; [discriminate|]. intros [H _]. by apply elem_of_nil in H.
  - destruct (sql_max xs) as [m|] eqn:Hm.
    + destruct (IH m) as [IH1 _]. destruct (IH1 eq_refl) as [Hin Hle].
      split.
      * intros [= <-]. split.
        -- destruct (Z.max_spec x m) as [[_ ->]|[_ ->]]; [by right|by left].
        -- intros y [->|Hy]%elem_of_cons; [lia|]. specialize (Hle y Hy). lia.
      * intros [Hw Hall]. f_equal.
        assert (x ≤ w) by (apply Hall; left).
        assert (m ≤ w) by (apply Hall; by right).
        apply elem_of_cons in Hw as [->|Hw]; [lia|].
        specialize (Hle w Hw). lia.
    + apply sql_max_None in Hm as ->. split.
      * intros [= <-]. split; [left|]. by intros y ->%list_elem_of_singleton.
      * intros [->%list_elem_of_singleton _]. done.
Qed.

Lemma joins_spec (t : string) (re : event_row) (c : casino_row) :
  joins t re c = true ↔ re_casino_id re = Some (c_id c) ∧ c_table_id c = t.
Proof.
  unfold joins. rewrite andb_true_iff, !bool_decide_eq_true. done.
Qed.

Lemma joined_settled_spec (s : store) (t : string) (w : Z) :
  w ∈ joined_settled s t ↔ ∃ re, belongs s t re ∧ re_settled_at re = w.
Proof.
  unfold joined_settled, belongs.
  rewrite list_elem_of_In, in_flat_map. split.
  - intros (re & Hre & Hw). apply in_map_iff in Hw as (c & Hc & Hf).
    apply filter_In in Hf as [Hin Hj]. apply joins_spec in Hj as [Hid Ht].
    exists re. split; [|done]. split; [by apply list_elem_of_In|].
    exists c. split; [by apply list_elem_of_In|done].
  - intros (re & (Hre & c & Hc & Hid & Ht) & Hw).
    exists re. split; [by apply list_elem_of_In|].
    apply in_map_iff. exists c. split; [done|].
    apply filter_In. split; [by apply list_elem_of_In|]. by apply joins_spec.
Qed.

Lemma select_max_latest (s : store) (t : string) (w : Z) :
  sql_max (joined_settled s t) = Some w ↔ latest_settled s t w.
Proof.
  rewrite sql_max_Some. unfold latest_settled.
  rewrite joined_settled_spec. split.
  - intros [Hex Hall]. split; [done|]. intros re Hre.
    apply Hall, joined_settled_spec. by exists re.
  - intros [Hex Hall]. split; [done|]. intros x (re & Hre & <-)%joined_settled_spec.
    by apply Hall.
Qed.

Lemma select_max_none (s : store) (t : string) :
  sql_max (joined_settled s t) = None ↔ ∀ re, ¬ belongs s t re.
Proof.
  rewrite sql_max_None. split.
  - intros Hnil re Hre.
    assert (re_settled_at re ∈ joined_settled s t) as Hin
      by (apply joined_settled_spec; by exists re).
    rewrite Hnil in Hin. by apply elem_of_nil in Hin.
  - intros Hno. destruct (joined_settled s t) as [|w l] eqn:E; [done|].
    assert (w ∈ joined_settled s t) as (re & Hre & _)%joined_settled_spec
      by (rewrite E; left).
    by destruct (Hno re).
Qed.

Lemma latest_map_lookup (f : string -> option Z) (ids : list string)
    (m : gmap string Z) (t : string) :
  fold_left (fun m r => match r.2 with
                        | Some latestSettledAt => <[r.1 := latestSettledAt]> m
                        | None => m
                        end) (map (fun tableId => (tableId, f tableId)) ids) m !! t
  = if bool_decide (t ∈ ids)
    then match f t with Some w => Some w | None => m !! t end
    else m !! t.
Proof.
  revert m. induction ids as [|i ids IH]; intros m; cbn [map fold_left].
  - rewrite bool_decide_eq_false_2; [done|]. apply not_elem_of_nil.
  - rewrite IH. cbn [fst snd].
    destruct (decide (t ∈ ids)) as [Hin|Hnin].
    + rewrite !bool_decide_eq_true_2; [|by right|done].
      destruct (f t) eqn:Ht; [done|].
      destruct (f i) eqn:Hi; [|done].
      rewrite lookup_insert_ne; [done|]. intros ->. congruence.
    + rewrite (bool_decide_eq_false_2 (t ∈ ids)); [|done].
      destruct (decide (t = i)) as [->|Hne].
      * rewrite bool_decide_eq_true_2; [|left].
        destruct (f i); [by rewrite lookup_insert_eq|done].
      * rewrite bool_decide_eq_false_2.
        2:{ intros [->|H]%elem_of_cons; done. }
        destruct (f i); [by rewrite lookup_insert_ne|done].
Qed.

Lemma watermarks_lookup (s : store) (batch : list RouletteEvent) (t : string) :
  watermarks s batch !! t
  = if bool_decide (t ∈ uniqueTableIds batch)
    then sql_max (joined_settled s t) else None.
Proof.
  unfold watermarks, casinoLatestSettledMap.
  rewrite (latest_map_lookup (fun t => sql_max (joined_settled s t))).
  rewrite lookup_empty. case_bool_decide; [|done].
  by destruct (sql_max (joined_settled s t)).
Qed.

(** C2. For every validated batch the resolver sends one [SELECT MAX] per
    distinct partition id of the batch and nothing else, leaves the store as
    it is, and the mapping built from the answers sends a partition id to the
    maximum settlement timestamp among the facts joined to that partition
    through their dimension row; a partition without persisted facts has no
    entry. *)
Theorem watermark_resolver_correct (batch : list RouletteEvent) (s : store) :
  ∃ results,
    casinoQueries (uniqueTableIds batch) s
      = (Ok results, s, map QSelectMaxSettled (uniqueTableIds batch))
    ∧ NoDup (uniqueTableIds batch)
    ∧ (∀ t, t ∈ uniqueTableIds batch ↔ ∃ e, e ∈ batch ∧ partition_of e = t)
    ∧ (∀ t w, casinoLatestSettledMap results !! t = Some w
              ↔ t ∈ uniqueTableIds batch ∧ latest_settled s t w)
    ∧ (∀ t, (∀ re, ¬ belongs s t re) → casinoLatestSettledMap results !! t = None).
Proof.
  eexists. split; [apply casinoQueries_run|].
  split; [apply uniqueTableIds_NoDup|].
  split; [apply uniqueTableIds_spec|].
  fold (watermarks s batch). split.
  - intros t w. rewrite watermarks_lookup. case_bool_decide as Hin.
    + rewrite select_max_latest. split; [by intros ?|by intros [_ ?]].
    + split; [done|by intros [? _]].
  - intros t Hno. rewrite watermarks_lookup. case_bool_decide; [|done].
    by apply select_max_none.
Qed.

(** ** The filter stage *)

Lemma admitted_spec (latest : gmap string Z) (e : RouletteEvent) :
  admitted latest e = true
  ↔ status (data e) = "Resolved"
    ∧ (latest !! partition_of e = None
       ∨ ∃ w, latest !! partition_of e = Some w ∧ w < settledAt (data e)).
Proof.
  unfold admitted, partition_of. case_bool_decide as Hst; cbn [negb].
  - destruct (latest !! t_id (table (data e))) as [w|].
    + rewrite Z.ltb_lt. split.
      * intros Hlt. split; [done|]. right. by exists w.
      * intros [_ [Hn|(w' & [= <-] & Hlt)]]; [done|done].
    + split; [|done]. intros _. split; [done|by left].
  - split; [done|]. intros [H _]. done.
Qed.

Lemma resolvedEvents_spec (latest : gmap string Z) (batch : list RouletteEvent)
    (e : RouletteEvent) :
  e ∈ resolvedEvents latest batch
  ↔ e ∈ batch
    ∧ status (data e) = "Resolved"
    ∧ (latest !! partition_of e = None
       ∨ ∃ w, latest !! partition_of e = Some w ∧ w < settledAt (data e)).
Proof.
  unfold resolvedEvents.
  rewrite list_elem_of_In, filter_In, <- list_elem_of_In, admitted_spec. done.
Qed.

(** C1. For every validated batch and every watermark mapping, an event is in
    the to-ingest set exactly when its status is the literal "Resolved" and
    its partition has no watermark or its settlement timestamp is strictly
    later than the watermark; the filter is total and keeps the batch order,
    so the other events are left out without any error. *)
Theorem filter_admits_resolved_past_watermark
    (latest : gmap string Z) (batch : list RouletteEvent) :
  (∀ e, e ∈ resolvedEvents latest batch
        ↔ e ∈ batch
          ∧ status (data e) = "Resolved"
          ∧ (latest !! partition_of e = None
             ∨ ∃ w, latest !! partition_of e = Some w ∧ w < settledAt (data e)))
  ∧ resolvedEvents latest batch `sublist_of` batch.
Proof.
  split.
  - apply resolvedEvents_spec.
  - unfold resolvedEvents. induction batch as [|e batch IH]; cbn; [constructor|].
    destruct (admitted latest e); by constructor.
Qed.

(** ** The run as a whole *)

Lemma processValidated_run (now : Z) (batch : list RouletteEvent) (s : store) :
  processValidated now batch s
  = let '(r, s', q) := ingest now batch s in
    match r with
    | Ok p => (Ok p, s', QCreateTables :: q)
    | Err e => (Err e, s', QCreateTables :: q ++ [QLogError e "processRouletteData"])
    end.
Proof.
  unfold processValidated, logged, try_catch, bind at 1, createTables.
  destruct (ingest now batch s) as [[[p|e] s'] q]; cbn; done.
Qed.

Lemma short_circuit_run (now : Z) (batch : list RouletteEvent) (s : store) :
  to_ingest s batch = [] →
  processValidated now batch s
    = (Ok (mkProcessed 0), s,
       QCreateTables :: map QSelectMaxSettled (uniqueTableIds batch)).
Proof.
  intros Hempty.
  rewrite processValidated_run, ingest_run. cbv zeta. by rewrite Hempty.
Qed.

(** C8. When no event of a validated batch passes the filter, the run returns
    [{processed: 0}], the store is left as it was, and the only statements
    sent are the table creation and the watermark reads: no dimension lookup,
    no dimension insert and no fact insert, empty or not. *)
Theorem empty_to_ingest_short_circuits
    (now : Z) (batch : list RouletteEvent) (s : store) :
  to_ingest s batch = [] →
  processValidated now batch s
    = (Ok (mkProcessed 0), s,
       QCreateTables :: map QSelectMaxSettled (uniqueTableIds batch))
  ∧ (∀ q, q ∈ issued (processValidated now batch) s →
          (∀ t n, q ≠ QSelectCasino t n)
          ∧ (∀ t n, q ≠ QInsertCasino t n)
          ∧ (∀ rows, q ≠ QInsertEvents rows)).
Proof.
  intros Hempty.
  assert (processValidated now batch s
          = (Ok (mkProcessed 0), s,
             QCreateTables :: map QSelectMaxSettled (uniqueTableIds batch))) as Hrun.
  { by apply short_circuit_run. }
  split; [done|].
  intros q. unfold issued. rewrite Hrun. cbn [snd].
  intros [->|Hq]%elem_of_cons; [done|].
  apply list_elem_of_fmap in Hq as (t & -> & _). done.
Qed.

Lemma empty_to_ingest_short_circuits_witness :
  to_ingest empty_store [ev2] = []
  ∧ processValidated 1762736900000 [ev2] empty_store
    = (Ok (mkProcessed 0), empty_store,
       QCreateTables :: map QSelectMaxSettled (uniqueTableIds [ev2])).
Proof.
  assert (to_ingest empty_store [ev2] = []) as H by (vm_compute; reflexivity).
  split; [exact H|].
  exact (proj1 (empty_to_ingest_short_circuits 1762736900000 [ev2] empty_store H)).
Defined.

(** ** The dimension resolver *)

Lemma get_or_create_run (now : Z) (t n : string) (s : store) :
  get_or_create now (t, n) s
  = match List.filter (casino_matches t n) (casino s) with
    | c :: _ => (Ok (t, c_id c), s, [QSelectCasino t n])
    | [] =>
        if has_table_id t (casino s)
        then (Err uv,
              mkStore (casino s) (roulette_events s) (casino_id_seq s + 1)
                      (roulette_events_id_seq s),
              [QSelectCasino t n; QInsertCasino t n])
        else (Ok (t, casino_id_seq s),
              mkStore (casino s ++ [mkCasino (casino_id_seq s) t n now])
                      (roulette_events s) (casino_id_seq s + 1)
                      (roulette_events_id_seq s),
              [QSelectCasino t n; QInsertCasino t n])
    end.
Proof.
  unfold get_or_create, bind at 1, select_casino.
  destruct (List.filter (casino_matches t n) (casino s)) as [|c cs]; cbn [map].
  - unfold bind, insert_casino. by destruct (has_table_id t (casino s)).
  - reflexivity.
Qed.

Lemma has_table_id_spec (t : string) (cs : list casino_row) :
  has_table_id t cs = true ↔ t ∈ map c_table_id cs.
Proof.
  unfold has_table_id. rewrite existsb_exists, list_elem_of_In, in_map_iff.
  split; intros (c & H1 & H2); exists c.
  - by apply bool_decide_eq_true in H2.
  - split; [done|]. by apply bool_decide_eq_true.
Qed.

Lemma casino_matches_spec (t n : string) (c : casino_row) :
  casino_matches t n c = true ↔ c_table_id c = t ∧ c_table_name c = n.
Proof. unfold casino_matches. by rewrite andb_true_iff, !bool_decide_eq_true. Qed.

Lemma first_match_in (t n : string) (l : list casino_row) (c : casino_row)
    (cs : list casino_row) :
  List.filter (casino_matches t n) l = c :: cs →
  c ∈ l ∧ c_table_id c = t ∧ c_table_name c = n.
Proof.
  intros Hf.
  assert (In c (List.filter (casino_matches t n) l)) as Hin by (rewrite Hf; by left).
  apply filter_In in Hin as [Hin Hm]. apply casino_matches_spec in Hm.
  by rewrite list_elem_of_In.
Qed.

Lemma select_is_dimension_statement t n : dimension_statement (QSelectCasino t n).
Proof. left. by exists t, n. Qed.

Lemma insert_is_dimension_statement t n : dimension_statement (QInsertCasino t n).
Proof. right. by exists t, n. Qed.

#[local] Hint Resolve select_is_dimension_statement insert_is_dimension_statement : core.

Lemma get_or_create_effect (now : Z) (p : string * string) (s : store) :
  ∃ r s' q, get_or_create now p s = (r, s', q)
    ∧ casino s `prefix_of` casino s'
    ∧ roulette_events s' = roulette_events s
    ∧ roulette_events_id_seq s' = roulette_events_id_seq s
    ∧ (unique_table_ids s → unique_table_ids s')
    ∧ (∀ t', t' ∈ map c_table_id (casino s') → t' ∈ map c_table_id (casino s) ∨ t' = p.1)
    ∧ resolved_as s' p r
    ∧ Forall dimension_statement q.
Proof.
  destruct p as [t n]. rewrite get_or_create_run.
  destruct (List.filter (casino_matches t n) (casino s)) as [|c cs] eqn:Hf.
  - destruct (has_table_id t (casino s)) eqn:Hhas.
    + do 3 eexists. split; [done|]. cbn.
      split_and!; try done; [by left|].
      repeat (constructor; auto).
    + do 3 eexists. split; [done|]. cbn.
      split_and!; try done.
      * by apply prefix_app_r.
      * unfold unique_table_ids. cbn. rewrite map_app. cbn. intros Hnd.
        apply NoDup_app. split_and!; [done| |apply NoDup_singleton].
        intros x Hx ->%list_elem_of_singleton.
        apply has_table_id_spec in Hx. congruence.
      * intros t'. rewrite map_app, elem_of_app. cbn.
        intros [H|H%list_elem_of_singleton]; [by left|by right].
      * exists (mkCasino (casino_id_seq s) t n now), []. split; [|done].
        rewrite List.filter_app, Hf. cbn. unfold casino_matches. cbn.
        by rewrite !bool_decide_eq_true_2.
      * repeat (constructor; auto).
  - do 3 eexists. split; [done|].
    split_and!; try done; [by left| |].
    + cbn. split; [done|]. by exists c, cs.
    + repeat (constructor; auto).
Qed.

Lemma resolved_as_mono (s1 s2 : store) p r :
  casino s1 `prefix_of` casino s2 → resolved_as s1 p r → resolved_as s2 p r.
Proof.
  intros [k Hk] Hr. destruct r as [[t id]|e]; [|done].
  destruct Hr as (Ht & c & cs & Hf & Hid). split; [done|].
  exists c, (cs ++ List.filter (casino_matches p.1 p.2) k).
  by rewrite Hk, List.filter_app, Hf.
Qed.

Lemma resolve_all_effect (now : Z) (pairs : list (string * string)) (s : store) :
  ∃ rs s' q,
    traverse (fun p => settle (get_or_create now p)) pairs s = (Ok rs, s', q)
    ∧ casino s `prefix_of` casino s'
    ∧ roulette_events s' = roulette_events s
    ∧ roulette_events_id_seq s' = roulette_events_id_seq s
    ∧ (unique_table_ids s → unique_table_ids s')
    ∧ (∀ t', t' ∈ map c_table_id (casino s') →
             t' ∈ map c_table_id (casino s) ∨ t' ∈ map fst pairs)
    ∧ Forall2 (resolved_as s') pairs rs
    ∧ Forall dimension_statement q.
Proof.
  revert s. induction pairs as [|p pairs IH]; intros s.
  - exists [], s, []. cbn. split_and!; try done.
    intros t' H. by left.
  - destruct (get_or_create_effect now p s)
      as (r & s1 & q1 & Hrun & Hpre & Hev & Hseq & Huniq & Hids & Hres & Hq1).
    destruct (IH s1) as (rs & s2 & q2 & Hrun2 & Hpre2 & Hev2 & Hseq2 & Huniq2 & Hids2 & Hres2 & Hq2).
    exists (r :: rs), s2, (q1 ++ q2).
    split.
    { cbn [traverse]. unfold bind at 1, settle at 1. rewrite Hrun.
      unfold bind at 1. rewrite Hrun2. cbn. by rewrite app_nil_r. }
    split_and!.
    + by etrans.
    + congruence.
    + congruence.
    + auto.
    + intros t' Ht'. cbn [map]. destruct (Hids2 t' Ht') as [H|H].
      * destruct (Hids t' H) as [H'| ->]; [by left|right; left].
      * right. by right.
    + constructor; [|done]. by eapply resolved_as_mono.
    + by apply Forall_app.
Qed.

Lemma bind_Ok {A B} (m : M A) (f : A -> M B) s a s1 q1 :
  m s = (Ok a, s1, q1) →
  bind m f s = let '(r, s2, q2) := f a s1 in (r, s2, q1 ++ q2).
Proof. intros H. unfold bind. by rewrite H. Qed.

Lemma bind_Err {A B} (m : M A) (f : A -> M B) s e s1 q1 :
  m s = (Err e, s1, q1) → bind m f s = (Err e, s1, q1).
Proof. intros H. unfold bind. by rewrite H. Qed.

Lemma all_settled_inv_Ok {A} (rs : list (outcome_of A)) (vs : list A) :
  all_settled rs = Ok vs → rs = map Ok vs.
Proof.
  revert vs. induction rs as [|[a|e] rs IH]; intros vs; cbn.
  - by intros [= <-].
  - destruct (all_settled rs) as [l|e]; [|done]. intros [= <-]. cbn. f_equal. by apply IH.
  - done.
Qed.

Lemma all_settled_inv_Err {A} (rs : list (outcome_of A)) (e : error) :
  all_settled rs = Err e → Err e ∈ rs.
Proof.
  induction rs as [|[a|e'] rs IH]; cbn; [done| |].
  - destruct (all_settled rs) as [l|e'']; [done|]. intros [= ->]. right. by apply IH.
  - intros [= ->]. left.
Qed.


(** The dimension step of a run: every pair is looked up and, when absent,
    inserted; the step succeeds when every one of them did. *)
Lemma resolve_dimensions_effect (now : Z) (pairs : list (string * string)) (s : store) :
  ∃ rs s' q,
    Promise_all (get_or_create now) pairs s = (all_settled rs, s', q)
    ∧ casino s `prefix_of` casino s'
    ∧ roulette_events s' = roulette_events s
    ∧ roulette_events_id_seq s' = roulette_events_id_seq s
    ∧ (unique_table_ids s → unique_table_ids s')
    ∧ (∀ t', t' ∈ map c_table_id (casino s') →
             t' ∈ map c_table_id (casino s) ∨ t' ∈ map fst pairs)
    ∧ Forall2 (resolved_as s') pairs rs
    ∧ Forall dimension_statement q.
Proof.
  destruct (resolve_all_effect now pairs s)
    as (rs & s' & q & Hrun & Hrest).
  exists rs, s', q. split; [|done].
  unfold Promise_all. rewrite (bind_Ok _ _ _ _ _ _ Hrun).
  destruct (all_settled rs); cbn; by rewrite app_nil_r.
Qed.

Lemma resolve_dimensions_Ok (now : Z) (pairs : list (string * string)) (s s' : store)
    (results : list (string * Z)) (q : list query) :
  Promise_all (get_or_create now) pairs s = (Ok results, s', q) →
  map fst results = map fst pairs
  ∧ (∀ t id, (t, id) ∈ results →
       ∃ c, c ∈ casino s' ∧ c_id c = id ∧ c_table_id c = t)
  ∧ casino s `prefix_of` casino s'
  ∧ roulette_events s' = roulette_events s
  ∧ (unique_table_ids s → unique_table_ids s')
  ∧ Forall dimension_statement q
  ∧ Forall2 (fun p v => resolved_as s' p (Ok v)) pairs results.
Proof.
  intros Hrun.
  destruct (resolve_dimensions_effect now pairs s)
    as (rs & s1 & q1 & Hrun' & Hpre & Hev & _ & Huniq & _ & Hres & Hq).
  rewrite Hrun in Hrun'. injection Hrun' as Hrs <- <-.
  symmetry in Hrs. apply all_settled_inv_Ok in Hrs as ->.
  change (map Ok results) with (Ok <$> results) in Hres.
  rewrite Forall2_fmap_r in Hres.
  split_and!; try done.
  - clear -Hres. induction Hres as [|p v ps vs Hv _ IH]; [done|].
    destruct v as [t id]. destruct Hv as [Ht _]. cbn. by rewrite Ht, IH.
  - intros t id Hin. clear -Hres Hin.
    induction Hres as [|p v ps vs Hv _ IH]; [by apply elem_of_nil in Hin|].
    apply elem_of_cons in Hin as [<-|Hin]; [|by apply IH].
    destruct Hv as (Ht & c & cs & Hf & Hid).
    apply first_match_in in Hf as (Hc & Htid & _).
    exists c. by rewrite Ht.
Qed.

Lemma casinoCache_fold_lookup (results : list (string * Z)) (m : gmap string Z)
    (t : string) (id : Z) :
  fold_left (fun m r => <[r.1 := r.2]> m) results m !! t = Some id →
  (t, id) ∈ results ∨ m !! t = Some id.
Proof.
  revert m. induction results as [|[t' id'] results IH]; intros m; cbn [fold_left].
  - by right.
  - intros H. destruct (IH _ H) as [Hin|Hm]; [left; by right|].
    cbn in Hm. destruct (decide (t' = t)) as [->|Hne].
    + rewrite lookup_insert_eq in Hm. injection Hm as ->. left; left.
    + rewrite lookup_insert_ne in Hm; [|done]. by right.
Qed.

Lemma casinoCache_fold_is_Some (results : list (string * Z)) (m : gmap string Z)
    (t : string) :
  t ∈ map fst results ∨ is_Some (m !! t) →
  is_Some (fold_left (fun m r => <[r.1 := r.2]> m) results m !! t).
Proof.
  revert m. induction results as [|[t' id'] results IH]; intros m; cbn [fold_left map].
  - intros [H|H]; [by apply elem_of_nil in H|done].
  - intros H. apply IH. cbn [fst snd].
    destruct (decide (t' = t)) as [->|Hne].
    + right. rewrite lookup_insert_eq. by eexists.
    + rewrite lookup_insert_ne; [|done].
      destruct H as [[?|H]%elem_of_cons|H]; [done|by left|by right].
Qed.

Lemma casinoCache_lookup (results : list (string * Z)) (t : string) (id : Z) :
  casinoCache results !! t = Some id → (t, id) ∈ results.
Proof.
  intros H. apply casinoCache_fold_lookup in H as [H|H]; [done|].
  by rewrite lookup_empty in H.
Qed.

Lemma casinoCache_is_Some (results : list (string * Z)) (t : string) :
  t ∈ map fst results → is_Some (casinoCache results !! t).
Proof. intros H. apply casinoCache_fold_is_Some. by left. Qed.

(** [uniqueTables]: one entry per partition id, in order of first
    appearance, with the name of the first event of that partition. *)
Lemma has_key_spec (k : string) (l : list (string * string)) :
  has_key k l = true ↔ k ∈ map fst l.
Proof.
  unfold has_key. rewrite existsb_exists, list_elem_of_In, in_map_iff.
  split; intros (p & H1 & H2); exists p.
  - by apply bool_decide_eq_true in H2.
  - split; [done|]. by apply bool_decide_eq_true.
Qed.

Lemma uniqueTables_fold_keys (l : list RouletteEvent) (acc : list (string * string)) :
  NoDup (map fst acc) →
  NoDup (map fst (fold_left uniqueTables_step l acc))
  ∧ (∀ t, t ∈ map fst (fold_left uniqueTables_step l acc)
          ↔ t ∈ map fst acc ∨ ∃ e, e ∈ l ∧ partition_of e = t).
Proof.
  revert acc. induction l as [|e l IH]; intros acc Hnd; cbn [fold_left].
  - split; [done|]. intros t. split; [by left|].
    intros [H|(e & He & _)]; [done|]. by apply elem_of_nil in He.
  - assert (NoDup (map fst (uniqueTables_step acc e))
            ∧ ∀ t, t ∈ map fst (uniqueTables_step acc e)
                   ↔ t ∈ map fst acc ∨ t = partition_of e) as [Hnd' Hkeys].
    { unfold uniqueTables_step. destruct (has_key _ acc) eqn:Hk; cbn [negb].
      - split; [done|]. intros t. split; [by left|].
        intros [H| ->]; [done|]. by apply has_key_spec.
      - rewrite map_app. cbn [map fst]. split.
        + apply NoDup_app. split_and!; [done| |apply NoDup_singleton].
          intros x Hx ->%list_elem_of_singleton.
          apply has_key_spec in Hx. congruence.
        + intros t. rewrite elem_of_app, list_elem_of_singleton. done. }
    destruct (IH _ Hnd') as [IH1 IH2]. split; [done|].
    intros t. rewrite IH2, Hkeys. split.
    + intros [[H| ->]|(e' & He' & Ht)].
      * by left.
      * right. exists e. split; [left|done].
      * right. exists e'. split; [by right|done].
    + intros [H|(e' & [->|He']%elem_of_cons & Ht)].
      * by left; left.
      * left; right. done.
      * right. by exists e'.
Qed.

Lemma uniqueTables_keys (resolved : list RouletteEvent) :
  NoDup (map fst (uniqueTables resolved))
  ∧ (∀ t, t ∈ map fst (uniqueTables resolved) ↔ ∃ e, e ∈ resolved ∧ partition_of e = t).
Proof.
  destruct (uniqueTables_fold_keys resolved [] (NoDup_nil_2)) as [H1 H2].
  split; [done|]. intros t. unfold uniqueTables. fold uniqueTables_step.
  rewrite H2. split; [|by right]. intros [H|H]; [by apply elem_of_nil in H|done].
Qed.

(** ** Building the fact rows and inserting them *)

Lemma build_row_Ok (cache : gmap string Z) (e : RouletteEvent) (r : event_data) :
  build_row cache e = Ok r
  ↔ ∃ id, cache !! partition_of e = Some id ∧ id ≠ 0 ∧ r = row_for e id.
Proof.
  unfold build_row, partition_of, row_for.
  destruct (cache !! t_id (table (data e))) as [id|].
  - destruct (Z.eqb_spec id 0) as [->|Hne].
    + split; [done|]. intros (id & [= <-] & Hne & _). done.
    + split.
      * intros [= <-]. by exists id.
      * intros (id' & [= <-] & _ & ->). done.
  - split; [done|]. intros (id & H & _). done.
Qed.

Lemma build_rows_Ok (cache : gmap string Z) (resolved : list RouletteEvent)
    (rows : list event_data) :
  build_rows cache resolved = Ok rows
  ↔ Forall2 (fun e r => ∃ id, cache !! partition_of e = Some id ∧ id ≠ 0 ∧ r = row_for e id)
            resolved rows.
Proof.
  revert rows. induction resolved as [|e resolved IH]; intros rows; cbn [build_rows].
  - split.
    + intros [= <-]. constructor.
    + intros ->%Forall2_nil_inv_l. done.
  - destruct (build_row cache e) as [r|err] eqn:Hr.
    + destruct (build_rows cache resolved) as [rs|err] eqn:Hrs.
      * split.
        -- intros [= <-]. constructor; [by apply build_row_Ok|by apply IH].
        -- intros (r' & rs' & Hr' & Hrs' & ->)%Forall2_cons_inv_l.
           apply build_row_Ok in Hr'. apply IH in Hrs'. congruence.
      * split; [done|].
        intros (r' & rs' & _ & Hrs' & ->)%Forall2_cons_inv_l.
        apply IH in Hrs'. done.
    + split; [done|].
      intros (r' & rs' & Hr' & _ & ->)%Forall2_cons_inv_l.
      apply build_row_Ok in Hr'. congruence.
Qed.

Lemma build_rows_Err (cache : gmap string Z) (resolved : list RouletteEvent) (e : error) :
  build_rows cache resolved = Err e → e = InvalidFields.
Proof.
  induction resolved as [|ev resolved IH]; cbn [build_rows]; [done|].
  destruct (build_row cache ev) as [r|err] eqn:Hr.
  - destruct (build_rows cache resolved) as [rs|err]; [done|].
    intros [= <-]. by apply IH.
  - intros [= <-]. unfold build_row in Hr.
    destruct (cache !! _) as [id|]; [|congruence].
    destruct (id =? 0); congruence.
Qed.

Lemma insert_events_run (now : Z) (rows : list event_data) (s : store) :
  insert_events now rows s
  = (Ok tt,
     mkStore (casino s) (bulk now rows s).1 (casino_id_seq s) (bulk now rows s).2,
     [QInsertEvents rows]).
Proof.
  unfold insert_events, bulk. by destruct (fold_left _ _ _).
Qed.

(** The three ways a run with a non-empty to-ingest set can end. *)
Lemma processValidated_cases (now : Z) (batch : list RouletteEvent) (s : store) :
  to_ingest s batch ≠ [] →
  ∃ rs s1 q1,
    Promise_all (get_or_create now) (uniqueTables (to_ingest s batch)) s
      = (rs, s1, q1)
    ∧ let q0 := QCreateTables :: map QSelectMaxSettled (uniqueTableIds batch) in
      processValidated now batch s
      = match rs with
        | Err e => (Err e, s1, q0 ++ q1 ++ [QLogError e "processRouletteData"])
        | Ok casinoResults =>
            match build_rows (casinoCache casinoResults) (to_ingest s batch) with
            | Err e => (Err e, s1, q0 ++ q1 ++ [QLogError e "processRouletteData"])
            | Ok rows =>
                (Ok (mkProcessed (length (to_ingest s batch))),
                 mkStore (casino s1) (bulk now rows s1).1
                         (casino_id_seq s1) (bulk now rows s1).2,
                 q0 ++ q1 ++ [QInsertEvents rows])
            end
        end.
Proof.
  intros Hne.
  destruct (Promise_all (get_or_create now) (uniqueTables (to_ingest s batch)) s)
    as [[rs s1] q1] eqn:Hres.
  exists rs, s1, q1. split; [done|]. cbv zeta.
  rewrite processValidated_run, ingest_run. cbv zeta.
  destruct (to_ingest s batch) as [|e0 resolved] eqn:Hti; [done|].
  cbn [length Nat.eqb]. rewrite <- Hti in *.
  destruct rs as [casinoResults|e].
  - rewrite (bind_Ok _ _ _ _ _ _ Hres).
    destruct (build_rows (casinoCache casinoResults) (to_ingest s batch))
      as [rows|e] eqn:Hrows.
    + assert (rows ≠ []) as Hrne.
      { apply build_rows_Ok, Forall2_length in Hrows.
        rewrite Hti in Hrows. by destruct rows. }
      destruct rows as [|r rows]; [done|].
      unfold lift, bind at 1, ret at 1.
      cbn [length Nat.ltb Nat.leb]. unfold bind at 1.
      rewrite insert_events_run. cbn -[bulk].
      by rewrite <- ?app_assoc, ?app_nil_r.
    + unfold lift, bind at 1, throw at 1. cbn.
      by rewrite <- ?app_assoc, ?app_nil_r.
  - rewrite (bind_Err _ _ _ _ _ _ Hres). cbn. by rewrite <- ?app_assoc, ?app_nil_r.
Qed.

Lemma build_rows_total (cache : gmap string Z) (resolved : list RouletteEvent) :
  (∀ e, e ∈ resolved → ∃ id, cache !! partition_of e = Some id ∧ id ≠ 0) →
  ∃ rows, build_rows cache resolved = Ok rows ∧ length rows = length resolved.
Proof.
  induction resolved as [|e resolved IH]; intros Hall.
  - by exists [].
  - destruct (Hall e) as (id & Hid & Hne); [left|].
    destruct IH as (rows & Hrows & Hlen).
    { intros e' He'. apply Hall. by right. }
    exists (row_for e id :: rows). split; [|cbn; by rewrite Hlen].
    apply build_rows_Ok. constructor; [by exists id|by apply build_rows_Ok].
Qed.



Lemma has_event_id_spec (eid : string) (rs : list event_row) :
  has_event_id eid rs = true ↔ eid ∈ map re_event_id rs.
Proof.
  unfold has_event_id. rewrite existsb_exists, list_elem_of_In, in_map_iff.
  split; intros (c & H1 & H2); exists c.
  - by apply bool_decide_eq_true in H2.
  - split; [done|]. by apply bool_decide_eq_true.
Qed.

(** The bulk insert with [ON CONFLICT (event_id) DO NOTHING]. *)
Lemma bulk_fold_spec (now : Z) (rows : list event_data) (rs : list event_row) (seq : Z) :
  let rs' := (fold_left (insert_event_row now) rows (rs, seq)).1 in
  rs `prefix_of` rs'
  ∧ (NoDup (map re_event_id rs) → NoDup (map re_event_id rs'))
  ∧ (∀ r, r ∈ rows → event_id r ∈ map re_event_id rs')
  ∧ (∀ x, x ∈ rs' → x ∈ rs ∨ ∃ r, r ∈ rows ∧ re_event_id x = event_id r
                                   ∧ re_casino_id x = Some (casino_id r)
                                   ∧ re_settled_at x = settled_at r)
  ∧ ((∀ r, r ∈ rows → event_id r ∈ map re_event_id rs) → rs' = rs).
Proof.
  revert rs seq. induction rows as [|r rows IH]; intros rs seq; cbn [fold_left].
  - cbn. split_and!; try done.
    + intros r Hr. by apply elem_of_nil in Hr.
    + intros x Hx. by left.
  - change (insert_event_row now (rs, seq) r)
      with (if has_event_id (event_id r) rs then (rs, seq + 1)
            else (rs ++ [mkEventRow seq (event_id r) (started_at r) (settled_at r)
                           (outcome_number r) (outcome_type r) (outcome_color r)
                           (Some (casino_id r)) now], seq + 1)).
    destruct (has_event_id (event_id r) rs) eqn:Hhas.
    + destruct (IH rs (seq + 1)) as (Hpre & Hnd & Hin & Hnew & Hsame).
      cbv zeta. split_and!; try done.
      * intros r' [->|Hr']%elem_of_cons; [|by apply Hin].
        apply has_event_id_spec in Hhas. destruct Hpre as [k ->].
        rewrite map_app, elem_of_app. by left.
      * intros x Hx. destruct (Hnew x Hx) as [H|(r' & Hr' & Hrest)]; [by left|].
        right. exists r'. split; [by right|done].
      * intros Hall. apply Hsame. intros r' Hr'. apply Hall. by right.
    + set (row := mkEventRow seq (event_id r) (started_at r) (settled_at r)
                    (outcome_number r) (outcome_type r) (outcome_color r)
                    (Some (casino_id r)) now).
      destruct (IH (rs ++ [row]) (seq + 1)) as (Hpre & Hnd & Hin & Hnew & Hsame).
      cbv zeta. split_and!.
      * etrans; [|exact Hpre]. by apply prefix_app_r.
      * intros Hrs. apply Hnd. rewrite map_app. cbn.
        apply NoDup_app. split_and!; [done| |apply NoDup_singleton].
        intros x Hx ->%list_elem_of_singleton.
        apply has_event_id_spec in Hx. congruence.
      * intros r' [->|Hr']%elem_of_cons; [|by apply Hin].
        destruct Hpre as [k ->]. rewrite !map_app, !elem_of_app. left; right. left.
      * intros x Hx. destruct (Hnew x Hx) as [H|(r' & Hr' & Hrest)].
        -- apply elem_of_app in H as [H| ->%list_elem_of_singleton]; [by left|].
           right. exists r. split; [left|done].
        -- right. exists r'. split; [by right|done].
      * intros Hall. assert (event_id r ∈ map re_event_id rs) as Habs
          by (apply Hall; left).
        apply has_event_id_spec in Habs. congruence.
Qed.

Lemma NoDup_map_filter_le_1 {A} (f : A -> string) (k : string) (l : list A) :
  NoDup (map f l) →
  (length (List.filter (fun x => bool_decide (f x = k)) l) ≤ 1)%nat.
Proof.
  induction l as [|x l IH]; cbn; [lia|].
  intros [Hx Hnd]%NoDup_cons. specialize (IH Hnd).
  case_bool_decide as Hk; [|done]. cbn.
  destruct (List.filter (fun x => bool_decide (f x = k)) l) as [|y ys] eqn:Hf; [cbn; lia|].
  exfalso. apply Hx.
  assert (In y (List.filter (fun x => bool_decide (f x = k)) l)) as Hin
    by (rewrite Hf; by left).
  apply filter_In in Hin as [Hin Hy]. apply bool_decide_eq_true in Hy.
  rewrite Hk, <- Hy. apply list_elem_of_In, in_map, Hin.
Qed.

Lemma filter_nonempty_length {A} (P : A -> bool) (l : list A) (x : A) :
  x ∈ l → P x = true → (1 ≤ length (List.filter P l))%nat.
Proof.
  intros Hin HP.
  assert (In x (List.filter P l)) as H by (apply filter_In; by rewrite <- list_elem_of_In).
  destruct (List.filter P l); [done|cbn; lia].
Qed.

(** Nothing a run does looks at the envelope id. *)
Lemma uniqueTableIds_envelope g (batch : list RouletteEvent) :
  uniqueTableIds (map (with_envelope g) batch) = uniqueTableIds batch.
Proof.
  unfold uniqueTableIds. generalize (@nil string).
  induction batch as [|e batch IH]; intros acc; cbn [map fold_left]; [done|].
  by rewrite IH.
Qed.

Lemma resolvedEvents_envelope g latest (batch : list RouletteEvent) :
  resolvedEvents latest (map (with_envelope g) batch)
  = map (with_envelope g) (resolvedEvents latest batch).
Proof.
  unfold resolvedEvents. induction batch as [|e batch IH]; cbn; [done|].
  change (admitted latest (with_envelope g e)) with (admitted latest e).
  destruct (admitted latest e); cbn; by rewrite IH.
Qed.

Lemma uniqueTables_envelope g (l : list RouletteEvent) :
  uniqueTables (map (with_envelope g) l) = uniqueTables l.
Proof.
  change (fold_left uniqueTables_step (map (with_envelope g) l) []
          = fold_left uniqueTables_step l []).
  generalize (@nil (string * string)).
  induction l as [|e l IH]; intros acc; cbn [map fold_left]; [done|].
  by rewrite IH.
Qed.

Lemma build_rows_envelope g cache (l : list RouletteEvent) :
  build_rows cache (map (with_envelope g) l) = build_rows cache l.
Proof.
  induction l as [|e l IH]; cbn [map build_rows]; [done|].
  change (build_row cache (with_envelope g e)) with (build_row cache e).
  by rewrite IH.
Qed.

Lemma bind_ext {A B} (m : M A) (f g : A -> M B) (s : store) :
  (∀ a s', f a s' = g a s') → bind m f s = bind m g s.
Proof.
  intros H. unfold bind. destruct (m s) as [[[a|e] s1] q1]; [|done]. by rewrite H.
Qed.

Lemma ingest_envelope g now (batch : list RouletteEvent) (s : store) :
  ingest now (map (with_envelope g) batch) s = ingest now batch s.
Proof.
  unfold ingest. rewrite uniqueTableIds_envelope.
  apply bind_ext. intros res s0. cbv zeta.
  rewrite resolvedEvents_envelope, length_map, uniqueTables_envelope.
  destruct (length _ =? 0)%nat; [done|].
  apply bind_ext. intros cr s1.
  by rewrite build_rows_envelope.
Qed.

Lemma processValidated_envelope g now (batch : list RouletteEvent) (s : store) :
  processValidated now (map (with_envelope g) batch) s = processValidated now batch s.
Proof. by rewrite !processValidated_run, ingest_envelope. Qed.

Lemma not_insert_in_prefix (batch : list RouletteEvent) (q1 : list query)
    (rows : list event_data) :
  Forall dimension_statement q1 →
  QInsertEvents rows ∉ (QCreateTables :: map QSelectMaxSettled (uniqueTableIds batch)) ++ q1.
Proof.
  intros Hq1 Hin. apply elem_of_app in Hin as [Hin|Hin].
  - apply elem_of_cons in Hin as [?|Hin]; [done|].
    apply list_elem_of_fmap in Hin as (t & ? & _). done.
  - rewrite Forall_forall in Hq1.
    destruct (Hq1 _ Hin) as [(t & n & ?)|(t & n & ?)]; done.
Qed.

Lemma processValidated_Ok (now : Z) (batch : list RouletteEvent) (s : store)
    (p : processed_result) :
  returned (processValidated now batch) s = Ok p →
  to_ingest s batch ≠ [] →
  ∃ casinoResults s1 q1 rows, successful_run now batch s casinoResults s1 q1 rows.
Proof.
  intros Hret Hne.
  destruct (processValidated_cases now batch s Hne) as (rs & s1 & q1 & Hres & Hrun).
  cbv zeta in Hrun. unfold returned in Hret. rewrite Hrun in Hret.
  destruct rs as [casinoResults|e]; [|done].
  destruct (build_rows _ _) as [rows|e] eqn:Hrows; [|done].
  by exists casinoResults, s1, q1, rows.
Qed.

Lemma insert_issued_inv (now : Z) (batch : list RouletteEvent) (s : store)
    (rows : list event_data) :
  QInsertEvents rows ∈ issued (processValidated now batch) s →
  ∃ casinoResults s1 q1, successful_run now batch s casinoResults s1 q1 rows.
Proof.
  intros Hin. unfold issued in Hin.
  destruct (to_ingest s batch) as [|e0 l] eqn:Hti.
  { rewrite (short_circuit_run now batch s Hti) in Hin. cbn [snd] in Hin.
    apply elem_of_cons in Hin as [?|Hin]; [done|].
    apply list_elem_of_fmap in Hin as (t & ? & _). done. }
  destruct (processValidated_cases now batch s) as (rs & s1 & q1 & Hres & Hrun);
    [by rewrite Hti|].
  cbv zeta in Hrun.
  destruct (resolve_dimensions_effect now (uniqueTables (to_ingest s batch)) s)
    as (rs' & s1' & q1' & Hres' & _ & _ & _ & _ & _ & _ & Hq1).
  rewrite Hres in Hres'. injection Hres' as -> <- <-.
  rewrite Hrun in Hin.
  destruct (all_settled rs') as [casinoResults|e] eqn:Hall.
  - destruct (build_rows _ _) as [rows'|e] eqn:Hrows; cbn [snd] in Hin.
    + rewrite app_assoc in Hin. apply elem_of_app in Hin as [Hin|Hin].
      * by apply not_insert_in_prefix in Hin.
      * apply list_elem_of_singleton in Hin. injection Hin as ->.
        by exists casinoResults, s1, q1.
    + rewrite app_assoc in Hin. apply elem_of_app in Hin as [Hin|Hin].
      * by apply not_insert_in_prefix in Hin.
      * by apply list_elem_of_singleton in Hin.
  - cbn [snd] in Hin. rewrite app_assoc in Hin. apply elem_of_app in Hin as [Hin|Hin].
    + by apply not_insert_in_prefix in Hin.
    + by apply list_elem_of_singleton in Hin.
Qed.

Lemma rows_event_ids (cache : gmap string Z) (resolved : list RouletteEvent)
    (rows : list event_data) :
  build_rows cache resolved = Ok rows →
  map event_id rows = map (fun e => d_id (data e)) resolved.
Proof.
  intros H%build_rows_Ok.
  induction H as [|e r es rs (id & _ & _ & ->) _ IH]; [done|].
  cbn. by rewrite IH.
Qed.

(** C10. The fact row is keyed by the id of the inner [data] payload: the
    rows sent to the bulk insert carry [data.id] of the to-ingest events, in
    order; after a successful run every to-ingest event has a fact row under
    its [data.id]; replacing the envelope ids of the batch by anything changes
    nothing of what the run returns, stores or sends; and two to-ingest
    elements with different envelope ids and the same [data.id] are both
    counted in [processed] while exactly one fact row carries that id. *)
Theorem fact_keyed_by_inner_data_id
    (now : Z) (batch : list RouletteEvent) (s : store) (p : processed_result) :
  unique_event_ids s →
  returned (processValidated now batch) s = Ok p →
  let s' := store_after (processValidated now batch) s in
  (∀ rows, QInsertEvents rows ∈ issued (processValidated now batch) s →
           map event_id rows = map (fun e => d_id (data e)) (to_ingest s batch))
  ∧ (∀ e, e ∈ to_ingest s batch → d_id (data e) ∈ map re_event_id (roulette_events s'))
  ∧ (∀ g, processValidated now (map (with_envelope g) batch) s
          = processValidated now batch s)
  ∧ unique_event_ids s'
  ∧ processed p = length (to_ingest s batch)
  ∧ (∀ i j e1 e2,
       i ≠ j →
       to_ingest s batch !! i = Some e1 →
       to_ingest s batch !! j = Some e2 →
       e_id e1 ≠ e_id e2 →
       d_id (data e1) = d_id (data e2) →
       (2 ≤ processed p)%nat
       ∧ length (List.filter (fun r => bool_decide (re_event_id r = d_id (data e1)))
                             (roulette_events s')) = 1%nat).
Proof.
  intros Huniq Hret s'.
  assert (unique_event_ids s'
          ∧ processed p = length (to_ingest s batch)
          ∧ ∀ e, e ∈ to_ingest s batch →
                 d_id (data e) ∈ map re_event_id (roulette_events s'))
    as (Huniq' & Hp & Hstored).
  { destruct (to_ingest s batch) as [|e0 l] eqn:Hti.
    - unfold s', store_after. unfold returned in Hret.
      rewrite (short_circuit_run now batch s Hti) in *. cbn in *.
      injection Hret as <-. split_and!; [done|done|].
      intros e He. by apply elem_of_nil in He.
    - destruct (processValidated_Ok now batch s p Hret)
        as (cr & s1 & q1 & rows & Hres & Hrows & Hrun); [by rewrite Hti|].
      rewrite <- Hti in *.
      unfold s', store_after. unfold returned in Hret. rewrite Hrun in *.
      cbn [fst snd] in *. injection Hret as <-.
      destruct (resolve_dimensions_Ok _ _ _ _ _ _ Hres) as (_ & _ & _ & Hev & _).
      destruct (bulk_fold_spec now rows (roulette_events s1) (roulette_events_id_seq s1))
        as (_ & Hnd & Hin & _).
      cbv zeta in Hnd, Hin. fold (bulk now rows s1) in Hnd, Hin.
      unfold unique_event_ids. cbn [roulette_events].
      split_and!; [apply Hnd; by rewrite Hev|done|].
      intros e He.
      apply build_rows_Ok in Hrows.
      apply list_elem_of_lookup in He as [i Hi].
      destruct (Forall2_lookup_l _ _ _ _ _ Hrows Hi) as (r & Hr & id & _ & _ & ->).
      apply (Hin (row_for e id)). apply list_elem_of_lookup. by exists i. }
  split_and!; try done.
  - intros rows Hin.
    apply insert_issued_inv in Hin as (cr & s1 & q1 & _ & Hrows & _).
    by eapply rows_event_ids.
  - intros g. apply processValidated_envelope.
  - intros i j e1 e2 Hij H1 H2 _ Hsame. split.
    + rewrite Hp.
      apply lookup_lt_Some in H1. apply lookup_lt_Some in H2.
      destruct (to_ingest s batch) as [|a [|b l]]; cbn in *; lia.
    + assert (e1 ∈ to_ingest s batch) as He1 by (apply list_elem_of_lookup; by exists i).
      specialize (Hstored e1 He1).
      apply list_elem_of_fmap in Hstored as (row & Hid & Hrow).
      pose proof (NoDup_map_filter_le_1 re_event_id (d_id (data e1)) _ Huniq') as Hle.
      pose proof (filter_nonempty_length
                    (fun r => bool_decide (re_event_id r = d_id (data e1)))
                    _ row Hrow (bool_decide_eq_true_2 _ (eq_sym Hid))) as Hge.
      lia.
Qed.

Lemma fact_keyed_by_inner_data_id_witness :
  (2 ≤ 2)%nat
  ∧ length (List.filter
              (fun r => bool_decide (re_event_id r = d_id (data ev1)))
              (roulette_events
                 (store_after (processValidated 1762736900000 [ev1; ev1_again])
                    empty_store))) = 1%nat.
Proof.
  refine (proj2 (proj2 (proj2 (proj2 (proj2
            (fact_keyed_by_inner_data_id 1762736900000 [ev1; ev1_again] empty_store
               (mkProcessed 2) _ _)))))
            0%nat 1%nat ev1 ev1_again _ _ _ _ _).
  - apply NoDup_nil_2.
  - vm_compute. reflexivity.
  - lia.
  - vm_compute. reflexivity.
  - vm_compute. reflexivity.
  - vm_compute. discriminate.
  - reflexivity.
Defined.

Lemma uniqueTables_step_keys (acc : list (string * string)) (e : RouletteEvent) (t : string) :
  t ∈ map fst (uniqueTables_step acc e) ↔ t ∈ map fst acc ∨ t = partition_of e.
Proof.
  unfold uniqueTables_step. destruct (has_key _ acc) eqn:Hk; cbn [negb].
  - split; [by left|]. intros [H| ->]; [done|]. by apply has_key_spec.
  - rewrite map_app. cbn [map fst]. by rewrite elem_of_app, list_elem_of_singleton.
Qed.

Lemma uniqueTables_step_mem (acc : list (string * string)) (e : RouletteEvent) (t n : string) :
  (t, n) ∈ uniqueTables_step acc e
  ↔ (t, n) ∈ acc ∨ ((t ∉ map fst acc) ∧ pair_of e = (t, n)).
Proof.
  unfold uniqueTables_step. destruct (has_key _ acc) eqn:Hk; cbn [negb].
  - split; [by left|]. intros [H|[Hn He]]; [done|].
    apply has_key_spec in Hk. injection He as <- _. done.
  - rewrite elem_of_app, list_elem_of_singleton. split.
    + intros [H|H]; [by left|]. right. split; [|done].
      injection H as -> _. intros Hin%has_key_spec. congruence.
    + intros [H|[_ H]]; [by left|by right].
Qed.

Lemma uniqueTables_fold_mem (l : list RouletteEvent) (acc : list (string * string))
    (t n : string) :
  (t, n) ∈ fold_left uniqueTables_step l acc
  ↔ (t, n) ∈ acc ∨ ((t ∉ map fst acc) ∧ first_of_partition l t n).
Proof.
  revert acc. induction l as [|e l IH]; intros acc; cbn [fold_left].
  - split; [by left|]. intros [H|[_ (i & e & Hi & _)]]; [done|]. done.
  - rewrite IH, uniqueTables_step_mem, uniqueTables_step_keys. split.
    + intros [[H|[Hn He]]|[Hn (i & e1 & Hi & Hp & Hfirst)]].
      * by left.
      * right. split; [done|]. exists 0%nat, e. split_and!; [done|done|]. intros; lia.
      * right. split; [intros H; apply Hn; by left|].
        exists (S i), e1. split_and!; [done|done|].
        intros [|j] e' Hj He'.
        -- injection He' as <-. intros Heq. apply Hn. by right.
        -- apply (Hfirst j); [lia|done].
    + intros [H|[Hn (i & e1 & Hi & Hp & Hfirst)]]; [by left; left|].
      destruct i as [|i].
      * injection Hi as ->. left; right. done.
      * right. split.
        -- intros [H|H]; [done|]. by apply (Hfirst 0%nat e); [lia| |].
        -- exists i, e1. split_and!; [done|done|].
           intros j e' Hj He'. apply (Hfirst (S j)); [lia|done].
Qed.

Lemma uniqueTables_first (resolved : list RouletteEvent) (t n : string) :
  (t, n) ∈ uniqueTables resolved ↔ first_of_partition resolved t n.
Proof.
  change (uniqueTables resolved) with (fold_left uniqueTables_step resolved []).
  rewrite uniqueTables_fold_mem. split.
  - intros [H|[_ H]]; [by apply elem_of_nil in H|done].
  - intros H. right. split; [apply not_elem_of_nil|done].
Qed.

(** ** What runs do to the dimension table *)

Lemma processValidated_casino (now : Z) (batch : list RouletteEvent) (s : store) :
  casino s `prefix_of` casino (store_after (processValidated now batch) s)
  ∧ (unique_table_ids s → unique_table_ids (store_after (processValidated now batch) s)).
Proof.
  unfold store_after.
  destruct (to_ingest s batch) as [|e0 l] eqn:Hti.
  - by rewrite (short_circuit_run now batch s Hti).
  - destruct (processValidated_cases now batch s) as (rs & s1 & q1 & Hres & Hrun);
      [by rewrite Hti|].
    cbv zeta in Hrun. rewrite Hrun.
    destruct (resolve_dimensions_effect now (uniqueTables (to_ingest s batch)) s)
      as (rs' & s1' & q1' & Hres' & Hpre & _ & _ & Huniq & _).
    rewrite Hres in Hres'. injection Hres' as _ <- _.
    destruct rs as [cr|e]; [|done].
    by destruct (build_rows _ _).
Qed.

Lemma Route_cleanup_run (now : Z) (s : store) :
  Route.cleanupOldRouletteEvents now s
  = (Ok (mkDeleted (length (List.filter (is_old (threeMonthsAgo now)) (roulette_events s)))),
     mkStore (casino s)
             (List.filter (fun r => negb (is_old (threeMonthsAgo now) r)) (roulette_events s))
             (casino_id_seq s) (roulette_events_id_seq s),
     [QDeleteEvents (threeMonthsAgo now)]).
Proof. reflexivity. Qed.

Lemma Script_cleanup_run (now : Z) (s : store) :
  Script.cleanupOldRouletteEvents now s
  = (Ok (mkDeleted 0),
     mkStore (casino s)
             (List.filter (fun r => negb (is_old (threeMonthsAgo now) r)) (roulette_events s))
             (casino_id_seq s) (roulette_events_id_seq s),
     [QDeleteEvents (threeMonthsAgo now)]).
Proof. reflexivity. Qed.



Lemma NoDup_map_eq {A} (f : A -> string) (l : list A) (x y : A) :
  NoDup (map f l) → x ∈ l → y ∈ l → f x = f y → x = y.
Proof.
  induction l as [|a l IH]; cbn; [by intros _ H%elem_of_nil|].
  intros [Ha Hnd]%NoDup_cons [->|Hx]%elem_of_cons [->|Hy]%elem_of_cons Hf.
  - done.
  - exfalso. apply Ha. rewrite Hf. apply list_elem_of_In, in_map. by apply list_elem_of_In.
  - exfalso. apply Ha. rewrite <- Hf. apply list_elem_of_In, in_map. by apply list_elem_of_In.
  - by apply IH.
Qed.









(** ** A dimension insert that hits [UNIQUE (table_id)] *)







(** ** Running the same payload again *)

Lemma belongs_mono (s s' : store) (t : string) (re : event_row) :
  extends s s' → belongs s t re → belongs s' t re.
Proof.
  intros [[kc Hc] [ke He]] (Hre & c & Hin & Hid & Ht). split.
  - rewrite He. apply elem_of_app. by left.
  - exists c. split; [|done]. rewrite Hc. apply elem_of_app. by left.
Qed.

Lemma watermark_mono (s s' : store) (t : string) (w : Z) :
  extends s s' →
  sql_max (joined_settled s t) = Some w →
  ∃ w', sql_max (joined_settled s' t) = Some w' ∧ w ≤ w'.
Proof.
  intros Hext [(re & Hre & Hw) _]%select_max_latest.
  pose proof (belongs_mono _ _ _ _ Hext Hre) as Hre'.
  destruct (sql_max (joined_settled s' t)) as [w'|] eqn:Hmax.
  - exists w'. split; [done|].
    apply select_max_latest in Hmax as [_ Hall]. rewrite <- Hw. by apply Hall.
  - exfalso. by apply (proj1 (select_max_none s' t) Hmax re).
Qed.

Lemma to_ingest_mono (s s' : store) (batch : list RouletteEvent) (e : RouletteEvent) :
  extends s s' → e ∈ to_ingest s' batch → e ∈ to_ingest s batch.
Proof.
  intros Hext. unfold to_ingest.
  rewrite !resolvedEvents_spec.
  intros (Hin & Hst & Hw). split; [done|]. split; [done|].
  assert (partition_of e ∈ uniqueTableIds batch) as Hid
    by (apply uniqueTableIds_spec; by exists e).
  rewrite watermarks_lookup, bool_decide_eq_true_2 in Hw |- *; [|done|done].
  destruct (sql_max (joined_settled s (partition_of e))) as [w|] eqn:Hmax; [|by left].
  right. exists w. split; [done|].
  destruct (watermark_mono _ _ _ _ Hext Hmax) as (w' & Hw' & Hle).
  destruct Hw as [Hw|(w'' & Hw'' & Hlt)]; [congruence|].
  assert (w'' = w') as -> by congruence. lia.
Qed.

Lemma processValidated_events (now : Z) (batch : list RouletteEvent) (s : store) :
  roulette_events s `prefix_of` roulette_events (store_after (processValidated now batch) s).
Proof.
  unfold store_after.
  destruct (to_ingest s batch) as [|e0 l] eqn:Hti.
  - by rewrite (short_circuit_run now batch s Hti).
  - destruct (processValidated_cases now batch s) as (rs & s1 & q1 & Hres & Hrun);
      [by rewrite Hti|].
    cbv zeta in Hrun. rewrite Hrun.
    destruct (resolve_dimensions_effect now (uniqueTables (to_ingest s batch)) s)
      as (rs' & s1' & q1' & Hres' & _ & Hev & _).
    rewrite Hres in Hres'. injection Hres' as _ <- _.
    destruct rs as [cr|e]; [|cbn [fst snd]; by rewrite Hev].
    destruct (build_rows _ _) as [rows|e]; [|cbn [fst snd]; by rewrite Hev].
    cbn [fst snd roulette_events]. rewrite <- Hev.
    apply (bulk_fold_spec now rows (roulette_events s1) (roulette_events_id_seq s1)).
Qed.

Lemma processValidated_extends (now : Z) (batch : list RouletteEvent) (s : store) :
  extends s (store_after (processValidated now batch) s).
Proof.
  split; [apply processValidated_casino|apply processValidated_events].
Qed.

(** After a run that returned, every to-ingest event has a fact row under
    its [data.id]. *)
Lemma stored_after_success (now : Z) (batch : list RouletteEvent) (s : store)
    (p : processed_result) (e : RouletteEvent) :
  returned (processValidated now batch) s = Ok p →
  e ∈ to_ingest s batch →
  d_id (data e) ∈ map re_event_id (roulette_events (store_after (processValidated now batch) s)).
Proof.
  intros Hret He.
  destruct (processValidated_Ok now batch s p Hret)
    as (cr & s1 & q1 & rows & Hres & Hrows & Hrun).
  { intros Hnil. rewrite Hnil in He. by apply elem_of_nil in He. }
  unfold store_after. rewrite Hrun. cbn [fst snd roulette_events].
  destruct (bulk_fold_spec now rows (roulette_events s1) (roulette_events_id_seq s1))
    as (_ & _ & Hin & _).
  apply build_rows_Ok in Hrows.
  apply list_elem_of_lookup in He as [i Hi].
  destruct (Forall2_lookup_l _ _ _ _ _ Hrows Hi) as (r & Hr & id & _ & _ & ->).
  apply (Hin (row_for e id)). apply list_elem_of_lookup. by exists i.
Qed.

(** A run whose to-ingest events are all stored already leaves the fact
    table as it is, whether it returns or fails. *)
Lemma run_on_stored_events (now : Z) (batch : list RouletteEvent) (s : store) :
  (∀ e, e ∈ to_ingest s batch → d_id (data e) ∈ map re_event_id (roulette_events s)) →
  roulette_events (store_after (processValidated now batch) s) = roulette_events s
  ∧ (returned (processValidated now batch) s
       = Ok (mkProcessed (length (to_ingest s batch)))
     ∨ ∃ e, returned (processValidated now batch) s = Err e).
Proof.
  intros Hstored. unfold store_after, returned.
  destruct (to_ingest s batch) as [|e0 l] eqn:Hti.
  - rewrite (short_circuit_run now batch s Hti). split; [done|by left].
  - rewrite <- Hti in *.
    destruct (processValidated_cases now batch s) as (rs & s1 & q1 & Hres & Hrun);
      [by rewrite Hti|].
    cbv zeta in Hrun. rewrite Hrun.
    destruct (resolve_dimensions_effect now (uniqueTables (to_ingest s batch)) s)
      as (rs' & s1' & q1' & Hres' & _ & Hev & _).
    rewrite Hres in Hres'. injection Hres' as _ <- _.
    destruct rs as [cr|e]; [|split; [done|right; by exists e]].
    destruct (build_rows _ _) as [rows|e] eqn:Hrows; [|split; [done|right; by exists e]].
    cbn [fst snd roulette_events]. split; [|by left].
    rewrite <- Hev.
    apply (bulk_fold_spec now rows (roulette_events s1) (roulette_events_id_seq s1)).
    intros r Hr. rewrite Hev.
    assert (event_id r ∈ map event_id rows) as Hin
      by (apply list_elem_of_fmap; by exists r).
    rewrite (rows_event_ids _ _ _ Hrows) in Hin.
    apply list_elem_of_fmap in Hin as (e & -> & He). by apply Hstored.
Qed.

Lemma fact_ids_stay_unique (now : Z) (batch : list RouletteEvent) (s : store) :
  unique_event_ids s →
  unique_event_ids (store_after (processValidated now batch) s).
Proof.
  intros Huniq. unfold store_after, unique_event_ids in *.
  destruct (to_ingest s batch) as [|e0 l] eqn:Hti.
  - by rewrite (short_circuit_run now batch s Hti).
  - destruct (processValidated_cases now batch s) as (rs & s1 & q1 & Hres & Hrun);
      [by rewrite Hti|].
    cbv zeta in Hrun. rewrite Hrun.
    destruct (resolve_dimensions_effect now (uniqueTables (to_ingest s batch)) s)
      as (rs' & s1' & q1' & Hres' & _ & Hev & _).
    rewrite Hres in Hres'. injection Hres' as _ <- _.
    destruct rs as [cr|e]; [|cbn [fst snd]; by rewrite Hev].
    destruct (build_rows _ _) as [rows|e]; [|cbn [fst snd]; by rewrite Hev].
    cbn [fst snd roulette_events].
    apply (bulk_fold_spec now rows (roulette_events s1) (roulette_events_id_seq s1)).
    by rewrite Hev.
Qed.

(** When every pair has its row, the dimension step reads only. *)
Lemma resolve_all_found (now : Z) (pairs : list (string * string)) (s : store) :
  (∀ p, p ∈ pairs → ∃ c cs, List.filter (casino_matches p.1 p.2) (casino s) = c :: cs) →
  ∃ results q,
    Promise_all (get_or_create now) pairs s = (Ok results, s, q)
    ∧ Forall2 (fun p v => resolved_as s p (Ok v)) pairs results.
Proof.
  intros Hall.
  assert (∃ results q,
            traverse (fun p => settle (get_or_create now p)) pairs s
              = (Ok (map Ok results), s, q)
            ∧ Forall2 (fun p v => resolved_as s p (Ok v)) pairs results)
    as (results & q & Htrav & Hres).
  { induction pairs as [|[t n] pairs IH].
    - exists [], []. split; [done|constructor].
    - destruct IH as (results & q & Htrav & Hres).
      { intros p Hp. apply Hall. by right. }
      destruct (Hall (t, n)) as (c & cs & Hf); [left|]. cbn [fst snd] in Hf.
      exists ((t, c_id c) :: results), ([QSelectCasino t n] ++ q).
      split.
      + cbn [traverse]. unfold bind at 1, settle at 1.
        rewrite get_or_create_run, Hf. unfold bind at 1. rewrite Htrav. cbn.
        by rewrite app_nil_r.
      + constructor; [|done]. cbn. split; [done|]. by exists c, cs. }
  exists results, q. split; [|done].
  unfold Promise_all. rewrite (bind_Ok _ _ _ _ _ _ Htrav), all_settled_Ok. cbn.
  by rewrite app_nil_r.
Qed.

Lemma pair_in_uniqueTables (l : list RouletteEvent) (t n : string) :
  (t, n) ∈ uniqueTables l → ∃ e, e ∈ l ∧ pair_of e = (t, n).
Proof.
  intros (i & e & Hi & Hp & _)%uniqueTables_first.
  exists e. split; [|done]. apply list_elem_of_lookup. by exists i.
Qed.

Lemma to_ingest_in_batch (s : store) (batch : list RouletteEvent) (e : RouletteEvent) :
  e ∈ to_ingest s batch → e ∈ batch.
Proof. unfold to_ingest. rewrite resolvedEvents_spec. by intros [? _]. Qed.

(** With one display name per partition id, the second run finds every
    dimension it needs and returns. *)
Lemma second_run_returns
    (now1 now2 : Z) (batch : list RouletteEvent) (s : store) (p1 : processed_result) :
  returned (processValidated now1 batch) s = Ok p1 →
  one_name_per_partition batch →
  let s1 := store_after (processValidated now1 batch) s in
  returned (processValidated now2 batch) s1
  = Ok (mkProcessed (length (to_ingest s1 batch))).
Proof.
  intros Hret Hone s1.
  pose proof (processValidated_extends now1 batch s) as Hext. fold s1 in Hext.
  assert (∀ e, e ∈ to_ingest s1 batch → e ∈ to_ingest s batch) as Hsub.
  { intros e. by apply to_ingest_mono. }
  destruct (to_ingest s1 batch) as [|e0 l] eqn:Hti.
  { unfold returned. by rewrite (short_circuit_run now2 batch s1 Hti). }
  rewrite <- Hti in *.
  assert (e0 ∈ to_ingest s batch) as He0 by (apply Hsub; rewrite Hti; left).
  destruct (processValidated_Ok now1 batch s p1 Hret)
    as (cr1 & sa & q1 & rows1 & Hres1 & Hrows1 & Hrun1).
  { intros Hnil. rewrite Hnil in He0. by apply elem_of_nil in He0. }
  assert (casino s1 = casino sa) as Hcas.
  { unfold s1, store_after. by rewrite Hrun1. }
  destruct (resolve_dimensions_Ok _ _ _ _ _ _ Hres1) as (Hkeys1 & _ & _ & _ & _ & _ & Hfirst1).
  destruct (uniqueTables_keys (to_ingest s batch)) as [Hnd1 Hk1].
  destruct (uniqueTables_keys (to_ingest s1 batch)) as [Hnd2 Hk2].
  (* the pairs of the second run are pairs of the first *)
  assert (∀ t n, (t, n) ∈ uniqueTables (to_ingest s1 batch) →
                 (t, n) ∈ uniqueTables (to_ingest s batch)) as Hpairs.
  { intros t n (e & He & Hp)%pair_in_uniqueTables.
    assert (t ∈ map fst (uniqueTables (to_ingest s batch))) as Ht.
    { apply Hk1. exists e. split; [by apply Hsub|]. unfold partition_of.
      by injection Hp as <- _. }
    apply list_elem_of_fmap in Ht as ([t' n'] & Ht' & Hin). cbn in Ht'. subst t'.
    destruct (pair_in_uniqueTables _ _ _ Hin) as (e' & He' & Hp').
    assert (pair_of e = pair_of e') as Heq.
    { apply Hone; [by eapply to_ingest_in_batch|by eapply to_ingest_in_batch|].
      unfold partition_of. injection Hp as -> _. by injection Hp' as -> _. }
    rewrite Hp, Hp' in Heq. by injection Heq as ->. }
  (* each of them was resolved by the first run to its first matching row *)
  assert (∀ t n, (t, n) ∈ uniqueTables (to_ingest s batch) →
                 ∃ c cs, List.filter (casino_matches t n) (casino s1) = c :: cs
                         ∧ (t, c_id c) ∈ cr1) as Hrow.
  { intros t n Hin. apply list_elem_of_lookup in Hin as [i Hi].
    destruct (Forall2_lookup_l _ _ _ _ _ Hfirst1 Hi) as ([t' id] & Hv & Ht' & c & cs & Hf & Hid).
    cbn in Ht', Hf. subst t' id. exists c, cs. rewrite Hcas. split; [done|].
    apply list_elem_of_lookup. by exists i. }
  destruct (resolve_all_found now2 (uniqueTables (to_ingest s1 batch)) s1)
    as (cr2 & q2 & Hres2 & Hfirst2).
  { intros [t n] Hp. destruct (Hrow t n (Hpairs t n Hp)) as (c & cs & Hf & _).
    by exists c, cs. }
  destruct (resolve_dimensions_Ok _ _ _ _ _ _ Hres2) as (Hkeys2 & _).
  (* the caches of the two runs agree on the partitions of the second *)
  assert (∀ e, e ∈ to_ingest s1 batch →
               ∃ id, casinoCache cr2 !! partition_of e = Some id ∧ id ≠ 0) as Hcache.
  { intros e He.
    assert (partition_of e ∈ map fst cr2) as Hin2.
    { rewrite Hkeys2. apply Hk2. by exists e. }
    destruct (casinoCache_is_Some _ _ Hin2) as [id2 Hid2]. exists id2. split; [done|].
    apply casinoCache_lookup in Hid2.
    apply list_elem_of_lookup in Hid2 as [j Hj].
    destruct (Forall2_lookup_r _ _ _ _ _ Hfirst2 Hj) as ([t n] & Hpj & Ht & c2 & cs2 & Hf2 & Hidc2).
    cbn in Ht, Hf2. subst t.
    assert ((partition_of e, n) ∈ uniqueTables (to_ingest s1 batch)) as Hp2
      by (apply list_elem_of_lookup; by exists j).
    destruct (Hrow _ _ (Hpairs _ _ Hp2)) as (c1 & cs1 & Hf1 & Hin1).
    assert (c1 = c2) as -> by congruence.
    apply build_rows_Ok in Hrows1.
    assert (e ∈ to_ingest s batch) as He1 by by apply Hsub.
    apply list_elem_of_lookup in He1 as [i Hi].
    destruct (Forall2_lookup_l _ _ _ _ _ Hrows1 Hi) as (r & _ & id1 & Hid1 & Hne & _).
    apply casinoCache_lookup in Hid1.
    assert ((partition_of e, id1) = (partition_of e, c_id c2)) as Heq.
    { eapply (NoDup_map_eq fst); [|exact Hid1|exact Hin1|done].
      by rewrite Hkeys1. }
    injection Heq as Heq. cbn in Hidc2. congruence. }
  destruct (build_rows_total _ _ Hcache) as (rows2 & Hrows2 & _).
  destruct (processValidated_cases now2 batch s1) as (rs & sb & qb & Hres2' & Hrun2).
  { by rewrite Hti. }
  rewrite Hres2 in Hres2'. injection Hres2' as <- <- <-.
  cbv zeta in Hrun2. unfold returned. by rewrite Hrun2, Hrows2.
Qed.

(** C3, as the code has it. On the store a first run that returned has left,
    a second run on the same payload changes no fact row: the fact table is
    the same list, hence of the same length, and no second row exists for an
    external event id. Its to-ingest set is part of the first run's. It
    returns [processed], the size of that set (>= 0), whenever each partition
    id of the payload comes with one display name; otherwise it may instead
    fail, with the facts untouched all the same. *)
Theorem second_run_adds_no_fact
    (now1 now2 : Z) (batch : list RouletteEvent) (s : store) (p1 : processed_result) :
  returned (processValidated now1 batch) s = Ok p1 →
  let s1 := store_after (processValidated now1 batch) s in
  let s2 := store_after (processValidated now2 batch) s1 in
  roulette_events s2 = roulette_events s1
  ∧ length (roulette_events s2) = length (roulette_events s1)
  ∧ (unique_event_ids s → unique_event_ids s2)
  ∧ (∀ e, e ∈ to_ingest s1 batch → e ∈ to_ingest s batch)
  ∧ (returned (processValidated now2 batch) s1
       = Ok (mkProcessed (length (to_ingest s1 batch)))
     ∨ ∃ e, returned (processValidated now2 batch) s1 = Err e)
  ∧ (one_name_per_partition batch →
     returned (processValidated now2 batch) s1
       = Ok (mkProcessed (length (to_ingest s1 batch)))
     ∧ (0 ≤ length (to_ingest s1 batch))%nat).
Proof.
  intros Hret s1 s2.
  pose proof (processValidated_extends now1 batch s) as Hext. fold s1 in Hext.
  assert (∀ e, e ∈ to_ingest s1 batch → e ∈ to_ingest s batch) as Hsub.
  { intros e. by apply to_ingest_mono. }
  destruct (run_on_stored_events now2 batch s1) as [Hev Hres].
  { intros e He. apply (stored_after_success now1 batch s p1); [done|]. by apply Hsub. }
  fold s2 in Hev. split_and!; try done.
  - by rewrite Hev.
  - intros Huniq. unfold unique_event_ids. rewrite Hev.
    by apply fact_ids_stay_unique.
  - intros Hone. split; [by apply (second_run_returns now1 now2 batch s p1)|lia].
Qed.

Lemma second_run_adds_no_fact_witness :
  roulette_events
    (store_after (processValidated 1762737100000 [ev1; ev2])
       (store_after (processValidated 1762736900000 [ev1; ev2]) empty_store))
  = roulette_events (store_after (processValidated 1762736900000 [ev1; ev2]) empty_store)
  ∧ returned (processValidated 1762737100000 [ev1; ev2])
      (store_after (processValidated 1762736900000 [ev1; ev2]) empty_store)
    = Ok (mkProcessed 0).
Proof.
  pose proof (second_run_adds_no_fact 1762736900000 1762737100000 [ev1; ev2]
                empty_store (mkProcessed 1)) as H.
  destruct H as (Hsame & _ & _ & _ & _ & Hret).
  { vm_compute. reflexivity. }
  split; [exact Hsame|].
  destruct Hret as [Hret _]; [|exact Hret].
  intros e1 e2 H1 H2 _.
  apply elem_of_cons in H1 as [->|H1]; [|apply list_elem_of_singleton in H1 as ->];
    (apply elem_of_cons in H2 as [->|H2]; [|apply list_elem_of_singleton in H2 as ->]);
    reflexivity.
Defined.

(** C3, as stated, fails: the same payload, run twice from the empty store.
    The first run returns [{processed: 2}]; the second admits the later
    report only, looks its dimension up under the other display name, and
    the insert that follows hits [UNIQUE (table_id)]: no count is returned. *)
Lemma second_run_can_fail :
  returned (processValidated 1762737000000 [ev1; ev5]) empty_store
    = Ok (mkProcessed 2)
  ∧ returned (processValidated 1762737100000 [ev1; ev5])
      (store_after (processValidated 1762737000000 [ev1; ev5]) empty_store)
    = Err (UniqueViolation "casino_table_id_key").
Proof. split; vm_compute; reflexivity. Qed.

(** ** Validation *)

Lemma z_literal_Some (values : list string) (input : option json) (v : string) :
  z_literal values input = Some v → input = Some (JStr v) ∧ v ∈ values.
Proof.
  unfold z_literal. destruct input as [[| | |s| |]|]; try done.
  case_bool_decide; [|done]. by intros [= <-].
Qed.

Lemma z_object_Some {A} (shape : list (string * json) -> option A)
    (input : option json) (a : A) :
  z_object shape input = Some a → ∃ fields, input = Some (JObj fields) ∧ shape fields = Some a.
Proof.
  unfold z_object. destruct input as [[| | | | |fields]|]; try done.
  intros H. by exists fields.
Qed.

(** An event the schema accepts has its parity and colour among the listed
    literals, at the place the schema reads them. *)
Lemma accepted_event_enums (coerce_date : json -> option Z) (item : json)
    (e : RouletteEvent) :
  RouletteEventSchema coerce_date (Some item) = Some e →
  at_path ["data"; "result"; "outcome"; "type"] item
    = Some (JStr (o_type (outcome (result (data e)))))
  ∧ o_type (outcome (result (data e))) ∈ ["Even"; "Odd"]
  ∧ at_path ["data"; "result"; "outcome"; "color"] item
    = Some (JStr (o_color (outcome (result (data e)))))
  ∧ o_color (outcome (result (data e))) ∈ ["Red"; "Black"; "Green"].
Proof.
  intros H. unfold RouletteEventSchema in H.
  apply z_object_Some in H as (f0 & [= ->] & H).
  apply bind_Some in H as (id & _ & H).
  apply bind_Some in H as (d & Hd & [= <-]).
  unfold RouletteDataSchema in Hd.
  apply z_object_Some in Hd as (f1 & Hf1 & Hd).
  do 6 (apply bind_Some in Hd as (? & _ & Hd)).
  apply bind_Some in Hd as (res & Hres & [= <-]).
  unfold RouletteResultSchema in Hres.
  apply z_object_Some in Hres as (f2 & Hf2 & Hres).
  apply bind_Some in Hres as (o & Ho & Hres).
  apply bind_Some in Hres as (lucky & _ & [= <-]).
  unfold RouletteOutcomeSchema in Ho.
  apply z_object_Some in Ho as (f3 & Hf3 & Ho).
  apply bind_Some in Ho as (number & _ & Ho).
  apply bind_Some in Ho as (type & Htype & Ho).
  apply bind_Some in Ho as (color & Hcolor & [= <-]).
  apply z_literal_Some in Htype as [Htype Htin].
  apply z_literal_Some in Hcolor as [Hcolor Hcin].
  cbn [at_path data result outcome o_type o_color].
  rewrite Hf1, Hf2, Hf3, Htype, Hcolor. done.
Qed.

Lemma parse_rejects_bad_element (coerce_date : json -> option Z) (items : list json)
    (item : json) :
  item ∈ items →
  RouletteEventSchema coerce_date (Some item) = None →
  parse coerce_date (JArr items) = Err ZodError.
Proof.
  intros Hin Hbad. unfold parse, RouletteEventsArraySchema, z_array.
  rewrite (mapM_None_2 (fun item => RouletteEventSchema coerce_date (Some item)) items); [done|].
  apply Exists_exists. by exists item.
Qed.

Lemma parse_rejects_non_array (coerce_date : json -> option Z) (payload : json) :
  (∀ items, payload ≠ JArr items) → parse coerce_date payload = Err ZodError.
Proof.
  intros Hna. unfold parse, RouletteEventsArraySchema, z_array.
  destruct payload; try done. by destruct (Hna items).
Qed.

Lemma processRouletteData_rejected (coerce_date : json -> option Z) (now : Z)
    (r : response) (s : store) :
  resp_ok r = true →
  parse coerce_date (resp_json r) = Err ZodError →
  processRouletteData coerce_date now r s
  = (Err ZodError, s, [QCreateTables; QLogError ZodError "processRouletteData"]).
Proof.
  intros Hok Hparse.
  unfold processRouletteData, logged, try_catch, bind, createTables, fetchRouletteData.
  rewrite Hok. cbn [negb]. unfold ret at 1. rewrite Hparse. reflexivity.
Qed.

Lemma ret_bind {A B} (a : A) (f : A -> M B) (s : store) : bind (ret a) f s = f a s.
Proof. unfold bind, ret. by destruct (f a s) as [[? ?] ?]. Qed.

Lemma logged_ext {A} (context : string) (m m' : M A) (s : store) :
  m s = m' s → logged context m s = logged context m' s.
Proof. intros H. unfold logged, try_catch. by rewrite H. Qed.

Lemma processRouletteData_validated (coerce_date : json -> option Z) (now : Z)
    (r : response) (validatedFields : list RouletteEvent) (s : store) :
  resp_ok r = true →
  parse coerce_date (resp_json r) = Ok validatedFields →
  processRouletteData coerce_date now r s = processValidated now validatedFields s.
Proof.
  intros Hok Hparse.
  unfold processRouletteData, processValidated.
  apply logged_ext, bind_ext. intros _ s0.
  unfold fetchRouletteData. rewrite Hok. cbn [negb].
  rewrite ret_bind, Hparse. cbn [lift]. by rewrite ret_bind.
Qed.

(** C7. For every parsed payload the upstream hands over: when it is not an
    array, or one of its elements has a parity that is not "Even" or "Odd", a
    colour that is not "Red", "Black" or "Green", or any other departure from
    the event schema, [parse] throws for the whole batch; the run ends with
    that error, the store is exactly as before (no dimension, no fact), and
    the only statements sent are the table creation and the error log. *)
Theorem invalid_payload_rejected
    (coerce_date : json -> option Z) (now : Z) (r : response) (s : store) :
  resp_ok r = true →
  (∀ items, resp_json r ≠ JArr items)
  ∨ (∃ items item,
       resp_json r = JArr items ∧ item ∈ items
       ∧ (outside ["Even"; "Odd"] (at_path ["data"; "result"; "outcome"; "type"] item)
          ∨ outside ["Red"; "Black"; "Green"]
                    (at_path ["data"; "result"; "outcome"; "color"] item)
          ∨ RouletteEventSchema coerce_date (Some item) = None)) →
  parse coerce_date (resp_json r) = Err ZodError
  ∧ processRouletteData coerce_date now r s
    = (Err ZodError, s, [QCreateTables; QLogError ZodError "processRouletteData"]).
Proof.
  intros Hok Hbad.
  assert (parse coerce_date (resp_json r) = Err ZodError) as Hparse.
  { destruct Hbad as [Hna|(items & item & -> & Hin & Hbad)].
    - by apply parse_rejects_non_array.
    - apply (parse_rejects_bad_element _ _ item Hin).
      destruct (RouletteEventSchema coerce_date (Some item)) as [e|] eqn:He; [|done].
      exfalso.
      destruct (accepted_event_enums _ _ _ He) as (Ht & Htin & Hc & Hcin).
      destruct Hbad as [Hbad|[Hbad|Hbad]]; [by apply (Hbad _ Ht)|by apply (Hbad _ Hc)|done]. }
  split; [done|]. by apply processRouletteData_rejected.
Qed.

Lemma invalid_payload_rejected_witness :
  processRouletteData iso_utc 1762736900000
    (ok_response (JArr [sample_event "Black"; sample_event "Blue"])) empty_store
  = (Err ZodError, empty_store, [QCreateTables; QLogError ZodError "processRouletteData"]).
Proof.
  apply (invalid_payload_rejected iso_utc 1762736900000
           (ok_response (JArr [sample_event "Black"; sample_event "Blue"])) empty_store).
  - reflexivity.
  - right. exists [sample_event "Black"; sample_event "Blue"], (sample_event "Blue").
    split; [reflexivity|]. split; [right; left|].
    right. left. intros v Hv. vm_compute in Hv. injection Hv as <-.
    intros Hin. repeat (apply elem_of_cons in Hin as [Hin|Hin]; [discriminate Hin|]).
    by apply elem_of_nil in Hin.
Defined.

(** ** The retention pruner *)

(** Three calendar months, not ninety days: from 2025-11-10 the cutoff is
    2025-08-10, ninety-two days earlier, and a day the target month lacks
    carries over into the next one. *)
Example threeMonthsAgo_november :
  threeMonthsAgo 1762736870000
  = MakeDate (days_from_civil 2025 8 10) (1 * 3600000 + 7 * 60000 + 50 * 1000)
  ∧ 1762736870000 - threeMonthsAgo 1762736870000 = 92 * msPerDay.
Proof. split; vm_compute; reflexivity. Qed.

Example threeMonthsAgo_end_of_may :
  threeMonthsAgo (MakeDate (days_from_civil 2025 5 31) 0)
  = MakeDate (days_from_civil 2025 3 3) 0.
Proof. vm_compute. reflexivity. Qed.

Lemma filter_negb_length {A} (P : A -> bool) (l : list A) :
  (length (List.filter P l) + length (List.filter (fun x => negb (P x)) l) = length l)%nat.
Proof. induction l as [|x l IH]; cbn; [done|]. destruct (P x); cbn; lia. Qed.

(** X18. What every variant that reaches the database does to the store, and
    what the request-triggered variant returns: the facts created before the
    cut-off are removed and no other, the rest keep their order, the
    dimension table and its sequence are untouched, and the count returned
    is the number of facts removed. *)
Lemma prune_deletes_exactly_old (now : Z) (s : store) :
  let cutoff := threeMonthsAgo now in
  let s' := store_after (Route.cleanupOldRouletteEvents now) s in
  store_after (Script.cleanupOldRouletteEvents now) s = s'
  ∧ casino s' = casino s
  ∧ casino_id_seq s' = casino_id_seq s
  ∧ roulette_events s' `sublist_of` roulette_events s
  ∧ (∀ r, r ∈ roulette_events s' ↔ r ∈ roulette_events s ∧ ¬ re_created_at r < cutoff)
  ∧ returned (Route.cleanupOldRouletteEvents now) s
    = Ok (mkDeleted (length (roulette_events s) - length (roulette_events s'))).
Proof.
  cbv zeta. unfold store_after, returned.
  rewrite Route_cleanup_run, Script_cleanup_run. cbn [fst snd casino roulette_events casino_id_seq].
  split_and!; try done.
  - induction (roulette_events s) as [|r l IH]; cbn; [constructor|].
    destruct (is_old _ r); cbn; by constructor.
  - intros r. rewrite list_elem_of_In, filter_In, <- list_elem_of_In.
    unfold is_old. rewrite negb_true_iff, Z.ltb_nlt. done.
  - do 2 f_equal.
    pose proof (filter_negb_length (is_old (threeMonthsAgo now)) (roulette_events s)). lia.
Qed.

(** C6 on the spec's retention scenario, now = 2025-11-10T01:07:50Z, one fact
    four months old and one a month old. The request-triggered variant
    removes the old fact and returns [{deleted: 1}]. The script variants that
    reach the database remove the same fact and return [{deleted: 0}], the
    length of the empty array a [DELETE] without [RETURNING] resolves to. The
    [.js] script removes nothing: it throws on the unbound [sql]. *)
Theorem script_prune_miscounts :
  let now := 1762736870000 in
  returned (Route.cleanupOldRouletteEvents now) retention_store = Ok (mkDeleted 1)
  ∧ roulette_events (store_after (Route.cleanupOldRouletteEvents now) retention_store)
    = [young_fact]
  ∧ returned (Script.cleanupOldRouletteEvents now) retention_store = Ok (mkDeleted 0)
  ∧ roulette_events (store_after (Script.cleanupOldRouletteEvents now) retention_store)
    = [young_fact]
  ∧ returned (ScriptJs.cleanupOldRouletteEvents now) retention_store
    = Err (ReferenceError "sql")
  ∧ store_after (ScriptJs.cleanupOldRouletteEvents now) retention_store = retention_store.
Proof. cbv zeta. split_and!; vm_compute; reflexivity. Qed.

(** ** The scenarios of the specification, and the variants *)

(** One resolved event of table "204" on an empty store: [{processed: 1}],
    one dimension row for "204" and one fact row that references it. *)
Example scenario_first_event :
  let '(r, s, _) := processRouletteData iso_utc 1762736900000
                      (ok_response (JArr [sample_event "Black"])) empty_store in
  r = Ok (mkProcessed 1)
  ∧ map (fun c => (c_id c, c_table_id c)) (casino s) = [(1, "204")]
  ∧ map (fun f => (re_outcome_number f, re_outcome_type f, re_outcome_color f,
                   re_casino_id f))
        (roulette_events s)
    = [(35, "Odd", "Black", Some 1)].
Proof. vm_compute. done. Qed.

(** A pending event next to a resolved one: only the resolved one counts and
    is stored. *)
Example scenario_pending_dropped :
  let '(r, s, _) := processValidated 1762736900000 [ev2; ev1] empty_store in
  r = Ok (mkProcessed 1)
  ∧ map re_event_id (roulette_events s) = [d_id (data ev1)].
Proof. vm_compute. done. Qed.

(** The per-partition watermark admits an older round of another table; the
    single watermark of the older handler drops it. *)
Example legacy_watermark_is_global :
  admitted (watermarks store_with_ev1 [ev6]) ev6 = true
  ∧ returned Legacy.select_max_settled store_with_ev1 = Ok (Some (settledAt (data ev1)))
  ∧ Legacy.admitted (Some (settledAt (data ev1))) ev6 = false.
Proof. split_and!; vm_compute; reflexivity. Qed.

(** The script's own schema takes a colour the shared schema refuses. *)
Example widened_schema_accepts_any_colour :
  let o := Some (JObj [("number", JNum 35); ("type", JStr "Odd"); ("color", JStr "Blue")]) in
  RouletteOutcomeSchema o = None
  ∧ Widened.RouletteOutcomeSchema o = Some (mkOutcome 35 "Odd" "Blue").
Proof. split; vm_compute; reflexivity. Qed.

(** * Further properties *)

(** ** The cutoff of the pruner *)

(** The two calendar conversions are inverse to each other on day numbers. *)
Lemma civil_round_trip (z : Z) :
  let '(y, m, d) := civil_from_days z in
  days_from_civil y m d = z ∧ 1 ≤ m ≤ 12 ∧ 1 ≤ d ≤ 31.
Proof.
  unfold civil_from_days, days_from_civil. cbv zeta.
  set (z' := z + 719468).
  set (era := z' / 146097).
  set (doe := z' - era * 146097).
  assert (0 ≤ doe < 146097) as Hdoe
    by (unfold doe, era; Z.to_euclidean_division_equations; lia).
  set (yoe := (doe - doe / 1460 + doe / 36524 - doe / 146096) / 365).
  assert (0 ≤ yoe < 400) as Hyoe by (unfold yoe; Z.to_euclidean_division_equations; lia).
  set (doy := doe - (365 * yoe + yoe / 4 - yoe / 100)).
  assert (0 ≤ doy < 366) as Hdoy
    by (unfold doy, yoe; Z.to_euclidean_division_equations; lia).
  set (mp := (5 * doy + 2) / 153).
  assert (0 ≤ mp < 12) as Hmp by (unfold mp; Z.to_euclidean_division_equations; lia).
  set (d := doy - (153 * mp + 2) / 5 + 1).
  assert (1 ≤ d ≤ 31) as Hd by (unfold d, mp; Z.to_euclidean_division_equations; lia).
  destruct (Z.ltb_spec mp 10) as [Hlt|Hge].
  - replace (mp + 3 <=? 2) with false by (symmetry; apply Z.leb_gt; lia).
    replace (2 <? mp + 3) with true by (symmetry; apply Z.ltb_lt; lia).
    replace ((yoe + era * 400) / 400) with era
      by (Z.to_euclidean_division_equations; lia).
    split; [|lia]. unfold d, doy, doe, z'. Z.to_euclidean_division_equations; lia.
  - replace (mp - 9 <=? 2) with true by (symmetry; apply Z.leb_le; lia).
    replace (2 <? mp - 9) with false by (symmetry; apply Z.ltb_ge; lia).
    replace ((yoe + era * 400 + 1 - 1) / 400) with era
      by (Z.to_euclidean_division_equations; lia).
    split; [|lia]. unfold d, doy, doe, z'. Z.to_euclidean_division_equations; lia.
Qed.

(** Going three months back from a day of month [m] is going 89 to 92 days
    back, whatever the year. *)
Lemma three_months_in_days (y m d : Z) :
  1 ≤ m ≤ 12 →
  89 ≤ days_from_civil y m d - MakeDay y (m - 1 - 3) d ≤ 92.
Proof.
  intros Hm. unfold MakeDay.
  assert (m = 1 ∨ m = 2 ∨ m = 3 ∨ m = 4 ∨ m = 5 ∨ m = 6 ∨ m = 7 ∨ m = 8 ∨ m = 9
          ∨ m = 10 ∨ m = 11 ∨ m = 12) as Hcases by lia.
  repeat (destruct Hcases as [->|Hcases]); try subst m;
    repeat match goal with
           | |- context [?a / 12] =>
               let v := eval vm_compute in (a / 12) in change (a / 12) with v
           | |- context [?a mod 12] =>
               let v := eval vm_compute in (a mod 12) in change (a mod 12) with v
           end;
    repeat match goal with
           | |- context [days_from_civil ?a (?b + 1) ?c] =>
               let v := eval vm_compute in (b + 1) in change (b + 1) with v
           end;
    unfold days_from_civil; cbn -[Z.add Z.sub Z.mul Z.div Z.modulo];
    Z.to_euclidean_division_equations; lia.
Qed.

Lemma cutoff_in_days (now : Z) :
  89 * msPerDay ≤ now - threeMonthsAgo now ≤ 92 * msPerDay.
Proof.
  unfold threeMonthsAgo, setMonth, getMonth, MonthFromTime, YearFromTime, DateFromTime,
    MakeDate.
  pose proof (civil_round_trip (Day now)) as Hrt.
  destruct (civil_from_days (Day now)) as [[y m] d]. cbn [fst snd].
  destruct Hrt as (Hday & Hm & Hd).
  pose proof (three_months_in_days y m d Hm) as Hw. rewrite Hday in Hw.
  unfold TimeWithinDay, Day, msPerDay in *.
  Z.to_euclidean_division_equations; lia.
Qed.

(** X1. Whatever the current time, the cutoff [threeMonthsAgo] lies at least
    89 and at most 92 whole days before it, at the same time of day: the
    pruner never reaches a fact younger than 89 days and never spares one
    older than 92 days, in every variant that reaches the database. *)
Theorem prune_cutoff_window (now : Z) (s : store) :
  89 * msPerDay ≤ now - threeMonthsAgo now ≤ 92 * msPerDay
  ∧ TimeWithinDay (threeMonthsAgo now) = TimeWithinDay now
  ∧ (∀ r, r ∈ roulette_events s → now - 89 * msPerDay ≤ re_created_at r →
          r ∈ roulette_events (store_after (Route.cleanupOldRouletteEvents now) s))
  ∧ (∀ r, r ∈ roulette_events (store_after (Route.cleanupOldRouletteEvents now) s) →
          now - 92 * msPerDay ≤ re_created_at r)
  ∧ store_after (Script.cleanupOldRouletteEvents now) s
    = store_after (Route.cleanupOldRouletteEvents now) s.
Proof.
  pose proof (cutoff_in_days now) as Hw.
  split; [done|]. split.
  { unfold threeMonthsAgo, setMonth, MakeDate, TimeWithinDay, msPerDay.
    Z.to_euclidean_division_equations; lia. }
  unfold store_after. rewrite Route_cleanup_run, Script_cleanup_run. cbn [fst snd roulette_events].
  split_and!; [| |done].
  - intros r Hr Hyoung. apply list_elem_of_In, filter_In.
    split; [by apply list_elem_of_In|]. unfold is_old.
    apply negb_true_iff, Z.ltb_ge. lia.
  - intros r [_ Hkeep]%list_elem_of_In%filter_In. unfold is_old in Hkeep.
    apply negb_true_iff, Z.ltb_ge in Hkeep. lia.
Qed.

(** ** The bulk insert, row by row *)

Lemma insert_event_row_unfold (now : Z) (rs : list event_row) (seq : Z) (r : event_data) :
  insert_event_row now (rs, seq) r
  = if has_event_id (event_id r) rs then (rs, seq + 1)
    else (rs ++ [stored_row seq now r], seq + 1).
Proof. reflexivity. Qed.

Lemma bulk_fold_seq (now : Z) (rows : list event_data) (rs : list event_row) (seq : Z) :
  (fold_left (insert_event_row now) rows (rs, seq)).2 = seq + Z.of_nat (length rows).
Proof.
  revert rs seq. induction rows as [|r rows IH]; intros rs seq; cbn [fold_left length].
  - cbn. lia.
  - rewrite insert_event_row_unfold.
    destruct (has_event_id _ _); rewrite IH; lia.
Qed.

Lemma bulk_fold_new (now : Z) (rows : list event_data) (rs : list event_row) (seq : Z)
    (x : event_row) :
  x ∈ (fold_left (insert_event_row now) rows (rs, seq)).1 →
  x ∈ rs ∨ ∃ r id, r ∈ rows ∧ seq ≤ id < seq + Z.of_nat (length rows)
                   ∧ x = stored_row id now r.
Proof.
  revert rs seq. induction rows as [|r rows IH]; intros rs seq; cbn [fold_left length].
  - by left.
  - rewrite insert_event_row_unfold. destruct (has_event_id _ _).
    + intros [H|(r' & id & Hr' & Hid & Hx)]%IH; [by left|].
      right. exists r', id. split; [by right|]. split; [lia|done].
    + intros [H|(r' & id & Hr' & Hid & Hx)]%IH.
      * apply elem_of_app in H as [H| ->%list_elem_of_singleton]; [by left|].
        right. exists r, seq. split; [left|]. split; [lia|done].
      * right. exists r', id. split; [by right|]. split; [lia|done].
Qed.

Lemma bulk_fold_row_ids (now : Z) (rows : list event_data) (rs : list event_row) (seq : Z) :
  NoDup (map re_id rs) →
  (∀ x, x ∈ rs → re_id x < seq) →
  NoDup (map re_id (fold_left (insert_event_row now) rows (rs, seq)).1)
  ∧ (∀ x, x ∈ (fold_left (insert_event_row now) rows (rs, seq)).1 →
          re_id x < seq + Z.of_nat (length rows)).
Proof.
  revert rs seq. induction rows as [|r rows IH]; intros rs seq Hnd Hlt; cbn [fold_left length].
  - split; [done|]. intros x Hx. specialize (Hlt x Hx). cbn. lia.
  - rewrite insert_event_row_unfold. destruct (has_event_id _ _).
    + destruct (IH rs (seq + 1)) as [H1 H2]; [done|intros x Hx; specialize (Hlt x Hx); lia|].
      split; [done|]. intros x Hx. specialize (H2 x Hx). lia.
    + destruct (IH (rs ++ [stored_row seq now r]) (seq + 1)) as [H1 H2].
      * rewrite map_app. cbn. apply NoDup_app. split_and!; [done| |apply NoDup_singleton].
        intros id Hid ->%list_elem_of_singleton.
        apply list_elem_of_fmap in Hid as (x & Hid & Hx). specialize (Hlt x Hx). lia.
      * intros x [Hx| ->%list_elem_of_singleton]%elem_of_app; [specialize (Hlt x Hx); lia|].
        cbn. lia.
      * split; [done|]. intros x Hx. specialize (H2 x Hx). lia.
Qed.

Lemma bulk_fold_length (now : Z) (rows : list event_data) (rs : list event_row) (seq : Z) :
  (length (fold_left (insert_event_row now) rows (rs, seq)).1 ≤ length rs + length rows)%nat
  ∧ (NoDup (map event_id rows) →
     (∀ r, r ∈ rows → event_id r ∉ map re_event_id rs) →
     length (fold_left (insert_event_row now) rows (rs, seq)).1
     = (length rs + length rows)%nat).
Proof.
  revert rs seq. induction rows as [|r rows IH]; intros rs seq; cbn [fold_left length].
  - cbn. split; [lia|]. intros _ _. lia.
  - rewrite insert_event_row_unfold. destruct (has_event_id _ _) eqn:Hhas.
    + destruct (IH rs (seq + 1)) as [H1 _]. split; [lia|].
      intros _ Hfresh. exfalso. apply (Hfresh r); [left|]. by apply has_event_id_spec.
    + destruct (IH (rs ++ [stored_row seq now r]) (seq + 1)) as [H1 H2].
      rewrite length_app in H1, H2. cbn in H1, H2. split; [lia|].
      intros [Hr Hnd]%NoDup_cons Hfresh. rewrite H2; [lia|done|].
      intros r' Hr'. rewrite map_app, elem_of_app. cbn.
      intros [Hin|Hin%list_elem_of_singleton].
      * apply (Hfresh r'); [by right|done].
      * apply Hr. rewrite <- Hin. apply list_elem_of_fmap. by exists r'.
Qed.

Lemma bulk_fold_keeps (now : Z) (rows : list event_data) (rs : list event_row) (seq : Z)
    (x : event_row) :
  x ∈ rs → x ∈ (fold_left (insert_event_row now) rows (rs, seq)).1.
Proof.
  intros Hx.
  destruct (bulk_fold_spec now rows rs seq) as ([k Hk] & _). cbv zeta in Hk.
  rewrite Hk. apply elem_of_app. by left.
Qed.

(** A built row whose id is neither stored nor carried by an earlier row of
    the statement is written. *)
Lemma bulk_fold_fresh (now : Z) (rows : list event_data) (rs : list event_row) (seq : Z)
    (i : nat) (r : event_data) :
  rows !! i = Some r →
  event_id r ∉ map re_event_id rs →
  (∀ j r', (j < i)%nat → rows !! j = Some r' → event_id r' ≠ event_id r) →
  stored_row (seq + Z.of_nat i) now r ∈ (fold_left (insert_event_row now) rows (rs, seq)).1.
Proof.
  revert rs seq i. induction rows as [|r0 rows IH]; intros rs seq i Hi Hfresh Hfirst;
    [done|].
  cbn [fold_left]. rewrite insert_event_row_unfold.
  destruct i as [|i].
  - injection Hi as ->.
    destruct (has_event_id _ _) eqn:Hhas.
    { exfalso. apply Hfresh. by apply has_event_id_spec. }
    apply bulk_fold_keeps. rewrite Z.add_0_r. apply elem_of_app. right. left.
  - cbn in Hi.
    assert (event_id r0 ≠ event_id r) as Hne by (apply (Hfirst 0%nat); [lia|done]).
    assert (∀ j r', (j < i)%nat → rows !! j = Some r' → event_id r' ≠ event_id r) as Hfirst'.
    { intros j r' Hj Hr'. apply (Hfirst (S j)); [lia|done]. }
    replace (seq + Z.of_nat (S i)) with (seq + 1 + Z.of_nat i) by lia.
    destruct (has_event_id _ _); apply IH; try done.
    rewrite map_app, elem_of_app. cbn. intros [H|H%list_elem_of_singleton]; [done|].
    by apply Hne.
Qed.

(** Where the facts of the store a run leaves come from: they were there, or
    they are the rows built for to-ingest events, dated [now], numbered from
    the sequence, pointing to a dimension row of the event's partition. *)
Lemma facts_after_run (now : Z) (batch : list RouletteEvent) (s : store) (x : event_row) :
  x ∈ roulette_events (store_after (processValidated now batch) s) →
  x ∈ roulette_events s
  ∨ ∃ e id cid c,
      e ∈ to_ingest s batch
      ∧ roulette_events_id_seq s ≤ id
      ∧ x = stored_row id now (row_for e cid)
      ∧ cid ≠ 0
      ∧ c ∈ casino (store_after (processValidated now batch) s)
      ∧ c_id c = cid ∧ c_table_id c = partition_of e.
Proof.
  unfold store_after.
  destruct (to_ingest s batch) as [|e0 l] eqn:Hti.
  { rewrite (short_circuit_run now batch s Hti). by left. }
  destruct (processValidated_cases now batch s) as (rs & s1 & q1 & Hres & Hrun);
    [by rewrite Hti|].
  cbv zeta in Hrun. rewrite Hrun. rewrite <- Hti in *. clear Hti.
  destruct (resolve_dimensions_effect now (uniqueTables (to_ingest s batch)) s)
    as (rs' & s1' & q1' & Hres' & _ & Hev & Hseq & _).
  rewrite Hres in Hres'. injection Hres' as Hrs <- _.
  destruct rs as [cr|e]; [|cbn [fst snd]; rewrite Hev; by left].
  destruct (build_rows _ _) as [rows|e] eqn:Hrows; [|cbn [fst snd]; rewrite Hev; by left].
  cbn [fst snd roulette_events casino]. unfold bulk.
  intros [Hx|(r & id & Hr & Hid & ->)]%bulk_fold_new; [rewrite <- Hev; by left|].
  right. apply build_rows_Ok in Hrows.
  apply list_elem_of_lookup in Hr as [i Hi].
  destruct (Forall2_lookup_r _ _ _ _ _ Hrows Hi) as (e & He & cid & Hcid & Hne & ->).
  apply casinoCache_lookup in Hcid.
  destruct (resolve_dimensions_Ok _ _ _ _ _ _ Hres) as (_ & Hdim & _).
  destruct (Hdim _ _ Hcid) as (c & Hc & Hcid' & Ht).
  exists e, id, cid, c. split_and!; try done.
  - apply list_elem_of_lookup. by exists i.
  - lia.
Qed.

(** ** Consistency of the store through runs *)

Lemma get_or_create_casino_ok (now : Z) (p : string * string) (s : store) :
  casino_ok s → casino_ok (store_after (get_or_create now p) s).
Proof.
  intros (Huniq & Hnd & Hb & Hpos). destruct p as [t n].
  unfold store_after. rewrite get_or_create_run.
  destruct (List.filter _ _) as [|c cs]; [|done].
  destruct (has_table_id t (casino s)) eqn:Hhas; cbn [fst snd].
  - split_and!; cbn; try done; [|lia]. intros c Hc. specialize (Hb c Hc). lia.
  - unfold casino_ok, unique_table_ids. cbn [casino casino_id_seq].
    rewrite !map_app. cbn [map c_id c_table_id]. split_and!.
    + apply NoDup_app. split_and!; [done| |apply NoDup_singleton].
      intros x Hx ->%list_elem_of_singleton. apply has_table_id_spec in Hx. congruence.
    + apply NoDup_app. split_and!; [done| |apply NoDup_singleton].
      intros x Hx ->%list_elem_of_singleton.
      apply list_elem_of_fmap in Hx as (c & Hid & Hc). specialize (Hb c Hc). lia.
    + intros c [Hc| ->%list_elem_of_singleton]%elem_of_app; [specialize (Hb c Hc); lia|].
      cbn. lia.
    + lia.
Qed.

Lemma resolve_all_casino_ok (now : Z) (pairs : list (string * string)) (s : store) :
  casino_ok s →
  casino_ok (store_after (traverse (fun p => settle (get_or_create now p)) pairs) s).
Proof.
  revert s. induction pairs as [|p pairs IH]; intros s Hok; [done|].
  pose proof (get_or_create_casino_ok now p s Hok) as H1.
  unfold store_after in *. cbn [traverse]. unfold bind at 1, settle at 1.
  destruct (get_or_create now p s) as [[r s1] q1]. cbn [fst snd] in H1.
  specialize (IH s1 H1). unfold bind at 1.
  destruct (traverse _ pairs s1) as [[[rs|e] s2] q2]; cbn in *; done.
Qed.

Lemma Promise_all_casino_ok (now : Z) (pairs : list (string * string)) (s : store) :
  casino_ok s → casino_ok (store_after (Promise_all (get_or_create now) pairs) s).
Proof.
  intros Hok. pose proof (resolve_all_casino_ok now pairs s Hok) as H.
  unfold store_after, Promise_all, bind in *.
  destruct (traverse _ pairs s) as [[[rs|e] s1] q1]; [|done].
  cbn [fst snd] in H. by destruct (all_settled rs).
Qed.

Lemma NoDup_map_filter {A B} (f : A -> B) (P : A -> bool) (l : list A) :
  NoDup (map f l) → NoDup (map f (List.filter P l)).
Proof.
  induction l as [|x l IH]; cbn; [done|].
  intros [Hx Hnd]%NoDup_cons. destruct (P x); cbn; [|by apply IH].
  apply NoDup_cons. split; [|by apply IH].
  intros Hin. apply Hx. apply list_elem_of_fmap in Hin as (y & -> & Hy).
  apply list_elem_of_fmap. exists y. split; [done|].
  apply list_elem_of_In, filter_In in Hy as [Hy _]. by apply list_elem_of_In.
Qed.

Lemma processValidated_store_ok (now : Z) (batch : list RouletteEvent) (s : store) :
  store_ok s → store_ok (store_after (processValidated now batch) s).
Proof.
  intros [Hc (Hue & Hnd & Hb & Hfk)].
  pose proof (fact_ids_stay_unique now batch s Hue) as Hue'.
  pose proof (processValidated_casino now batch s) as [Hpre _].
  pose proof (facts_after_run now batch s) as Hfacts.
  assert (casino_ok (store_after (processValidated now batch) s)
          ∧ NoDup (map re_id (roulette_events (store_after (processValidated now batch) s)))
          ∧ ∀ r, r ∈ roulette_events (store_after (processValidated now batch) s) →
                 re_id r < roulette_events_id_seq (store_after (processValidated now batch) s))
    as (Hc' & Hnd' & Hb').
  { unfold store_after.
    destruct (to_ingest s batch) as [|e0 l] eqn:Hti.
    { by rewrite (short_circuit_run now batch s Hti). }
    destruct (processValidated_cases now batch s) as (rs & s1 & q1 & Hres & Hrun);
      [by rewrite Hti|].
    cbv zeta in Hrun. rewrite Hrun.
    pose proof (Promise_all_casino_ok now (uniqueTables (to_ingest s batch)) s Hc) as Hc1.
    unfold store_after in Hc1. rewrite Hres in Hc1. cbn [fst snd] in Hc1.
    destruct (resolve_dimensions_effect now (uniqueTables (to_ingest s batch)) s)
      as (rs' & s1' & q1' & Hres' & _ & Hev & Hseq & _).
    rewrite Hres in Hres'. injection Hres' as _ <- _.
    destruct rs as [cr|e]; [|cbn [fst snd]; by rewrite Hev, Hseq].
    destruct (build_rows _ _) as [rows|e]; [|cbn [fst snd]; by rewrite Hev, Hseq].
    cbn [fst snd roulette_events roulette_events_id_seq]. split; [done|].
    unfold bulk. rewrite bulk_fold_seq.
    apply bulk_fold_row_ids; by rewrite ?Hev, ?Hseq. }
  split; [done|]. split_and!; try done.
  intros r id Hr Hid. destruct (Hfacts r Hr) as [Hold|(e & i & cid & c & _ & _ & -> & _ & Hcin & Hcid & _)].
  - destruct (Hfk r id Hold Hid) as (c & Hcin & Hcid). exists c. split; [|done].
    destruct Hpre as [k ->]. apply elem_of_app. by left.
  - cbn in Hid. injection Hid as <-. by exists c.
Qed.

Lemma prune_store_ok (now : Z) (s : store) :
  store_ok s → store_ok (store_after (Route.cleanupOldRouletteEvents now) s).
Proof.
  intros [Hc (Hue & Hnd & Hb & Hfk)].
  unfold store_after. rewrite Route_cleanup_run. cbn [fst snd].
  split; [done|]. unfold facts_ok, unique_event_ids. cbn [roulette_events casino roulette_events_id_seq].
  split_and!.
  - by apply NoDup_map_filter.
  - by apply NoDup_map_filter.
  - intros r [Hr _]%list_elem_of_In%filter_In. by apply Hb, list_elem_of_In.
  - intros r id [Hr _]%list_elem_of_In%filter_In. by apply Hfk, list_elem_of_In.
Qed.

(** X2. The constraints of the schema are kept by every run and every
    pruning, whether it returns or fails: [table_id] and [event_id] stay
    unique, the primary keys stay distinct, positive for dimensions and
    behind their sequences, and every fact that names a dimension names one
    that exists. The empty store has them, so every store the jobs can
    build has them. *)
Theorem store_constraints_kept (s s' : store) :
  store_ok s → jobs s s' → store_ok s'.
Proof.
  intros Hok Hjobs. induction Hjobs as [s|s s1 s2 Hjob _ IH]; [done|].
  apply IH. destruct Hjob as [now batch s|now s].
  - by apply processValidated_store_ok.
  - by apply prune_store_ok.
Qed.

Lemma empty_store_ok : store_ok empty_store.
Proof.
  split; [split_and!|split_and!]; try apply NoDup_nil_2; try done.
  - intros c Hc. by apply elem_of_nil in Hc.
  - intros r Hr. by apply elem_of_nil in Hr.
  - intros r id Hr. by apply elem_of_nil in Hr.
Qed.

Lemma store_constraints_kept_witness :
  store_ok (store_after (Route.cleanupOldRouletteEvents 1772736900000)
              (store_after (processValidated 1762736900000 [ev1; ev3; ev6]) empty_store)).
Proof.
  apply (store_constraints_kept empty_store); [exact empty_store_ok|].
  eapply rtc_l; [apply job_ingest|]. eapply rtc_l; [apply job_prune|]. apply rtc_refl.
Defined.

(** ** How a run ends *)







(** ** The watermark over successive runs *)

Lemma ingestions_extend (s s' : store) : ingestions s s' → extends s s'.
Proof.
  induction 1 as [s|s s1 s2 Hstep _ IH]; [done|].
  destruct Hstep as [now batch s].
  pose proof (processValidated_extends now batch s) as [H1 H2].
  destruct IH as [H3 H4]. split; by etrans.
Qed.

(** X4. Once a run has written the fact of a to-ingest event (its [data.id]
    was not stored and no earlier to-ingest event carried it), no later
    ingestion run, on any batch and after any number of runs in between,
    admits an event of the same partition settled at or before it. *)
Theorem watermark_blocks_older_events
    (now : Z) (batch : list RouletteEvent) (s : store) (p : processed_result)
    (i : nat) (e : RouletteEvent) :
  returned (processValidated now batch) s = Ok p →
  to_ingest s batch !! i = Some e →
  d_id (data e) ∉ map re_event_id (roulette_events s) →
  (∀ j e', (j < i)%nat → to_ingest s batch !! j = Some e' →
           d_id (data e') ≠ d_id (data e)) →
  ∀ s2 batch2 e',
    ingestions (store_after (processValidated now batch) s) s2 →
    partition_of e' = partition_of e →
    settledAt (data e') ≤ settledAt (data e) →
    e' ∉ to_ingest s2 batch2.
Proof.
  intros Hret Hi Hfresh Hfirst s2 batch2 e' Hruns Hpart Hle Hin.
  destruct (processValidated_Ok now batch s p Hret)
    as (cr & s1 & q1 & rows & Hres & Hrows & Hrun).
  { intros Hnil. by rewrite Hnil in Hi. }
  destruct (resolve_dimensions_Ok _ _ _ _ _ _ Hres) as (_ & Hdim & _ & Hev & _).
  apply build_rows_Ok in Hrows.
  destruct (Forall2_lookup_l _ _ _ _ _ Hrows Hi) as (r & Hr & cid & Hcid & _ & ->).
  (* the fact of [e] is in the store the run leaves *)
  assert (stored_row (roulette_events_id_seq s1 + Z.of_nat i) now (row_for e cid)
            ∈ roulette_events (store_after (processValidated now batch) s)) as Hx.
  { unfold store_after. rewrite Hrun. cbn [fst snd roulette_events]. unfold bulk.
    apply bulk_fold_fresh; [done|by rewrite Hev|].
    intros j r' Hj Hr'.
    destruct (Forall2_lookup_r _ _ _ _ _ Hrows Hr') as (ej & Hej & cj & _ & _ & ->).
    cbn. by apply (Hfirst j). }
  apply casinoCache_lookup in Hcid. destruct (Hdim _ _ Hcid) as (c & Hc & Hcid' & Ht).
  set (x := stored_row (roulette_events_id_seq s1 + Z.of_nat i) now (row_for e cid)) in *.
  assert (belongs (store_after (processValidated now batch) s) (partition_of e) x) as Hb.
  { split; [done|]. exists c. split; [|by rewrite Hcid'].
    unfold store_after. by rewrite Hrun. }
  apply (belongs_mono _ s2) in Hb; [|by apply ingestions_extend].
  (* so the watermark of the partition is at least its settlement time *)
  unfold to_ingest in Hin. apply resolvedEvents_spec in Hin as (Hin & _ & Hw).
  rewrite watermarks_lookup, bool_decide_eq_true_2 in Hw.
  2:{ apply uniqueTableIds_spec. by exists e'. }
  rewrite Hpart in Hw.
  destruct Hw as [Hnone|(w & Hsome & Hlt)].
  - by apply (proj1 (select_max_none s2 (partition_of e)) Hnone x).
  - apply select_max_latest in Hsome as [_ Hall]. specialize (Hall x Hb). cbn in Hall. lia.
Qed.

Lemma watermark_blocks_older_events_witness :
  ev1 ∉ to_ingest
          (store_after (processValidated 1762737100000 [ev4])
             (store_after (processValidated 1762736900000 [ev1]) empty_store))
          [ev1; ev4].
Proof.
  apply (watermark_blocks_older_events 1762736900000 [ev1] empty_store (mkProcessed 1)
           0%nat ev1).
  - vm_compute. reflexivity.
  - vm_compute. reflexivity.
  - apply not_elem_of_nil.
  - intros j e' Hj. lia.
  - eapply rtc_l; [apply ingestion_run|]. apply rtc_refl.
  - reflexivity.
  - lia.
Defined.

(** ** Counting *)

Lemma get_or_create_growth (now : Z) (p : string * string) (s : store) :
  (length (casino (store_after (get_or_create now p) s)) ≤ S (length (casino s)))%nat.
Proof.
  destruct p as [t n]. unfold store_after. rewrite get_or_create_run.
  destruct (List.filter _ _); [destruct (has_table_id _ _)|]; cbn; rewrite ?length_app; cbn; lia.
Qed.

Lemma resolve_all_growth (now : Z) (pairs : list (string * string)) (s : store) :
  (length (casino (store_after (traverse (fun p => settle (get_or_create now p)) pairs) s))
   ≤ length (casino s) + length pairs)%nat.
Proof.
  revert s. induction pairs as [|p pairs IH]; intros s; [cbn; lia|].
  pose proof (get_or_create_growth now p s) as H1.
  unfold store_after in *. cbn [traverse]. unfold bind at 1, settle at 1.
  destruct (get_or_create now p s) as [[r s1] q1]. cbn [fst snd] in H1.
  specialize (IH s1). unfold bind at 1.
  destruct (traverse _ pairs s1) as [[[rs|e] s2] q2]; cbn in *; lia.
Qed.

Lemma filter_length_le_weaker {A} (P Q : A -> bool) (l : list A) :
  (∀ x, P x = true → Q x = true) →
  (length (List.filter P l) ≤ length (List.filter Q l))%nat.
Proof.
  intros Himp. induction l as [|x l IH]; cbn; [lia|].
  destruct (P x) eqn:HP.
  - rewrite (Himp x HP). cbn. lia.
  - destruct (Q x); cbn; lia.
Qed.

(** X5. What [processed] counts, for a run that returns: the to-ingest
    events, never more than the batch's events of status "Resolved". The fact
    table grows by at most that number, and by exactly that number when the
    to-ingest events carry pairwise different [data.id]s none of which is
    stored. The dimension table grows by at most one row per distinct
    partition id of the to-ingest set. Nothing is ever removed. *)
Theorem processed_counts_attempts
    (now : Z) (batch : list RouletteEvent) (s : store) (p : processed_result) :
  returned (processValidated now batch) s = Ok p →
  let s' := store_after (processValidated now batch) s in
  processed p = length (to_ingest s batch)
  ∧ (processed p
     ≤ length (List.filter (fun e => bool_decide (status (data e) = "Resolved")) batch)
     ≤ length batch)%nat
  ∧ (length (roulette_events s) ≤ length (roulette_events s')
     ≤ length (roulette_events s) + processed p)%nat
  ∧ (NoDup (map (fun e => d_id (data e)) (to_ingest s batch)) →
     (∀ e, e ∈ to_ingest s batch → d_id (data e) ∉ map re_event_id (roulette_events s)) →
     length (roulette_events s') = (length (roulette_events s) + processed p)%nat)
  ∧ (length (casino s) ≤ length (casino s')
     ≤ length (casino s) + length (uniqueTables (to_ingest s batch)))%nat.
Proof.
  intros Hret s'.
  assert ((length (to_ingest s batch)
           ≤ length (List.filter (fun e => bool_decide (status (data e) = "Resolved")) batch)
           ≤ length batch)%nat) as Hcount.
  { split; [|apply List.filter_length_le].
    apply filter_length_le_weaker. intros e [Hst _]%admitted_spec.
    by apply bool_decide_eq_true. }
  pose proof (processValidated_extends now batch s) as [[kc Hkc] [ke Hke]].
  fold s' in Hkc, Hke.
  destruct (to_ingest s batch) as [|e0 l] eqn:Hti.
  { unfold s', store_after. unfold returned in Hret.
    rewrite (short_circuit_run now batch s Hti) in *. cbn in *. injection Hret as <-.
    cbn. split_and!; try done; lia. }
  rewrite <- Hti in *.
  destruct (processValidated_Ok now batch s p Hret)
    as (cr & s1 & q1 & rows & Hres & Hrows & Hrun); [by rewrite Hti|].
  destruct (resolve_dimensions_Ok _ _ _ _ _ _ Hres) as (_ & _ & _ & Hev & _).
  assert (processed p = length (to_ingest s batch)) as Hp.
  { unfold returned in Hret. rewrite Hrun in Hret. by injection Hret as <-. }
  assert (length rows = length (to_ingest s batch)) as Hlen.
  { apply build_rows_Ok, Forall2_length in Hrows. done. }
  assert (roulette_events s' = (bulk now rows s1).1) as Hs'.
  { unfold s', store_after. by rewrite Hrun. }
  destruct (bulk_fold_length now rows (roulette_events s1) (roulette_events_id_seq s1))
    as [Hle Heq].
  fold (bulk now rows s1) in Hle, Heq. rewrite <- Hs', Hev in Hle, Heq.
  split_and!; try done; try lia.
  - rewrite Hke, length_app. lia.
  - intros Hnd Hfresh. rewrite Heq; [lia| |].
    + by rewrite (rows_event_ids _ _ _ Hrows).
    + intros r Hr.
      assert (event_id r ∈ map event_id rows) as Hin
        by (apply list_elem_of_fmap; by exists r).
      rewrite (rows_event_ids _ _ _ Hrows) in Hin.
      apply list_elem_of_fmap in Hin as (e & -> & He). by apply Hfresh.
  - rewrite Hkc, length_app. lia.
  - pose proof (resolve_all_growth now (uniqueTables (to_ingest s batch)) s) as Hg.
    assert (casino s' = casino s1) as -> by (unfold s', store_after; by rewrite Hrun).
    unfold store_after, Promise_all, bind in Hg, Hres.
    destruct (traverse _ _ s) as [[[rs|e] sa] qa]; [|done].
    destruct (all_settled rs); [|done]. cbn in Hres. injection Hres as _ <- _. done.
Qed.

Lemma processed_counts_attempts_witness :
  length (roulette_events (store_after (processValidated 1762736900000 [ev2; ev1; ev4])
                             empty_store))
  = (length (roulette_events empty_store) + 2)%nat.
Proof.
  pose proof (processed_counts_attempts 1762736900000 [ev2; ev1; ev4] empty_store
                (mkProcessed 2)) as H.
  destruct H as (_ & _ & _ & Heq & _).
  { vm_compute. reflexivity. }
  apply Heq.
  - vm_compute. repeat constructor; not_in_list.
  - intros e _. apply not_elem_of_nil.
Defined.

(** ** Runs that fail *)

Lemma processValidated_Err (now : Z) (batch : list RouletteEvent) (s : store) (e : error) :
  returned (processValidated now batch) s = Err e →
  (e = uv ∨ e = InvalidFields)
  ∧ roulette_events (store_after (processValidated now batch) s) = roulette_events s
  ∧ ∃ q1, Forall dimension_statement q1
          ∧ issued (processValidated now batch) s
            = (QCreateTables :: map QSelectMaxSettled (uniqueTableIds batch))
                ++ q1 ++ [QLogError e "processRouletteData"].
Proof.
  unfold returned, store_after, issued.
  destruct (to_ingest s batch) as [|e0 l] eqn:Hti.
  { by rewrite (short_circuit_run now batch s Hti). }
  destruct (processValidated_cases now batch s) as (rs & s1 & q1 & Hres & Hrun);
    [by rewrite Hti|].
  cbv zeta in Hrun. rewrite Hrun.
  destruct (resolve_dimensions_effect now (uniqueTables (to_ingest s batch)) s)
    as (rs' & s1' & q1' & Hres' & _ & Hev & _ & _ & _ & Hfor & Hq1).
  rewrite Hres in Hres'. injection Hres' as Hrs <- <-.
  destruct rs as [cr|e1].
  - destruct (build_rows _ _) as [rows|e1] eqn:Hrows; [done|].
    cbn [fst snd]. intros [= ->]. split_and!; [|done|by exists q1].
    right. by eapply build_rows_Err.
  - cbn [fst snd]. intros [= ->]. split_and!; [|done|by exists q1].
    left. symmetry in Hrs. apply all_settled_inv_Err in Hrs.
    apply list_elem_of_lookup in Hrs as [i Hi].
    by destruct (Forall2_lookup_r _ _ _ _ _ Hfor Hi) as (p & _ & Hp).
Qed.



(** ** From the payload to the fact table *)

Lemma z_string_Some (input : option json) (v : string) :
  z_string input = Some v → input = Some (JStr v).
Proof. destruct input as [[| | |s| |]|]; try done. by intros [= <-]. Qed.

Lemma z_number_Some (input : option json) (v : Z) :
  z_number input = Some v → input = Some (JNum v).
Proof. destruct input as [[| |n| | |]|]; try done. by intros [= <-]. Qed.

Lemma z_coerce_date_Some (coerce_date : json -> option Z) (input : option json) (v : Z) :
  z_coerce_date coerce_date input = Some v → ∃ j, input = Some j ∧ coerce_date j = Some v.
Proof. destruct input as [j|]; [|done]. intros H. by exists j. Qed.

Lemma accepted_event_fields (coerce_date : json -> option Z) (item : json)
    (e : RouletteEvent) :
  RouletteEventSchema coerce_date (Some item) = Some e → read_from coerce_date item e.
Proof.
  intros H. unfold RouletteEventSchema in H.
  apply z_object_Some in H as (f0 & [= ->] & H).
  apply bind_Some in H as (id & Hid%z_string_Some & H).
  apply bind_Some in H as (d & Hd & [= <-]).
  unfold RouletteDataSchema in Hd.
  apply z_object_Some in Hd as (f1 & Hf1 & Hd).
  apply bind_Some in Hd as (did & Hdid%z_string_Some & Hd).
  apply bind_Some in Hd as (st & (j1 & Hj1 & Hst)%z_coerce_date_Some & Hd).
  apply bind_Some in Hd as (se & (j2 & Hj2 & Hse)%z_coerce_date_Some & Hd).
  apply bind_Some in Hd as (sta & Hsta%z_string_Some & Hd).
  apply bind_Some in Hd as (gt & Hgt%z_string_Some & Hd).
  apply bind_Some in Hd as (tb & Htb & Hd).
  apply bind_Some in Hd as (res & Hres & [= <-]).
  unfold RouletteTableSchema in Htb.
  apply z_object_Some in Htb as (ft & Hft & Htb).
  apply bind_Some in Htb as (tid & Htid%z_string_Some & Htb).
  apply bind_Some in Htb as (tname & Htname%z_string_Some & [= <-]).
  unfold RouletteResultSchema in Hres.
  apply z_object_Some in Hres as (f2 & Hf2 & Hres).
  apply bind_Some in Hres as (o & Ho & Hres).
  apply bind_Some in Hres as (lucky & _ & [= <-]).
  unfold RouletteOutcomeSchema in Ho.
  apply z_object_Some in Ho as (f3 & Hf3 & Ho).
  apply bind_Some in Ho as (number & Hnumber%z_number_Some & Ho).
  apply bind_Some in Ho as (type & [Htype _]%z_literal_Some & Ho).
  apply bind_Some in Ho as (color & [Hcolor _]%z_literal_Some & [= <-]).
  unfold read_from. cbn [at_path e_id data d_id startedAt settledAt status gameType table
                           t_id t_name result outcome o_number o_type o_color].
  rewrite Hid, Hf1, Hdid, Hj1, Hj2, Hsta, Hgt, Hft, Htid, Htname, Hf2, Hf3, Hnumber, Htype,
    Hcolor.
  split_and!; try done; [by exists j1|by exists j2].
Qed.

Lemma parse_Ok (coerce_date : json -> option Z) (payload : json) (v : list RouletteEvent) :
  parse coerce_date payload = Ok v →
  ∃ items, payload = JArr items
           ∧ Forall2 (fun item e => RouletteEventSchema coerce_date (Some item) = Some e)
                     items v.
Proof.
  unfold parse, RouletteEventsArraySchema, z_array.
  destruct payload as [| | | |items|]; try done.
  destruct (mapM _ items) as [v'|] eqn:Hm; [|done].
  intros [= <-]. exists items. split; [done|].
  by apply mapM_Some in Hm.
Qed.

(** X7. A payload the schema accepts is an array, and the validated batch is
    that array read element by element, in order and in full: as many events
    as elements, and the i-th event carries the values the i-th element has
    under [id], [data.id], [data.status], [data.gameType], [data.table],
    [data.result.outcome], with the two dates coerced; its parity and colour
    are among the schema's literals. *)
Theorem accepted_payload_read_in_order
    (coerce_date : json -> option Z) (payload : json) (v : list RouletteEvent) :
  parse coerce_date payload = Ok v →
  ∃ items, payload = JArr items
           ∧ length v = length items
           ∧ (∀ i item, items !! i = Some item →
                ∃ e, v !! i = Some e ∧ read_from coerce_date item e
                     ∧ o_type (outcome (result (data e))) ∈ ["Even"; "Odd"]
                     ∧ o_color (outcome (result (data e))) ∈ ["Red"; "Black"; "Green"]).
Proof.
  intros (items & -> & Hall)%parse_Ok. exists items. split; [done|].
  split; [symmetry; by eapply Forall2_length|].
  intros i item Hi.
  destruct (Forall2_lookup_l _ _ _ _ _ Hall Hi) as (e & He & Hacc).
  exists e. split; [done|]. split; [by apply accepted_event_fields|].
  by destruct (accepted_event_enums _ _ _ Hacc) as (_ & ? & _ & ?).
Qed.

Lemma accepted_payload_read_in_order_witness :
  ∃ items, JArr [sample_event "Black"] = JArr items ∧ length sample_batch = length items.
Proof.
  destruct (accepted_payload_read_in_order iso_utc (JArr [sample_event "Black"]) sample_batch)
    as (items & Hp & Hlen & _); [vm_compute; reflexivity|].
  by exists items.
Defined.

Lemma processRouletteData_http_error (coerce_date : json -> option Z) (now : Z)
    (r : response) (s : store) :
  resp_ok r = false →
  processRouletteData coerce_date now r s
  = (Err (HttpError (resp_status r)), s,
     [QCreateTables; QLogError (HttpError (resp_status r)) "processRouletteData"]).
Proof.
  intros Hok.
  unfold processRouletteData, logged, try_catch, bind, createTables, fetchRouletteData.
  rewrite Hok. reflexivity.
Qed.

(** X8. Every fact a run adds comes from an element of the payload: the
    upstream answered with success, the payload is an array, and the new row
    holds what one of its elements, of status "Resolved", has under
    [data.id], [data.startedAt], [data.settledAt] and [data.result.outcome];
    its parity and colour are among the schema's literals; it is dated [now],
    numbered from the sequence, and refers to a stored dimension row of the
    element's [data.table.id]. *)
Theorem stored_fact_from_payload
    (coerce_date : json -> option Z) (now : Z) (r : response) (s : store) (x : event_row) :
  let s' := store_after (processRouletteData coerce_date now r) s in
  x ∈ roulette_events s' →
  x ∉ roulette_events s →
  ∃ items item e c,
    resp_ok r = true ∧ resp_json r = JArr items ∧ item ∈ items
    ∧ read_from coerce_date item e
    ∧ status (data e) = "Resolved"
    ∧ re_event_id x = d_id (data e)
    ∧ re_started_at x = startedAt (data e)
    ∧ re_settled_at x = settledAt (data e)
    ∧ re_outcome_number x = o_number (outcome (result (data e)))
    ∧ re_outcome_type x = o_type (outcome (result (data e)))
    ∧ re_outcome_color x = o_color (outcome (result (data e)))
    ∧ enum_ok x
    ∧ re_created_at x = now
    ∧ roulette_events_id_seq s ≤ re_id x
    ∧ re_casino_id x = Some (c_id c)
    ∧ c ∈ casino s'
    ∧ c_table_id c = t_id (table (data e)).
Proof.
  intros s' Hx Hnew. unfold s' in *. clear s'. unfold store_after in *.
  destruct (resp_ok r) eqn:Hok;
    [|by rewrite (processRouletteData_http_error _ _ _ _ Hok) in Hx].
  destruct (parse coerce_date (resp_json r)) as [v|e0] eqn:Hparse.
  - rewrite (processRouletteData_validated _ _ _ v s Hok Hparse) in *.
    destruct (facts_after_run now v s x Hx)
      as [?|(e & id & cid & c & He & Hid & -> & Hcid & Hc & Hcc & Hct)]; [done|].
    destruct (parse_Ok _ _ _ Hparse) as (items & Hitems & Hall).
    pose proof He as Hst. unfold to_ingest in Hst.
    apply resolvedEvents_spec in Hst as (Hin & Hst & _).
    apply list_elem_of_lookup in Hin as [i Hi].
    destruct (Forall2_lookup_r _ _ _ _ _ Hall Hi) as (item & Hitem & Hacc).
    destruct (accepted_event_enums _ _ _ Hacc) as (_ & Ht & _ & Hcol).
    exists items, item, e, c.
    split_and!; try done.
    + by eapply list_elem_of_lookup_2.
    + by apply accepted_event_fields.
    + cbn. by rewrite Hcc.
  - assert (e0 = ZodError) as ->.
    { unfold parse in Hparse. destruct (RouletteEventsArraySchema _ _); congruence. }
    by rewrite (processRouletteData_rejected _ _ _ s Hok Hparse) in Hx.
Qed.

Lemma stored_fact_from_payload_witness :
  ∃ items item e c,
    resp_json (ok_response (JArr [sample_event "Black"])) = JArr items ∧ item ∈ items
    ∧ read_from iso_utc item e
    ∧ c_table_id c = t_id (table (data e)).
Proof.
  destruct (stored_fact_from_payload iso_utc 1762736900000
              (ok_response (JArr [sample_event "Black"])) empty_store
              (mkEventRow 1 "6aa9bf20e0d68e7558b3c517" 1762736830000 1762736870000
                          35 "Odd" "Black" (Some 1) 1762736900000))
    as (items & item & e & c & _ & H1 & H2 & H3 & H4); [vm_compute; left|cbn; apply not_elem_of_nil|].
  exists items, item, e, c. split_and!; try done. apply H4.
Defined.

(** ** Pruning twice, and pruning after a run *)

Lemma filter_filter_comm {A} (P Q : A -> bool) (l : list A) :
  List.filter P (List.filter Q l) = List.filter Q (List.filter P l).
Proof.
  induction l as [|x l IH]; [done|]. cbn.
  destruct (P x) eqn:HP, (Q x) eqn:HQ; cbn; rewrite ?HP, ?HQ, ?IH; done.
Qed.

Lemma filter_all {A} (P : A -> bool) (l : list A) :
  (∀ x, x ∈ l → P x = true) → List.filter P l = l.
Proof.
  induction l as [|x l IH]; [done|]. intros H. cbn.
  rewrite (H x); [|left]. f_equal. apply IH. intros y Hy. apply H. by right.
Qed.

Lemma filter_none {A} (P : A -> bool) (l : list A) :
  (∀ x, x ∈ l → P x = false) → List.filter P l = [].
Proof.
  induction l as [|x l IH]; [done|]. intros H. cbn.
  rewrite (H x); [|left]. apply IH. intros y Hy. apply H. by right.
Qed.

(** The cut-off does not always move forward with the clock: at the end of
    May it is the 3rd of March, a day later the 1st of March. *)
Example threeMonthsAgo_not_monotone :
  let may31 := MakeDate (days_from_civil 2025 5 31) 0 in
  let june1 := MakeDate (days_from_civil 2025 6 1) 0 in
  may31 < june1
  ∧ threeMonthsAgo may31 = MakeDate (days_from_civil 2025 3 3) 0
  ∧ threeMonthsAgo june1 = MakeDate (days_from_civil 2025 3 1) 0.
Proof. vm_compute. done. Qed.

(** X9. Two prunings in a row: what is left are the facts not older than
    either cut-off, whichever pruning comes first; the two reported counts
    add up to the number of facts removed; and a pruning whose cut-off is not
    later than the previous one's removes nothing and reports 0, in
    particular a pruning repeated at the same time. *)
Theorem prunes_compose (now now' : Z) (s : store) :
  let s1 := store_after (Route.cleanupOldRouletteEvents now) s in
  let s2 := store_after (Route.cleanupOldRouletteEvents now') s1 in
  s2 = store_after (Route.cleanupOldRouletteEvents now)
         (store_after (Route.cleanupOldRouletteEvents now') s)
  ∧ (∀ r, r ∈ roulette_events s2
          ↔ r ∈ roulette_events s
            ∧ threeMonthsAgo now ≤ re_created_at r ∧ threeMonthsAgo now' ≤ re_created_at r)
  ∧ (∃ n1 n2, returned (Route.cleanupOldRouletteEvents now) s = Ok (mkDeleted n1)
              ∧ returned (Route.cleanupOldRouletteEvents now') s1 = Ok (mkDeleted n2)
              ∧ (n1 + n2 + length (roulette_events s2) = length (roulette_events s))%nat)
  ∧ (threeMonthsAgo now' ≤ threeMonthsAgo now →
     s2 = s1 ∧ returned (Route.cleanupOldRouletteEvents now') s1 = Ok (mkDeleted 0))
  ∧ store_after (Route.cleanupOldRouletteEvents now) s1 = s1.
Proof.
  cbv zeta. unfold store_after, returned.
  rewrite !Route_cleanup_run. cbn [fst snd casino roulette_events casino_id_seq roulette_events_id_seq].
  assert (∀ c c' : Z, c' ≤ c →
            ∀ x, x ∈ List.filter (fun r => negb (is_old c r)) (roulette_events s) →
                 is_old c' x = false) as Hyoung.
  { intros c c' Hc x [_ Hx]%list_elem_of_In%filter_In.
    unfold is_old in *. apply negb_true_iff, Z.ltb_ge in Hx. apply Z.ltb_ge. lia. }
  split_and!.
  - f_equal. apply filter_filter_comm.
  - intros r. rewrite list_elem_of_In, !filter_In, <- list_elem_of_In.
    unfold is_old. rewrite !negb_true_iff, !Z.ltb_ge. tauto.
  - eexists _, _. split; [done|]. split; [done|].
    pose proof (filter_negb_length (is_old (threeMonthsAgo now)) (roulette_events s)).
    pose proof (filter_negb_length (is_old (threeMonthsAgo now'))
                  (List.filter (fun r => negb (is_old (threeMonthsAgo now) r))
                     (roulette_events s))).
    lia.
  - intros Hle. rewrite (filter_none (is_old (threeMonthsAgo now'))) by (by apply Hyoung).
    rewrite (filter_all (fun r => negb (is_old (threeMonthsAgo now') r))); [done|].
    intros x Hx. by rewrite (Hyoung _ _ Hle x Hx).
  - rewrite (filter_all (fun r => negb (is_old (threeMonthsAgo now) r))
               (List.filter _ _)); [done|].
    intros x Hx. by rewrite (Hyoung _ _ (Z.le_refl _) x Hx).
Qed.



(** ** The loop of the older handler and the fan-out of the present one *)

Lemma traverse_cons_run {A B} (f : A -> M B) (x : A) (l : list A) (s : store) :
  traverse f (x :: l) s
  = match f x s with
    | (Ok y, s1, q1) =>
        let '(r, s2, q2) := traverse f l s1 in
        (match r with Ok ys => Ok (y :: ys) | Err e => Err e end, s2, q1 ++ q2)
    | (Err e, s1, q1) => (Err e, s1, q1)
    end.
Proof.
  cbn [traverse]. unfold bind at 1. destruct (f x s) as [[[y|e] s1] q1]; [|done].
  unfold bind. destruct (traverse f l s1) as [[[ys|e] s2] q2]; cbn; by rewrite ?app_nil_r.
Qed.






(** ** The older handler's filter *)

Lemma returned_bind_Ok {A B} (m : M A) (f : A -> M B) (s : store) (b : B) :
  returned (bind m f) s = Ok b →
  ∃ a, returned m s = Ok a ∧ returned (f a) (store_after m s) = Ok b.
Proof.
  unfold returned, store_after, bind.
  destruct (m s) as [[[a|e] s1] q1]; [|done]. cbn [fst snd].
  destruct (f a s1) as [[r s2] q2] eqn:Hf. cbn [fst snd]. intros ->.
  exists a. by rewrite Hf.
Qed.

Lemma issued_bind_in {A B} (m : M A) (f : A -> M B) (s : store) (q : query) :
  q ∈ issued (bind m f) s →
  q ∈ issued m s ∨ ∃ a, returned m s = Ok a ∧ q ∈ issued (f a) (store_after m s).
Proof.
  unfold returned, store_after, issued, bind.
  destruct (m s) as [[[a|e] s1] q1]; cbn [fst snd]; [|by left].
  destruct (f a s1) as [[r s2] q2] eqn:Hf. cbn [fst snd].
  intros [H|H]%elem_of_app; [by left|]. right. exists a. by rewrite Hf.
Qed.

Lemma try_catch_rethrow {A} (m : M A) (s : store) :
  try_catch m (fun e => throw e) s = m s.
Proof.
  unfold try_catch, throw. destruct (m s) as [[[a|e] s1] q1]; [done|].
  by rewrite app_nil_r.
Qed.

Lemma loop_statements (now : Z) (pairs : list (string * string)) (s : store) :
  Forall dimension_statement (issued (traverse (get_or_create now) pairs) s).
Proof.
  revert s. induction pairs as [|p pairs IH]; intros s; [constructor|].
  unfold issued in *. rewrite traverse_cons_run.
  destruct (get_or_create_effect now p s) as (r & s1 & q1 & Hrun & _ & _ & _ & _ & _ & _ & Hq1).
  rewrite Hrun. destruct r as [y|e]; [|done].
  specialize (IH s1). destruct (traverse _ pairs s1) as [[r s2] q2].
  cbn [fst snd] in *. by apply Forall_app.
Qed.

Lemma filter_sublist_weaker {A} (P Q : A -> bool) (l : list A) :
  (∀ x, P x = true → Q x = true) →
  List.filter P l `sublist_of` List.filter Q l.
Proof.
  intros H. induction l as [|x l IH]; cbn; [constructor|].
  destruct (P x) eqn:HP.
  - rewrite (H x HP). by constructor.
  - destruct (Q x); [by constructor|done].
Qed.

Lemma legacy_admitted_spec (s : store) (e : RouletteEvent) :
  Legacy.admitted (sql_max (map re_settled_at (roulette_events s))) e = true
  ↔ status (data e) = "Resolved"
    ∧ ∀ r, r ∈ roulette_events s → re_settled_at r < settledAt (data e).
Proof.
  unfold Legacy.admitted. case_bool_decide as Hst; cbn [negb]; [|split; [done|tauto]].
  destruct (sql_max _) as [w|] eqn:Hmax.
  - apply sql_max_Some in Hmax as [Hin Hle]. rewrite Z.ltb_lt. split.
    + intros Hlt. split; [done|]. intros r Hr.
      assert (re_settled_at r ≤ w); [|lia].
      apply Hle. change (map re_settled_at (roulette_events s))
        with (re_settled_at <$> roulette_events s).
      apply list_elem_of_fmap. by exists r.
    + intros [_ Hall].
      change (map re_settled_at (roulette_events s))
        with (re_settled_at <$> roulette_events s) in Hin.
      apply list_elem_of_fmap in Hin as (r & -> & Hr). by apply Hall.
  - apply sql_max_None in Hmax. split; [|done]. intros _. split; [done|].
    intros r Hr. destruct (roulette_events s); [by apply elem_of_nil in Hr|done].
Qed.

(** X12. The older handler compares every event with one timestamp, the
    latest settlement of the whole fact table, where the present one compares
    it with the latest of the event's own table. Its to-ingest set is the
    present one's, less the events that do not settle after every stored
    fact: a sub-list of it, equal to it on an empty fact table. A run of the
    older handler that returns reports the size of its own to-ingest set,
    never more than the present pipeline would take from the same batch, and
    whatever its end it never calls [logError]. *)
Theorem legacy_filter_is_stricter (now : Z) (batch : list RouletteEvent) (s : store) :
  (∀ e, e ∈ LegacyHandler.to_ingest s batch
        ↔ e ∈ to_ingest s batch
          ∧ ∀ r, r ∈ roulette_events s → re_settled_at r < settledAt (data e))
  ∧ LegacyHandler.to_ingest s batch `sublist_of` to_ingest s batch
  ∧ (roulette_events s = [] → LegacyHandler.to_ingest s batch = to_ingest s batch)
  ∧ (∀ p, returned (LegacyHandler.processValidated now batch) s = Ok p →
          processed p = length (LegacyHandler.to_ingest s batch)
          ∧ (processed p ≤ length (to_ingest s batch))%nat)
  ∧ (∀ e c, QLogError e c ∉ issued (LegacyHandler.processValidated now batch) s).
Proof.
  assert (∀ e, Legacy.admitted (sql_max (map re_settled_at (roulette_events s))) e = true →
               admitted (watermarks s batch) e = true) as Hweak.
  { intros e [Hst Hall]%legacy_admitted_spec. apply admitted_spec. split; [done|].
    destruct (watermarks s batch !! partition_of e) as [w|] eqn:Hw; [|by left].
    right. exists w. split; [done|].
    rewrite watermarks_lookup in Hw. case_bool_decide; [|done].
    apply select_max_latest in Hw as [(re & [Hre _] & <-) _]. by apply Hall. }
  assert (LegacyHandler.to_ingest s batch `sublist_of` to_ingest s batch) as Hsub.
  { by apply filter_sublist_weaker. }
  split_and!; [|done| | |].
  - intros e. unfold LegacyHandler.to_ingest, LegacyHandler.resolvedEvents, to_ingest,
      resolvedEvents.
    rewrite !list_elem_of_In, !filter_In, <- !list_elem_of_In, legacy_admitted_spec. split.
    + intros (Hin & Hst & Hall). split; [|done]. split; [done|].
      apply Hweak. by apply legacy_admitted_spec.
    + intros ((Hin & [Hst _]%admitted_spec) & Hall). done.
  - intros Hempty. unfold LegacyHandler.to_ingest, LegacyHandler.resolvedEvents, to_ingest,
      resolvedEvents.
    apply filter_ext. intros e.
    destruct (Legacy.admitted _ e) eqn:Hl; [symmetry; by apply Hweak|].
    destruct (admitted (watermarks s batch) e) eqn:Ha; [|done].
    apply admitted_spec in Ha as [Hst _].
    rewrite <- Hl. apply legacy_admitted_spec. split; [done|].
    intros r Hr. rewrite Hempty in Hr. by apply elem_of_nil in Hr.
  - intros p Hret.
    assert (processed p = length (LegacyHandler.to_ingest s batch)) as Hp.
    { unfold returned in Hret. unfold LegacyHandler.processValidated in Hret.
      rewrite try_catch_rethrow in Hret.
      apply (returned_bind_Ok createTables) in Hret as ([] & _ & Hret).
      change (store_after createTables s) with s in Hret.
      unfold LegacyHandler.ingest in Hret.
      apply returned_bind_Ok in Hret as (latest & Hlatest & Hret).
      change (store_after Legacy.select_max_settled s) with s in Hret.
      injection Hlatest as <-. cbv zeta in Hret.
      fold (LegacyHandler.to_ingest s batch) in Hret.
      destruct (length (LegacyHandler.to_ingest s batch) =? 0)%nat eqn:Hlen.
      - apply Nat.eqb_eq in Hlen. injection Hret as <-. by rewrite Hlen.
      - apply returned_bind_Ok in Hret as (cr & _ & Hret).
        apply returned_bind_Ok in Hret as (rows & _ & Hret).
        apply returned_bind_Ok in Hret as (u & _ & Hret).
        by injection Hret as <-. }
    split; [done|]. rewrite Hp. by apply sublist_length.
  - intros e c Hin. unfold issued in Hin. unfold LegacyHandler.processValidated in Hin.
    rewrite try_catch_rethrow in Hin.
    apply (issued_bind_in createTables) in Hin as [Hin|([] & _ & Hin)];
      [by apply list_elem_of_singleton in Hin|].
    change (store_after createTables s) with s in Hin.
    unfold LegacyHandler.ingest in Hin.
    apply issued_bind_in in Hin as [Hin|(latest & _ & Hin)];
      [by apply list_elem_of_singleton in Hin|].
    change (store_after Legacy.select_max_settled s) with s in Hin. cbv zeta in Hin.
    destruct (length _ =? 0)%nat; [by apply elem_of_nil in Hin|].
    apply issued_bind_in in Hin as [Hin|(cr & _ & Hin)].
    { pose proof (loop_statements now
                    (uniqueTables (LegacyHandler.resolvedEvents latest batch)) s) as Hq.
      rewrite Forall_forall in Hq.
      destruct (Hq _ Hin) as [(t & n & ?)|(t & n & ?)]; done. }
    apply issued_bind_in in Hin as [Hin|(rows & _ & Hin)].
    { destruct (build_rows _ _); by apply elem_of_nil in Hin. }
    apply issued_bind_in in Hin as [Hin|(u & _ & Hin)]; [|by apply elem_of_nil in Hin].
    destruct (0 <? length rows)%nat; [|by apply elem_of_nil in Hin].
    unfold issued in Hin. rewrite insert_events_run in Hin.
    by apply list_elem_of_singleton in Hin.
Qed.

(** ** The error log *)

Lemma take_1_filter_length {A} (P : A -> bool) (l : list A) :
  (0 <? length (take 1 (List.filter P l)))%nat = false ↔ ∀ x, x ∈ l → P x = false.
Proof.
  rewrite Nat.ltb_ge. split.
  - intros Hlen x Hx. destruct (P x) eqn:HP; [|done].
    assert (In x (List.filter P l)) as Hin by (apply filter_In; by rewrite <- list_elem_of_In).
    destruct (List.filter P l); [done|]. cbn in Hlen. lia.
  - intros Hall. by rewrite (filter_none P l Hall).
Qed.

Lemma logError_script_step (fallback : string) (now : Z) (h : db_health) (e : js_error)
    (context : option string) (t : error_logs) :
  (logError_script fallback now h e context t).1 = t
  ∨ (select_ok h = true ∧ insert_ok h = true
     ∧ (∀ r, r ∈ log_rows t → el_message r = message e →
             el_created_at r ≤ now - twentyFourHours)
     ∧ (logError_script fallback now h e context t).1
       = mkErrorLogs
           (log_rows t ++ [mkErrorLog (log_seq t) (message e) (stack e)
                             (or_default context fallback) now])
           (log_seq t + 1)).
Proof.
  unfold logError_script. destruct (select_ok h); cbn [negb]; [|by left].
  destruct (0 <? length _)%nat eqn:Hrecent; [by left|].
  destruct (insert_ok h); [|by left]. right. split_and!; try done.
  intros r Hr Hmsg. rewrite take_1_filter_length in Hrecent.
  specialize (Hrecent r Hr). unfold recent_same in Hrecent.
  rewrite bool_decide_eq_true_2 in Hrecent by done. cbn in Hrecent.
  apply Z.ltb_ge in Hrecent. done.
Qed.

Lemma Actions_logError_step (now : Z) (h : db_health) (e : js_error)
    (context : option string) (t : error_logs) :
  (Actions.logError now h e context t).1 = t
  ∨ (select_ok h = true ∧ insert_ok h = true
     ∧ (∀ r, r ∈ log_rows t → el_created_at r ≤ now - twentyFourHours)
     ∧ (Actions.logError now h e context t).1
       = mkErrorLogs
           (log_rows t ++ [mkErrorLog (log_seq t) (message e) (Some (default "" (stack e)))
                             (or_default context "processRouletteData") now])
           (log_seq t + 1)).
Proof.
  unfold Actions.logError. destruct (select_ok h); cbn [negb]; [|by left].
  destruct (0 <? length _)%nat eqn:Hrecent; [by left|].
  destruct (insert_ok h); [|by left]. right. split_and!; try done.
  intros r Hr. rewrite take_1_filter_length in Hrecent.
  specialize (Hrecent r Hr). unfold recent_any in Hrecent.
  apply Z.ltb_ge in Hrecent. done.
Qed.

Lemma lookup_snoc_cases {A} (l : list A) (x : A) (i : nat) (y : A) :
  (l ++ [x]) !! i = Some y → (i < length l)%nat ∧ l !! i = Some y ∨ i = length l ∧ y = x.
Proof.
  intros H. destruct (decide (i < length l)%nat) as [Hlt|Hge].
  - left. split; [done|]. by rewrite lookup_app_l in H.
  - right. rewrite lookup_app_r in H by lia.
    destruct (i - length l)%nat as [|k] eqn:Hk; [|done].
    injection H as <-. split; [lia|done].
Qed.

(** X13. The error log of the two scripts, over any sequence of [logError]
    calls, whatever the errors, the contexts, the times of the calls and the
    failures of the two statements: rows are only appended, at most one per
    call; two rows that carry the same message are at least 24 hours apart;
    and every new row is the message of one of the calls, dated at that call,
    under the context given or else the script's own name, written by a call
    whose two statements went through. The database clock and the host's are
    taken in step. *)
Theorem error_log_throttled
    (fallback : string) (calls : list log_call) (t : error_logs) :
  spaced_per_message t →
  let t' := run_calls (logError_script fallback) calls t in
  spaced_per_message t'
  ∧ log_rows t `prefix_of` log_rows t'
  ∧ (length (log_rows t') ≤ length (log_rows t) + length calls)%nat
  ∧ (∀ i r, log_rows t' !! i = Some r → (length (log_rows t) ≤ i)%nat →
            ∃ c, c ∈ calls
                 ∧ el_message r = message (call_error c)
                 ∧ el_created_at r = call_now c
                 ∧ el_context r = or_default (call_context c) fallback
                 ∧ select_ok (call_health c) = true
                 ∧ insert_ok (call_health c) = true).
Proof.
  cbv zeta. revert t. induction calls as [|c calls IH]; intros t Hsp.
  - cbn. split_and!; [done|done|lia|].
    intros i r Hi Hlen. apply lookup_lt_Some in Hi. lia.
  - unfold run_calls in *. cbn [fold_left].
    set (t1 := (logError_script fallback (call_now c) (call_health c) (call_error c)
                  (call_context c) t).1).
    destruct (logError_script_step fallback (call_now c) (call_health c) (call_error c)
                (call_context c) t) as [Hsame|(Hsel & Hins & Hold & Hnew)]; fold t1 in Hsame || fold t1 in Hnew.
    + rewrite Hsame. destruct (IH t Hsp) as (H1 & H2 & H3 & H4).
      split_and!; [done|done|cbn [length]; lia|].
      intros i r Hi Hlen. destruct (H4 i r Hi Hlen) as (c' & Hc' & Hrest).
      exists c'. split; [by right|done].
    + assert (spaced_per_message t1) as Hsp1.
      { rewrite Hnew. intros i j r1 r2 Hij Hi Hj Hmsg. cbn [log_rows] in Hi, Hj.
        apply lookup_snoc_cases in Hj as [[Hjlt Hj]|[-> ->]].
        - rewrite lookup_app_l in Hi by lia. exact (Hsp i j r1 r2 Hij Hi Hj Hmsg).
        - rewrite lookup_app_l in Hi by lia. cbn [el_created_at el_message] in *.
          apply list_elem_of_lookup_2 in Hi. specialize (Hold r1 Hi Hmsg). lia. }
      destruct (IH t1 Hsp1) as (H1 & H2 & H3 & H4).
      assert (log_rows t1 = log_rows t ++ [mkErrorLog (log_seq t) (message (call_error c))
                (stack (call_error c)) (or_default (call_context c) fallback) (call_now c)])
        as Hrows by (by rewrite Hnew).
      split_and!; [done| | |].
      * etrans; [|exact H2]. rewrite Hrows. by apply prefix_app_r.
      * rewrite Hrows, length_app in H3. cbn [length] in *. lia.
      * intros i r Hi Hlen.
        destruct (decide (length (log_rows t1) ≤ i)%nat) as [Hge|Hlt].
        -- destruct (H4 i r Hi Hge) as (c' & Hc' & Hrest). exists c'. split; [by right|done].
        -- destruct H2 as [k Hk]. rewrite Hk in Hi. rewrite lookup_app_l in Hi by lia.
           rewrite Hrows in Hi. apply lookup_snoc_cases in Hi as [[Hilt _]|[_ ->]]; [lia|].
           exists c. split; [left|]. done.
Qed.

Lemma error_log_throttled_witness :
  spaced_per_message
    (run_calls ProcessScript.logError
       [mkLogCall 1762736900000 (mkHealth true true)
          (mkJsError "HTTP error! status: 503" (Some "Error: HTTP error! status: 503"))
          (Some "processRouletteData");
        mkLogCall 1762740500000 (mkHealth true true)
          (mkJsError "HTTP error! status: 503" (Some "Error: HTTP error! status: 503"))
          (Some "processRouletteData")]
       (mkErrorLogs [] 1)).
Proof.
  refine (proj1 (error_log_throttled "processRouletteData" _ (mkErrorLogs [] 1) _)).
  intros i j r1 r2 _ Hi. done.
Defined.

(** X14. The error log of the request handlers ([logError] of the shared
    actions), over any sequence of calls: rows are only appended, at most one
    per call; any two rows are at least 24 hours apart, whatever their
    messages, so an error is dropped when any error at all was logged in the
    24 hours before it; and a new row carries the message of its call, with
    the stack stored as a string, empty when the error has none. *)
Theorem shared_error_log_throttled (calls : list log_call) (t : error_logs) :
  spaced t →
  let t' := run_calls Actions.logError calls t in
  spaced t'
  ∧ log_rows t `prefix_of` log_rows t'
  ∧ (length (log_rows t') ≤ length (log_rows t) + length calls)%nat
  ∧ (∀ i r, log_rows t' !! i = Some r → (length (log_rows t) ≤ i)%nat →
            ∃ c, c ∈ calls
                 ∧ el_message r = message (call_error c)
                 ∧ el_created_at r = call_now c
                 ∧ el_stack r = Some (default "" (stack (call_error c))))
  ∧ (∀ now h e context r,
       r ∈ log_rows t' → now - twentyFourHours < el_created_at r →
       Actions.logError now h e context t' = (t', if select_ok h then [] else [LoggingFailed])).
Proof.
  cbv zeta.
  assert (∀ t0 now h e context r,
            r ∈ log_rows t0 → now - twentyFourHours < el_created_at r →
            Actions.logError now h e context t0
            = (t0, if select_ok h then [] else [LoggingFailed])) as Hdrop.
  { intros t0 now h e context r Hr Hrecent. unfold Actions.logError.
    destruct (select_ok h); cbn [negb]; [|done].
    destruct (0 <? length _)%nat eqn:Hlen; [done|].
    rewrite take_1_filter_length in Hlen. specialize (Hlen r Hr).
    unfold recent_any in Hlen. apply Z.ltb_ge in Hlen. lia. }
  revert t. induction calls as [|c calls IH]; intros t Hsp.
  - cbn. split_and!; [done|done|lia| |by apply Hdrop].
    intros i r Hi Hlen. apply lookup_lt_Some in Hi. lia.
  - unfold run_calls in *. cbn [fold_left].
    set (t1 := (Actions.logError (call_now c) (call_health c) (call_error c)
                  (call_context c) t).1).
    destruct (Actions_logError_step (call_now c) (call_health c) (call_error c)
                (call_context c) t) as [Hsame|(Hsel & Hins & Hold & Hnew)];
      fold t1 in Hsame || fold t1 in Hnew.
    + rewrite Hsame. destruct (IH t Hsp) as (H1 & H2 & H3 & H4 & H5).
      split_and!; [done|done|cbn [length]; lia| |done].
      intros i r Hi Hlen. destruct (H4 i r Hi Hlen) as (c' & Hc' & Hrest).
      exists c'. split; [by right|done].
    + assert (spaced t1) as Hsp1.
      { rewrite Hnew. intros i j r1 r2 Hij Hi Hj. cbn [log_rows] in Hi, Hj.
        apply lookup_snoc_cases in Hj as [[Hjlt Hj]|[-> ->]].
        - rewrite lookup_app_l in Hi by lia. exact (Hsp i j r1 r2 Hij Hi Hj).
        - rewrite lookup_app_l in Hi by lia. cbn [el_created_at] in *.
          apply list_elem_of_lookup_2 in Hi. specialize (Hold r1 Hi). lia. }
      destruct (IH t1 Hsp1) as (H1 & H2 & H3 & H4 & H5).
      assert (log_rows t1 = log_rows t ++ [mkErrorLog (log_seq t) (message (call_error c))
                (Some (default "" (stack (call_error c))))
                (or_default (call_context c) "processRouletteData") (call_now c)])
        as Hrows by (by rewrite Hnew).
      split_and!; [done| | | |done].
      * etrans; [|exact H2]. rewrite Hrows. by apply prefix_app_r.
      * rewrite Hrows, length_app in H3. cbn [length] in *. lia.
      * intros i r Hi Hlen.
        destruct (decide (length (log_rows t1) ≤ i)%nat) as [Hge|Hlt].
        -- destruct (H4 i r Hi Hge) as (c' & Hc' & Hrest). exists c'. split; [by right|done].
        -- destruct H2 as [k Hk]. rewrite Hk in Hi. rewrite lookup_app_l in Hi by lia.
           rewrite Hrows in Hi. apply lookup_snoc_cases in Hi as [[Hilt _]|[_ ->]]; [lia|].
           exists c. split; [left|]. done.
Qed.

Lemma shared_error_log_throttled_witness :
  (length (log_rows
     (run_calls Actions.logError
        [mkLogCall 1762736900000 (mkHealth true true)
           (mkJsError "HTTP error! status: 503" None) None;
         mkLogCall 1762740500000 (mkHealth true true)
           (mkJsError "Invalid fields!" None) (Some "processRouletteData")]
        (mkErrorLogs [] 1))) ≤ 0 + 2)%nat.
Proof.
  refine (proj1 (proj2 (proj2 (shared_error_log_throttled _ (mkErrorLogs [] 1) _)))).
  intros i j r1 r2 _ Hi. done.
Defined.

(** ** The reply of the request handler *)

Lemma processValidated_returned (now : Z) (batch : list RouletteEvent) (s : store)
    (p : processed_result) :
  returned (processValidated now batch) s = Ok p →
  p = mkProcessed (length (to_ingest s batch)).
Proof.
  intros Hret. destruct (to_ingest s batch) as [|e0 l] eqn:Hti.
  - unfold returned in Hret. rewrite (short_circuit_run now batch s Hti) in Hret.
    by injection Hret as <-.
  - destruct (processValidated_Ok now batch s p Hret) as (cr & s1 & q1 & rows & _ & _ & Hrun);
      [by rewrite Hti|].
    unfold returned in Hret. rewrite Hrun, Hti in Hret. by injection Hret as <-.
Qed.

(** X15. The reply of [GET] has one of two forms. Status 200, when the run
    returned: the upstream answered with success, the payload passed the
    schema, and [processedEvents] is the size of the to-ingest set of the
    validated batch on the store as it was. Status 500 with the fixed body,
    the same for every error, when the run threw: then no fact was written.
    The store is left as the run left it. *)
Theorem GET_reports_the_run
    (coerce_date : json -> option Z) (now : Z) (r : response) (s : store) :
  let run := processRouletteData coerce_date now r in
  let rep := (GET run s).1.1 in
  let s' := (GET run s).1.2 in
  s' = store_after run s
  ∧ (GET run s).2 = issued run s
  ∧ ((reply_status rep = 200
      ∧ ∃ v, resp_ok r = true
             ∧ parse coerce_date (resp_json r) = Ok v
             ∧ returned run s = Ok (mkProcessed (length (to_ingest s v)))
             ∧ reply_body rep
               = JObj [("message", JStr "Datos de roulette procesados exitosamente");
                       ("processedEvents", JNum (Z.of_nat (length (to_ingest s v))))])
     ∨ (reply_status rep = 500
        ∧ reply_body rep = JObj [("error", JStr "Error interno del servidor")]
        ∧ (∃ e, returned run s = Err e)
        ∧ roulette_events s' = roulette_events s
        ∧ casino s `prefix_of` casino s')).
Proof.
  cbv zeta. unfold GET, store_after, issued, returned.
  destruct (resp_ok r) eqn:Hok.
  - destruct (parse coerce_date (resp_json r)) as [v|e0] eqn:Hparse.
    + rewrite (processRouletteData_validated _ _ _ v s Hok Hparse).
      pose proof (processValidated_returned now v s) as Hp.
      pose proof (processValidated_Err now v s) as He.
      pose proof (processValidated_casino now v s) as [Hpre _].
      unfold returned, store_after in *.
      destruct (processValidated now v s) as [[[p|e] s'] q]; cbn [fst snd] in *.
      * split; [done|]. split; [done|]. left. split; [done|]. exists v.
        rewrite (Hp p eq_refl). done.
      * split; [done|]. split; [done|]. right.
        destruct (He e eq_refl) as (_ & Hev & _).
        split_and!; try done. by exists e.
    + assert (e0 = ZodError) as ->.
      { unfold parse in Hparse. destruct (RouletteEventsArraySchema _ _); congruence. }
      rewrite (processRouletteData_rejected _ _ _ s Hok Hparse). cbn [fst snd].
      split; [done|]. split; [done|]. right. split_and!; try done. by exists ZodError.
  - rewrite (processRouletteData_http_error _ _ _ _ Hok). cbn [fst snd].
    split; [done|]. split; [done|]. right. split_and!; try done.
    by exists (HttpError (resp_status r)).
Qed.

(** ** Pruning and the watermark *)

Lemma belongs_after_prune (now : Z) (s : store) (t : string) (r : event_row) :
  belongs (store_after (Route.cleanupOldRouletteEvents now) s) t r
  ↔ belongs s t r ∧ threeMonthsAgo now ≤ re_created_at r.
Proof.
  unfold belongs, store_after. rewrite Route_cleanup_run. cbn [fst snd roulette_events casino].
  rewrite list_elem_of_In, filter_In, <- list_elem_of_In.
  unfold is_old. rewrite negb_true_iff, Z.ltb_ge. tauto.
Qed.

Lemma admitted_after_prune (now : Z) (batch : list RouletteEvent) (s : store)
    (e : RouletteEvent) :
  admitted (watermarks s batch) e = true →
  admitted (watermarks (store_after (Route.cleanupOldRouletteEvents now) s) batch) e = true.
Proof.
  rewrite !admitted_spec. intros [Hst Hw]. split; [done|].
  set (s' := store_after (Route.cleanupOldRouletteEvents now) s).
  destruct (watermarks s' batch !! partition_of e) as [w'|] eqn:Hw'; [|by left].
  right. exists w'. split; [done|].
  rewrite watermarks_lookup in Hw'. rewrite watermarks_lookup in Hw.
  case_bool_decide; [|done].
  apply select_max_latest in Hw' as [(re & Hre & <-) _].
  apply belongs_after_prune in Hre as [Hre _].
  destruct Hw as [Hnone|(w & Hw & Hlt)].
  - exfalso. by apply (proj1 (select_max_none s (partition_of e)) Hnone re).
  - apply select_max_latest in Hw as [_ Hall]. specialize (Hall re Hre). lia.
Qed.

(** X16. Pruning can only widen what the next run takes. Every event a run
    would ingest before a pruning it would ingest after it, in the same
    order; and once every fact of a table is older than the cut-off, the
    pruning removes the table's watermark with them, so that every
    "Resolved" event of that table in the next batch is taken again,
    whenever it was settled. *)
Theorem pruning_widens_to_ingest (now : Z) (batch : list RouletteEvent) (s : store) :
  let s' := store_after (Route.cleanupOldRouletteEvents now) s in
  to_ingest s batch `sublist_of` to_ingest s' batch
  ∧ (∀ e, e ∈ batch → status (data e) = "Resolved" →
          (∀ r, belongs s (partition_of e) r → re_created_at r < threeMonthsAgo now) →
          e ∈ to_ingest s' batch)
  ∧ (∀ e, e ∈ to_ingest s' batch → e ∉ to_ingest s batch →
          ∃ r, belongs s (partition_of e) r
               ∧ settledAt (data e) ≤ re_settled_at r
               ∧ re_created_at r < threeMonthsAgo now).
Proof.
  cbv zeta. split_and!.
  - apply filter_sublist_weaker. intros e. apply admitted_after_prune.
  - intros e Hin Hst Hold. unfold to_ingest. apply resolvedEvents_spec.
    split; [done|]. split; [done|]. left.
    rewrite watermarks_lookup. case_bool_decide; [|done].
    apply select_max_none. intros re [Hre Hyoung]%belongs_after_prune.
    specialize (Hold re Hre). lia.
  - intros e He' He. unfold to_ingest in *.
    apply resolvedEvents_spec in He' as (Hin & Hst & Hw').
    rewrite resolvedEvents_spec in He.
    destruct (watermarks s batch !! partition_of e) as [w|] eqn:Hw.
    2:{ exfalso. apply He. split; [done|]. split; [done|]. by left. }
    destruct (decide (w < settledAt (data e))) as [Hlt|Hge].
    { exfalso. apply He. split; [done|]. split; [done|]. right. by exists w. }
    rewrite watermarks_lookup in Hw. rewrite watermarks_lookup in Hw'.
    case_bool_decide; [|done].
    apply select_max_latest in Hw as [(re & Hre & <-) _].
    exists re. split; [done|]. split; [lia|].
    destruct (decide (re_created_at re < threeMonthsAgo now)) as [|Hyoung]; [done|].
    exfalso.
    assert (belongs (store_after (Route.cleanupOldRouletteEvents now) s) (partition_of e) re)
      as Hre' by (apply belongs_after_prune; split; [done|lia]).
    destruct Hw' as [Hnone|(w' & Hw' & Hlt')].
    + by apply (proj1 (select_max_none _ _) Hnone re).
    + apply select_max_latest in Hw' as [_ Hall]. specialize (Hall re Hre'). lia.
Qed.

(** ** The schema the standalone script declares for itself *)

Lemma z_literal_string (values : list string) (input : option json) :
  z_literal values input
  = match z_string input with
    | Some v => if bool_decide (v ∈ values) then Some v else None
    | None => None
    end.
Proof. by destruct input as [[| | |v| |]|]. Qed.

(** X17. The outcome schema of the standalone script, where parity and
    colour are any strings, accepts whatever the shared schema accepts, with
    the same result; and what it accepts beyond is exactly the outcomes whose
    parity is not "Even" or "Odd" or whose colour is not "Red", "Black" or
    "Green". *)
Theorem widened_outcome_schema (input : option json) :
  (∀ o, RouletteOutcomeSchema input = Some o → Widened.RouletteOutcomeSchema input = Some o)
  ∧ (∀ o, Widened.RouletteOutcomeSchema input = Some o →
          (RouletteOutcomeSchema input = Some o
           ↔ o_type o ∈ ["Even"; "Odd"] ∧ o_color o ∈ ["Red"; "Black"; "Green"])
          ∧ (RouletteOutcomeSchema input = None
             ↔ o_type o ∉ ["Even"; "Odd"] ∨ o_color o ∉ ["Red"; "Black"; "Green"])).
Proof.
  unfold RouletteOutcomeSchema, Widened.RouletteOutcomeSchema, z_object.
  destruct input as [[| | | | |f]|]; try done.
  rewrite !z_literal_string. unfold mbind, option_bind.
  destruct (z_number (get "number" f)) as [n|]; [|done].
  destruct (z_string (get "type" f)) as [ty|]; [|done].
  destruct (z_string (get "color" f)) as [co|]; [|split; [by case_bool_decide|done]].
  split.
  - intros o. by do 2 (case_bool_decide; [|done]).
  - intros o [= <-]. cbn [o_type o_color].
    case_bool_decide as Hty; [case_bool_decide as Hco|].
    + split; [split; [done|by intros _]|]. split; [done|]. intros [?|?]; done.
    + split; [split; [done|by intros [_ ?]]|]. split; [by right|done].
    + split; [split; [done|by intros [? _]]|]. split; [by left|done].
Qed.

(** ** The standalone script's filter and the pipeline's *)

Lemma fold_set_add_mem {A} (g : A -> string) (l : list A) (acc : list string) (t : string) :
  t ∈ fold_left (fun acc x => set_add (g x) acc) l acc ↔ t ∈ acc ∨ ∃ x, x ∈ l ∧ g x = t.
Proof.
  revert acc. induction l as [|x l IH]; intros acc; cbn [fold_left].
  - split; [by left|]. intros [H|(x & Hx & _)]; [done|]. by apply elem_of_nil in Hx.
  - rewrite IH, set_add_spec. split.
    + intros [[H|H]|(x' & Hx' & Ht)].
      * by left.
      * right. exists x. split; [left|done].
      * right. exists x'. split; [by right|done].
    + intros [H|(x' & [->|Hx']%elem_of_cons & Ht)].
      * left. by left.
      * left. by right.
      * right. by exists x'.
Qed.

Lemma filter_filter_andb {A} (P Q : A -> bool) (l : list A) :
  List.filter P (List.filter Q l) = List.filter (fun x => Q x && P x) l.
Proof.
  induction l as [|x l IH]; [done|]. cbn.
  destruct (Q x); cbn; [destruct (P x)|]; by rewrite IH.
Qed.

Lemma Forall2_filter {A B} (R : A -> B -> Prop) (P : A -> bool) (Q : B -> bool)
    (l : list A) (l' : list B) :
  Forall2 R l l' →
  (∀ x y, x ∈ l → y ∈ l' → R x y → P x = Q y) →
  Forall2 R (List.filter P l) (List.filter Q l').
Proof.
  induction 1 as [|x y l l' HR _ IH]; intros HPQ; [constructor|]. cbn.
  rewrite (HPQ x y); [|left|left|done].
  assert (Forall2 R (List.filter P l) (List.filter Q l')) as Hrest.
  { apply IH. intros x' y' Hx' Hy'. apply HPQ; by right. }
  destruct (Q y); [by constructor|done].
Qed.

Lemma Standalone_filteredEvents_run (new_Date : string -> option Z)
    (events : list Standalone.RouletteEvent) (s : store) :
  Standalone.filteredEvents new_Date events s
  = let resolved := Standalone.resolvedEvents events in
    let latest :=
      casinoLatestSettledMap
        (map (fun tableId => (tableId, sql_max (joined_settled s tableId)))
             (Standalone.uniqueTableIds resolved)) in
    (Ok (List.filter (Standalone.admitted new_Date latest) resolved), s,
     if (length resolved =? 0)%nat then []
     else map QSelectMaxSettled (Standalone.uniqueTableIds resolved)).
Proof.
  unfold Standalone.filteredEvents. cbv zeta.
  destruct (Standalone.resolvedEvents events) as [|r l] eqn:Hres; [done|].
  cbn [length Nat.eqb].
  rewrite (bind_Ok _ _ _ _ _ _ (casinoQueries_run _ s)). unfold ret.
  by rewrite app_nil_r.
Qed.

(** X19. On a payload both schemas accept, the standalone script and the
    pipeline take the same events, in the same order, although the script
    drops the events that are not "Resolved" first and reads the watermarks
    of the remaining tables only. Its selection returns and leaves the store
    as it was; its watermark reads are among the pipeline's; and when the
    batch has no "Resolved" event it reads none. *)
Theorem standalone_script_takes_the_same_events
    (new_Date : string -> option Z) (raw : list Standalone.RouletteEvent)
    (batch : list RouletteEvent) (s : store) :
  Forall2 (same_event new_Date) raw batch →
  ∃ taken,
    returned (Standalone.filteredEvents new_Date raw) s = Ok taken
    ∧ Forall2 (same_event new_Date) taken (to_ingest s batch)
    ∧ store_after (Standalone.filteredEvents new_Date raw) s = s
    ∧ (∀ q, q ∈ issued (Standalone.filteredEvents new_Date raw) s →
            q ∈ map QSelectMaxSettled (uniqueTableIds batch))
    ∧ ((∀ e, e ∈ batch → status (data e) ≠ "Resolved") →
       issued (Standalone.filteredEvents new_Date raw) s = []).
Proof.
  intros Hsame. unfold returned, store_after, issued.
  rewrite Standalone_filteredEvents_run. cbv zeta. cbn [fst snd].
  set (resolved := Standalone.resolvedEvents raw).
  set (latest := casinoLatestSettledMap _).
  assert (∀ r, r ∈ resolved ↔ r ∈ raw ∧ Standalone.status (Standalone.data r) = "Resolved")
    as Hresolved.
  { intros r. unfold resolved, Standalone.resolvedEvents.
    rewrite list_elem_of_In, filter_In, <- list_elem_of_In, bool_decide_eq_true. done. }
  assert (∀ t, t ∈ Standalone.uniqueTableIds resolved
               ↔ ∃ r, r ∈ resolved ∧ t_id (Standalone.table (Standalone.data r)) = t) as Hids.
  { intros t. unfold Standalone.uniqueTableIds.
    rewrite (fold_set_add_mem (fun r => t_id (Standalone.table (Standalone.data r)))).
    split; [|by right]. intros [H|H]; [by apply elem_of_nil in H|done]. }
  assert (∀ t, latest !! t
               = if bool_decide (t ∈ Standalone.uniqueTableIds resolved)
                 then sql_max (joined_settled s t) else None) as Hlatest.
  { intros t. unfold latest, casinoLatestSettledMap.
    rewrite (latest_map_lookup (fun t => sql_max (joined_settled s t))).
    rewrite lookup_empty. case_bool_decide; [|done].
    by destruct (sql_max (joined_settled s t)). }
  exists (List.filter (Standalone.admitted new_Date latest) resolved).
  split_and!; [done| |done| |].
  - unfold resolved, Standalone.resolvedEvents, to_ingest, resolvedEvents.
    rewrite filter_filter_andb. apply Forall2_filter; [done|].
    intros r e Hr He (_ & _ & _ & Hset & Hst & _ & Htab & _).
    unfold admitted, Standalone.admitted. rewrite Hst, Htab, Hset.
    case_bool_decide as Hres; cbn [negb andb]; [|done].
    rewrite Hlatest, watermarks_lookup.
    rewrite !bool_decide_eq_true_2; [done| |].
    + apply uniqueTableIds_spec. by exists e.
    + apply Hids. exists r. split; [|by rewrite Htab].
      apply Hresolved. split; [done|]. by rewrite Hst.
  - intros q Hq. destruct (length resolved =? 0)%nat; [by apply elem_of_nil in Hq|].
    change (map QSelectMaxSettled (Standalone.uniqueTableIds resolved))
      with (QSelectMaxSettled <$> Standalone.uniqueTableIds resolved) in Hq.
    apply list_elem_of_fmap in Hq as (t & -> & Ht).
    apply Hids in Ht as (r & [Hr _]%Hresolved & <-).
    apply list_elem_of_lookup in Hr as [i Hi].
    destruct (Forall2_lookup_l _ _ _ _ _ Hsame Hi) as (e & He & (_ & _ & _ & _ & _ & _ & Htab & _)).
    change (map QSelectMaxSettled (uniqueTableIds batch))
      with (QSelectMaxSettled <$> uniqueTableIds batch).
    apply list_elem_of_fmap. exists (t_id (Standalone.table (Standalone.data r))).
    split; [done|]. apply uniqueTableIds_spec. exists e.
    split; [by eapply list_elem_of_lookup_2|]. unfold partition_of. by rewrite Htab.
  - intros Hnone.
    assert (resolved = []) as ->; [|done].
    destruct resolved as [|r l] eqn:Hres; [done|]. exfalso.
    assert (r ∈ r :: l) as Hr by left.
    apply Hresolved in Hr as [Hr Hst].
    apply list_elem_of_lookup in Hr as [i Hi].
    destruct (Forall2_lookup_l _ _ _ _ _ Hsame Hi) as (e & He & (_ & _ & _ & _ & Hst' & _)).
    apply (Hnone e); [by eapply list_elem_of_lookup_2|]. by rewrite <- Hst'.
Qed.

Lemma standalone_script_takes_the_same_events_witness :
  ∃ taken,
    returned (Standalone.filteredEvents (fun str => iso_utc (JStr str)) [raw_ev1]) empty_store
    = Ok taken
    ∧ Forall2 (same_event (fun str => iso_utc (JStr str))) taken (to_ingest empty_store [ev1]).
Proof.
  destruct (standalone_script_takes_the_same_events (fun str => iso_utc (JStr str))
              [raw_ev1] [ev1] empty_store) as (taken & H1 & H2 & _).
  - constructor; [|constructor]. vm_compute. by split_and!.
  - by exists taken.
Defined.
